(** * Binomial-lattice fixed-income pricing: a shallow embedding

    The development embeds [binomial_rates_model_bond_pricing.py],
    [BDT_rates_model_ZCB_pricing.py] and the two objectives and the set-up
    statements of [mean_variance_analysis.py].  The data providers ([fredapi],
    [yfinance]) and [scipy.optimize.minimize] are parameters where a
    definition needs them; the printing of the reports is not embedded.

    Number model.  The Python code computes with IEEE doubles inside NumPy
    arrays.  Here every float is an exact real number of [R]; rounding,
    overflow, [inf] and [nan] are outside the model.  Division is the total
    division of [R] (NumPy yields [inf] or [nan] with a warning where a
    denominator is zero); no statement below depends on which value a
    quotient by zero takes.  [np.power] is followed wherever its result is a
    number ([BDT.root]): positive, zero and negative bases under the exponent
    1, positive and zero bases under [1/n]; a negative base under a
    fractional exponent gives [nan], and no statement depends on the value
    that stands for it.

    Array model.  A 2-D [ndarray] is a list of rows.  A vectorised
    assignment such as [L[:i+1, i] = f(rt[:i+1, i], L[:i+1, i+1], L[1:i+2, i+1])]
    is written row by row: the right-hand side is a function of the row index
    evaluated on the array as it is BEFORE the assignment, which is NumPy's
    evaluation order.

    Domain.  Horizons and dates are [nat].  The embedding follows the source
    exactly on well-formed contracts: [1 <= t], a forward date [0 < ft < t]
    (a futures date may also be 0), an option date [ot < t]; there every
    slice of the source is in range.  Elsewhere the source stops with an
    [IndexError], which the total functions of the pricers do not model
    ([t - 1] is truncated at [t = 0]); the statements about the pricers
    carry the conditions above.  Where the source can fail on well-formed
    input of the wrong size (a parameter vector that is too short), the
    embedding returns [None]. *)

From Stdlib Require Import String.
From Stdlib Require Import Reals List Sorted Arith Bool Lia Lra.
Import ListNotations.
Local Open Scope R_scope.

(** ** NumPy array primitives *)

Module NumPy.

Definition vector := list R.
Definition matrix := list (list R).

(** [np.zeros((n, m))] *)
Definition zeros (n m : nat) : matrix := repeat (repeat 0 m) n.

(** [M[i, j]] for in-range non-negative indices. *)
Definition get (M : matrix) (i j : nat) : R := nth j (nth i M []) 0.

(** In-place store of one cell of a row. *)
Fixpoint upd (k : nat) (x : R) (l : list R) {struct l} : list R :=
  match l, k with
  | [], _ => []
  | _ :: l', O => x :: l'
  | y :: l', S k' => y :: upd k' x l'
  end.

(** Rows of [M] paired with their index. *)
Fixpoint mapi_from {A B} (f : nat -> A -> B) (k : nat) (l : list A) : list B :=
  match l with
  | [] => []
  | a :: l' => f k a :: mapi_from f (S k) l'
  end.

(** [M[lo:hi, j] = [f lo, ..., f (hi-1)]] *)
Definition set_col_slice (M : matrix) (j lo hi : nat) (f : nat -> R) : matrix :=
  mapi_from (fun i row => if (lo <=? i)%nat && (i <? hi)%nat
                          then upd j (f i) row else row) 0 M.

(** [M[i, lo:hi] = [f lo, ..., f (hi-1)]] *)
Definition set_row_slice (M : matrix) (i lo hi : nat) (f : nat -> R) : matrix :=
  mapi_from (fun i' row => if (i' =? i)%nat
                           then mapi_from (fun j x => if (lo <=? j)%nat && (j <? hi)%nat
                                                      then f j else x) 0 row
                           else row) 0 M.

(** [np.sum(M, axis=0)[j]] *)
Definition col_sum (M : matrix) (j : nat) : R :=
  fold_right Rplus 0 (map (fun row => nth j row 0) M).

(** [lam * M] and [x / M] with a scalar on the left. *)
Definition scale (lam : R) (M : matrix) : matrix := map (map (Rmult lam)) M.
Definition scalar_div (x : R) (M : matrix) : matrix := map (map (fun z => x / z)) M.

(** Shape of an array: [M.shape == (n, m)]. *)
Definition shape (M : matrix) (n m : nat) : Prop :=
  length M = n /\ Forall (fun row => length row = m) M.

(** [range(n-1, lo-1, -1)]: the indices [n-1, n-2, ..., lo]. *)
Definition down_from (n lo : nat) : list nat := rev (seq lo (n - lo)).

(** [range(lo, n)] *)
Definition up_to (lo n : nat) : list nat := seq lo (n - lo).

(** [M[i, j] = x] *)
Definition set_cell (M : matrix) (i j : nat) (x : R) : matrix :=
  set_col_slice M j i (i + 1) (fun _ => x).

(** [np.sum(v)] *)
Definition vsum (v : vector) : R := fold_right Rplus 0 v.

End NumPy.
Import NumPy.

(** ** binomial_rates_model_bond_pricing.py *)

Module Binomial.

(** [rates_tree(r, u, d, t)]: the top row is [r * u**k]; row [i] is [d] times
    row [i-1] shifted one column to the right. *)
Definition rates_tree (r u d : R) (t : nat) : matrix :=
  let rt := zeros (t + 1) (t + 1) in
  let rt := set_row_slice rt 0 0 (t + 1) (fun k => r * u ^ k) in
  fold_left (fun rt i => set_row_slice rt i i (t + 1) (fun j => d * get rt (i - 1) (j - 1)))
            (up_to 1 (t + 1)) rt.

(** The body of [elementary_price_tree] after its [rt = rates_tree(...)]
    line.  The two source files carry the same text for it, so both
    embeddings call this one definition.  First loop: the two edges of
    column [i]; second loop: the interior rows [1 .. i-1] of column [i]. *)
Definition ept_of_rates (rt : matrix) (t : nat) (qu qd : R) : matrix :=
  let ept := zeros (t + 1) (t + 1) in
  let ept := set_cell ept 0 0 1 in
  let ept :=
    fold_left (fun ept i =>
                 let ept := set_cell ept 0 i (qu * (get ept 0 (i - 1) / (1 + get rt 0 (i - 1)))) in
                 set_cell ept i i (qd * (get ept (i - 1) (i - 1) / (1 + get rt (i - 1) (i - 1)))))
              (up_to 1 (t + 1)) ept in
  fold_left (fun ept i =>
               set_col_slice ept i 1 i
                 (fun k => qu * (1 / (1 + get rt (k - 1) (i - 1))) * get ept (k - 1) (i - 1)
                           + qd * (1 / (1 + get rt k (i - 1))) * get ept k (i - 1)))
            (up_to 1 (t + 1)) ept.

Definition elementary_price_tree (r u d : R) (t : nat) (qu qd : R) : matrix :=
  let rt := rates_tree r u d (t - 1) in
  ept_of_rates rt t qu qd.

(** [zcb_price] returns the whole lattice, not its root. *)
Definition zcb_price (face_value : R) (t : nat) (r u d qu qd : R) : matrix :=
  let rt := rates_tree r u d (t - 1) in
  let zcb_lattice := zeros (t + 1) (t + 1) in
  let zcb_lattice := set_col_slice zcb_lattice t 0 (t + 1) (fun _ => face_value) in
  fold_left (fun L i =>
               set_col_slice L i 0 (i + 1)
                 (fun k => (1 / (1 + get rt k i))
                           * (qu * get L k (i + 1) + qd * get L (k + 1) (i + 1))))
            (down_from t 0) zcb_lattice.

(** The array [cb_lattice] of [cb_price] when its loop is over. *)
Definition cb_lattice (face_value : R) (t : nat) (c r u d qu qd : R) : matrix :=
  let rt := rates_tree r u d (t - 1) in
  let L := zeros (t + 1) (t + 1) in
  let L := set_col_slice L t 0 (t + 1) (fun _ => (1 + c) * face_value) in
  fold_left (fun L i =>
               set_col_slice L i 0 (i + 1)
                 (fun k => face_value * c
                           + (1 / (1 + get rt k i))
                             * (qu * get L k (i + 1) + qd * get L (k + 1) (i + 1))))
            (down_from t 0) L.

Definition cb_price (face_value : R) (t : nat) (c r u d qu qd : R) : R :=
  get (cb_lattice face_value t c r u d qu qd) 0 0.

(** The array [cb_lattice] of [cb_forward_price] after its first loop
    ([range(t-1, ft, -1)], coupons accrued); [cb_futures_price] starts with
    the same statements. *)
Definition cb_accrued (face_value : R) (ft t : nat) (c r u d qu qd : R) : matrix :=
  let rt := rates_tree r u d (t - 1) in
  let L := zeros (t + 1) (t + 1) in
  let L := set_col_slice L t 0 (t + 1) (fun _ => (1 + c) * face_value) in
  fold_left (fun L i =>
               set_col_slice L i 0 (i + 1)
                 (fun k => face_value * c
                           + (1 / (1 + get rt k i))
                             * (qu * get L k (i + 1) + qd * get L (k + 1) (i + 1))))
            (down_from t (ft + 1)) L.

(** The array [cb_lattice] of [cb_forward_price] when both loops are over. *)
Definition cb_forward_lattice (face_value : R) (ft t : nat) (c r u d qu qd : R) : matrix :=
  let rt := rates_tree r u d (t - 1) in
  let L := cb_accrued face_value ft t c r u d qu qd in
  fold_left (fun L i =>
               set_col_slice L i 0 (i + 1)
                 (fun k => (1 / (1 + get rt k i))
                           * (qu * get L k (i + 1) + qd * get L (k + 1) (i + 1))))
            (down_from (ft + 1) 0) L.

(** [cb_lattice[0,0]/zcb_price(1, ft, r, u, d, qu, qd)]: a float divided by
    the array that [zcb_price] returns, which NumPy broadcasts. *)
Definition cb_forward_price (face_value : R) (ft t : nat) (c r u d qu qd : R) : matrix :=
  scalar_div (get (cb_forward_lattice face_value ft t c r u d qu qd) 0 0)
             (zcb_price 1 ft r u d qu qd).

(** The array [cb_lattice] of [cb_futures_price] when it returns. *)
Definition cb_futures_lattice (face_value : R) (ft t : nat) (c r u d qu qd : R) : matrix :=
  let rt := rates_tree r u d (t - 1) in
  let L := cb_accrued face_value ft t c r u d qu qd in
  let L := set_col_slice L ft 0 (ft + 1)
             (fun k => (1 / (1 + get rt k ft))
                       * (qu * get L k (ft + 1) + qd * get L (k + 1) (ft + 1))) in
  fold_left (fun L i =>
               set_col_slice L i 0 (i + 1)
                 (fun k => qu * get L k (i + 1) + qd * get L (k + 1) (i + 1)))
            (down_from ft 0) L.

Definition cb_futures_price (face_value : R) (ft t : nat) (c r u d qu qd : R) : R :=
  get (cb_futures_lattice face_value ft t c r u d qu qd) 0 0.

Definition caplet_price (notional_value c : R) (t : nat) (r u d qu qd : R) : R :=
  let rt := rates_tree r u d (t - 1) in
  let L := zeros t t in
  let L := set_col_slice L (t - 1) 0 t
             (fun k => notional_value * Rmax (get rt k (t - 1) - c * 1) 0
                       / (1 + get rt k (t - 1))) in
  let L :=
    fold_left (fun L i =>
                 set_col_slice L i 0 (i + 1)
                   (fun k => (1 / (1 + get rt k i))
                             * (qu * get L k (i + 1) + qd * get L (k + 1) (i + 1))))
              (down_from (t - 1) 0) L in
  get L 0 0.

Definition floorlet_price (notional_value c : R) (t : nat) (r u d qu qd : R) : R :=
  let rt := rates_tree r u d (t - 1) in
  let L := zeros t t in
  let L := set_col_slice L (t - 1) 0 t
             (fun k => notional_value * Rmax (c * 1 - get rt k (t - 1)) 0
                       / (1 + get rt k (t - 1))) in
  let L :=
    fold_left (fun L i =>
                 set_col_slice L i 0 (i + 1)
                   (fun k => (1 / (1 + get rt k i))
                             * (qu * get L k (i + 1) + qd * get L (k + 1) (i + 1))))
              (down_from (t - 1) 0) L in
  get L 0 0.

(** The array [swap_lattice] of [swap_price] after the columns
    [t-2, ..., lo] are filled; [swaption_price] runs the same statements
    down to [lo = ot]. *)
Definition swap_lattice_to (lo : nat) (c : R) (t : nat) (r u d qu qd : R) : matrix :=
  let rt := rates_tree r u d (t - 1) in
  let L := zeros t t in
  let L := set_col_slice L (t - 1) 0 t
             (fun k => (get rt k (t - 1) - c * 1) / (1 + get rt k (t - 1))) in
  fold_left (fun L i =>
               set_col_slice L i 0 (i + 1)
                 (fun k => (1 / (1 + get rt k i))
                           * ((get rt k i - c * 1)
                              + qu * get L k (i + 1) + qd * get L (k + 1) (i + 1))))
            (down_from (t - 1) lo) L.

Definition swap_price (notional_value c : R) (t : nat) (r u d qu qd : R) : R :=
  let swap_lattice := swap_lattice_to 0 c t r u d qu qd in
  notional_value * get swap_lattice 0 0.

Definition swaption_price (notional_value : R) (ot : nat) (c : R) (t : nat)
           (r u d qu qd : R) : R :=
  let rt := rates_tree r u d (t - 1) in
  let L := swap_lattice_to ot c t r u d qu qd in
  let L := set_col_slice L ot 0 (ot + 1) (fun k => Rmax (get L k ot) 0) in
  let L :=
    fold_left (fun L i =>
                 set_col_slice L i 0 (i + 1)
                   (fun k => (1 / (1 + get rt k i))
                             * (qu * get L k (i + 1) + qd * get L (k + 1) (i + 1))))
              (down_from ot 0) L in
  notional_value * get L 0 0.

End Binomial.

(** ** BDT_rates_model_ZCB_pricing.py *)

Module BDT.

(** [np.interp(x, xp, fp)] at one abscissa, for increasing [xp] given with
    [fp] as a list of points: [fp[0]] left of the first point, [fp[-1]] from
    the last point on, and on a segment [xp[k] <= x < xp[k+1]] the value
    [slope * (x - xp[k]) + fp[k]].  The abscissae are the Python integers the
    source passes. *)
Fixpoint interp_from (x x0 : nat) (f0 : R) (rest : list (nat * R)) : R :=
  match rest with
  | [] => f0
  | (x1, f1) :: rest' =>
      if (x <? x1)%nat
      then (f1 - f0) / (INR x1 - INR x0) * (INR x - INR x0) + f0
      else interp_from x x1 f1 rest'
  end.

Definition interp_at (pts : list (nat * R)) (x : nat) : R :=
  match pts with
  | [] => 0
  | (x0, f0) :: rest => if (x <=? x0)%nat then f0 else interp_from x x0 f0 rest
  end.

Definition interp (xs xp : list nat) (fp : list R) : list R :=
  map (interp_at (combine xp fp)) xs.

(** [x in ys] for a Python integer [x] and a list of floats. *)
Definition py_in (x : nat) (ys : list R) : bool :=
  existsb (fun y => if Req_dec_T (INR x) y then true else false) ys.

Definition fred_yield_yrs : list nat := [1; 2; 3; 5; 7; 10; 20; 30]%nat.

(** [load_market_rates(t)].  [latest x] stands for
    [fred.get_series('DGS' + str(x)).iloc[-1]], the last observation of the
    [x]-year series of the external data provider. *)
Definition load_market_rates (latest : nat -> R) (t : nat) : list R :=
  let fred_yield_yrs_upto_t := filter (fun x => (x <=? t)%nat) fred_yield_yrs in
  let fred_yields := map latest (filter (fun x => (x <=? t)%nat) fred_yield_yrs) in
  let linear_int :=
    filter (fun x => negb (py_in x fred_yields) && (x <=? t)%nat) (up_to 1 31) in
  interp linear_int fred_yield_yrs_upto_t fred_yields.

(** [rates_tree(a, b, t)]; [None] is the [IndexError] of [a[i]] on a vector
    that is too short.  [(np.ones(i+1).cumsum() - 1)[::-1]] is the vector
    [i, i-1, ..., 0]. *)
Definition rates_tree (a : list R) (b : R) (t : nat) : option matrix :=
  let rt := zeros (t + 1) (t + 1) in
  let rt :=
    fold_left (fun acc i =>
                 match acc with
                 | None => None
                 | Some rt =>
                     match nth_error a i with
                     | None => None
                     | Some a_i =>
                         Some (set_col_slice rt i 0 (i + 1)
                                 (fun k => a_i * exp (b * INR (i - k))))
                     end
                 end)
              (up_to 0 (t + 1)) (Some rt) in
  option_map (map (map (fun x => x / 100))) rt.

Definition elementary_price_tree (a : list R) (b : R) (t : nat) (qu : R) : option matrix :=
  let qd := 1 - qu in
  match rates_tree a b (t - 1) with
  | None => None
  | Some rt => Some (Binomial.ept_of_rates rt t qu qd)
  end.

(** [np.sum(ept, axis = 0)[1:]] *)
Definition ZCB_prices (a : list R) (b : R) (t : nat) (qu : R) : option vector :=
  match elementary_price_tree a b t qu with
  | None => None
  | Some ept => Some (skipn 1 (map (col_sum ept) (up_to 0 (t + 1))))
  end.

(** [np.power(x, 1/n)] at the exponents the source uses, [n = 1, 2, ...]:
    [exp(ln(x)/n)] for a positive base; 0 for the base 0; for a negative base
    the base itself when [n = 1] (the exponent is the float 1.0).  For a
    negative base and [n >= 2] NumPy returns [nan], which has no counterpart
    in [R]: like [inf] it is outside the number model, the value of the last
    branch stands for it, and every statement about spot rates excludes the
    case by its hypotheses. *)
Definition root (x : R) (n : nat) : R :=
  if Rlt_dec 0 x then Rpower x (1 / INR n)
  else if Req_dec_T x 0 then 0
  else if (n =? 1)%nat then x
  else Rpower x (1 / INR n).

(** [np.power(1/zcb, 1/(np.ones(t).cumsum())) - 1] *)
Definition BDT_spot_rates (a : list R) (b : R) (t : nat) (qu : R) : option vector :=
  match ZCB_prices a b t qu with
  | None => None
  | Some zcb =>
      Some (map (fun '(z, n) => root (1 / z) n - 1) (combine zcb (up_to 1 (t + 1))))
  end.

(** [None] also stands for the [ValueError] of operands of different
    lengths (a one-element [mr] would be broadcast by NumPy; the script never
    passes one together with [t > 1]). *)
Definition objective (a : list R) (b : R) (t : nat) (qu : R) (mr : vector) : option R :=
  match BDT_spot_rates a b t qu with
  | None => None
  | Some sr =>
      if (length mr =? length sr)%nat
      then Some (vsum (map (fun '(m, s) => (100 * (m - s)) ^ 2) (combine mr sr)))
      else None
  end.

(** What [scipy.optimize.minimize] hands back, as far as the script could
    read it. *)
Record OptimizeResult := mkResult {
  x : list R;
  success : bool;
  message : string
}.

(** How a run of the module script ends.  [Printed] is the report of the
    script, [Raised] an exception of NumPy.  [CalibrationFailed] is the
    outcome of the specification's error design; it is listed so that the
    statement about it can be written, and no path of [script] builds it. *)
Inductive outcome :=
| Printed (zcb : vector)
| Raised
| CalibrationFailed (msg : string).

(** The statements of the script below the function definitions, with the
    literals [b], [t], [qu] and [face_value] as arguments and the two
    collaborators ([fred], [minimize]) as functions. *)
Definition script (latest : nat -> R)
           (minimize : (list R -> option R) -> list R -> OptimizeResult)
           (b : R) (t : nat) (qu face_value : R) : outcome :=
  let mr := map (fun y => y / 100) (load_market_rates latest t) in
  let a := map (Rmult 5) (repeat 1 t) in
  let res := minimize (fun a => objective a b t qu mr) a in
  let optimal_a := x res in
  match ZCB_prices optimal_a b t qu with
  | None => Raised
  | Some zcb => Printed (map (Rmult face_value) zcb)
  end.

End BDT.

(** ** mean_variance_analysis.py *)

Module MeanVariance.

(** [np.dot(x, y)] for two 1-D arrays; [None] is the [ValueError] of
    lengths that differ. *)
Definition dot (x y : vector) : option R :=
  if (length x =? length y)%nat
  then Some (vsum (map (fun '(a, b) => a * b) (combine x y)))
  else None.

(** [return_objective(x, mean_returns)] *)
Definition return_objective (x mean_returns : vector) : option R :=
  match dot x mean_returns with
  | None => None
  | Some s => Some (-1 * s)
  end.

(** [x @ cov_matrix] for a matrix with [len(x)] rows and columns: entry [k]
    is the sum over [i] of [x[i] * cov_matrix[i, k]]. *)
Definition vecmat (x : vector) (cov_matrix : matrix) : vector :=
  map (fun k => vsum (map (fun '(x_i, row) => x_i * nth k row 0) (combine x cov_matrix)))
      (seq 0 (length x)).

(** [vol_objective(x, cov_matrix)]: the product
    [x @ cov_matrix @ np.reshape(x, (-1, 1))] has shape [(1,)], so the result
    is a one-element array.  [None] is the [ValueError] of a matrix that is
    not [len(x)] by [len(x)]. *)
Definition vol_objective (x : vector) (cov_matrix : matrix) : option vector :=
  if (length cov_matrix =? length x)%nat
     && forallb (fun row => (length row =? length x)%nat) cov_matrix
  then match dot (vecmat x cov_matrix) x with
       | None => None
       | Some q => Some [sqrt q]
       end
  else None.

(** The first statements of [max_returns_sol] and [min_risk_sol]: the
    initial guess [np.ones(n)/n], the budget constraint
    [lambda x: np.sum(x) - 1] and, when short positions are not allowed, the
    bounds [(0, None)] of every weight ([None] is no upper bound). *)
Definition initial_weights (mean_returns : vector) : vector :=
  map (fun one => one / INR (length mean_returns)) (repeat 1 (length mean_returns)).

Definition budget_constraint (x : vector) : R := vsum x - 1.

Definition bounds (mean_returns : vector) (short_allowed : bool)
  : option (list (R * option R)) :=
  if short_allowed then None
  else Some (map (fun _ => (0, None)) (seq 0 (length mean_returns))).

End MeanVariance.


(** ** Vocabulary of the proofs *)

(** One pass of a backward loop: [L[:j+1, j] = g(L)] where [g L j k] is the
    right-hand side at row [k]. *)
Definition col_step (g : matrix -> nat -> nat -> R) (L : matrix) (j : nat) : matrix :=
  set_col_slice L j 0 (j + 1) (g L j).

(** [g] reads its array argument in column [j+1] only. *)
Definition reads_next_col (g : matrix -> nat -> nat -> R) : Prop :=
  forall L1 L2 j, (forall i, get L1 i (j + 1) = get L2 i (j + 1)) ->
                  forall k, g L1 j k = g L2 j k.

(** The right-hand sides of the backward loops, as functions of the array,
    the column and the row. *)
Definition disc_step (rt : matrix) (qu qd : R) (L : matrix) (j k : nat) : R :=
  (1 / (1 + get rt k j)) * (qu * get L k (j + 1) + qd * get L (k + 1) (j + 1)).

Definition coupon_step (rt : matrix) (face_value c qu qd : R) (L : matrix) (j k : nat) : R :=
  face_value * c + (1 / (1 + get rt k j)) * (qu * get L k (j + 1) + qd * get L (k + 1) (j + 1)).

Definition plain_step (qu qd : R) (L : matrix) (j k : nat) : R :=
  qu * get L k (j + 1) + qd * get L (k + 1) (j + 1).

(** The points handed to [np.interp]: the tenors with their yields. *)
Definition tenor_points (latest : nat -> R) (xs : list nat) : list (nat * R) :=
  map (fun x => (x, latest x)) xs.

(** Two tenors that follow each other in [fred_yield_yrs]. *)
Definition adjacent_tenors (lo hi : nat) : Prop :=
  exists l1 l2, BDT.fred_yield_yrs = l1 ++ lo :: hi :: l2.

(** The value on the segment between the tenors [lo] and [hi]. *)
Definition between (latest : nat -> R) (lo hi y : nat) : R :=
  (latest hi - latest lo) / (INR hi - INR lo) * (INR y - INR lo) + latest lo.

(** The sentence of the specification about the dense curve, word for word:
    one yield per year; the yield of the tenor at a tenor; elsewhere the
    interpolation between two observed tenors (of those kept, [<= t]) that
    bracket the year. *)
Definition dense_curve_claim (latest : nat -> R) (t : nat) : Prop :=
  let out := BDT.load_market_rates latest t in
  let kept := filter (fun x => (x <=? t)%nat) BDT.fred_yield_yrs in
  length out = t
  /\ forall y, (1 <= y <= t)%nat ->
       (In y BDT.fred_yield_yrs -> nth (y - 1) out 0 = latest y)
       /\ (~ In y BDT.fred_yield_yrs ->
           exists lo hi, In lo kept /\ In hi kept /\ (lo < y < hi)%nat
                         /\ nth (y - 1) out 0 = between latest lo hi y).

(** Two sets of observations used in the examples: yields of
    [x + 0.5] percent at the [x]-year tenor, none of them a whole number,
    and yields of [4.0, 4.1, 4.2, 4.4, ...] percent, the first of which is
    the number 4. *)
Definition sample_yields (x : nat) : R := INR x + 1 / 2.
Definition par_yields (x : nat) : R := 4 + (INR x - 1) / 10.

(** The minimizer's result as the script's calibration step receives it. *)
Definition calibration_result (latest : nat -> R)
           (minimize : (list R -> option R) -> list R -> BDT.OptimizeResult)
           (b : R) (t : nat) (qu : R) : BDT.OptimizeResult :=
  let mr := map (fun y => y / 100) (BDT.load_market_rates latest t) in
  minimize (fun a => BDT.objective a b t qu mr) (map (Rmult 5) (repeat 1 t)).

(** The sentence of the specification about a failed calibration: a result
    with a false success flag ends the run in [CalibrationFailed] with the
    optimizer's message. *)
Definition calibration_failure_claim (latest : nat -> R)
           (minimize : (list R -> option R) -> list R -> BDT.OptimizeResult)
           (b : R) (t : nat) (qu face_value : R) : Prop :=
  BDT.success (calibration_result latest minimize b t qu) = false ->
  BDT.script latest minimize b t qu face_value
  = BDT.CalibrationFailed (BDT.message (calibration_result latest minimize b t qu)).

(** A minimizer with the flag and the message of its result overwritten. *)
Definition with_flag (minimize : (list R -> option R) -> list R -> BDT.OptimizeResult)
           (flag : bool) (msg : string) :
  (list R -> option R) -> list R -> BDT.OptimizeResult :=
  fun f a0 => BDT.mkResult (BDT.x (minimize f a0)) flag msg.

(** A minimizer that gives up at once: it hands back the initial guess with
    a false success flag. *)
Definition failing_minimize (f : list R -> option R) (a0 : list R) : BDT.OptimizeResult :=
  BDT.mkResult a0 false "Desired error not necessarily achieved due to precision loss.".

(** The recurrence the two loops of [elementary_price_tree] run, column by
    column: the value at row [i] of column [j]. *)
Fixpoint ept_val (rt : matrix) (qu qd : R) (j i : nat) : R :=
  match j with
  | O => if (i =? 0)%nat then 1 else 0
  | S j' =>
      if (i =? 0)%nat then qu * (ept_val rt qu qd j' 0 / (1 + get rt 0 j'))
      else if (i =? S j')%nat then qd * (ept_val rt qu qd j' j' / (1 + get rt j' j'))
      else if (i <? S j')%nat
           then qu * (1 / (1 + get rt (i - 1) j')) * ept_val rt qu qd j' (i - 1)
                + qd * (1 / (1 + get rt i j')) * ept_val rt qu qd j' i
           else 0
  end.

(** [f 0 + ... + f (n-1)] *)
Definition sum_to (n : nat) (f : nat -> R) : R := vsum (map f (seq 0 n)).

Definition swap_step (rt : matrix) (c qu qd : R) (L : matrix) (j k : nat) : R :=
  (1 / (1 + get rt k j))
  * ((get rt k j - c * 1) + qu * get L k (j + 1) + qd * get L (k + 1) (j + 1)).

(** The array of [caplet_price] and [floorlet_price] when their loop is
    over, for the terminal payoff [term] of either. *)
Definition option_lattice (term : nat -> R) (t : nat) (rt : matrix) (qu qd : R) : matrix :=
  fold_left (col_step (disc_step rt qu qd)) (down_from (t - 1) 0)
            (set_col_slice (zeros t t) (t - 1) 0 t term).


(** [x^T C x], the number under the square root of [vol_objective]. *)
Definition quad_form (x : vector) (cov_matrix : matrix) : R :=
  vsum (map (fun '(v, x_k) => v * x_k) (combine (MeanVariance.vecmat x cov_matrix) x)).


(** * Facts about the array primitives *)

Lemma mapi_from_length {A B} (f : nat -> A -> B) k l :
  length (mapi_from f k l) = length l.
Proof. revert k; induction l; simpl; intros; auto. Qed.

Lemma mapi_from_nth {A B} (f : nat -> A -> B) (da : A) (db : B) l :
  forall k i, (i < length l)%nat ->
              nth i (mapi_from f k l) db = f (k + i)%nat (nth i l da).
Proof.
  induction l as [|a l IH]; simpl; intros k i Hi; [lia|].
  destruct i as [|i].
  - now rewrite Nat.add_0_r.
  - rewrite IH by lia. f_equal. lia.
Qed.

Lemma mapi_from_nth_out {A B} (f : nat -> A -> B) (db : B) l k i :
  (length l <= i)%nat -> nth i (mapi_from f k l) db = db.
Proof. intros; apply nth_overflow; now rewrite mapi_from_length. Qed.

Lemma upd_length k v l : length (upd k v l) = length l.
Proof. revert k; induction l; destruct k; simpl; auto. Qed.

Lemma nth_upd k v l j :
  nth j (upd k v l) 0 = if (j =? k)%nat && (k <? length l)%nat then v else nth j l 0.
Proof.
  revert k j; induction l as [|y l IH]; intros k j; simpl.
  - rewrite andb_false_r. now destruct j.
  - destruct k as [|k], j as [|j]; simpl; auto.
Qed.

Lemma get_out_row M i j : (length M <= i)%nat -> get M i j = 0.
Proof. intros H; unfold get; rewrite (nth_overflow M _ H). now destruct j. Qed.

Lemma get_set_col_slice M j lo hi f i' j' :
  get (set_col_slice M j lo hi f) i' j' =
  if (j' =? j)%nat && ((lo <=? i')%nat && (i' <? hi)%nat)
     && ((i' <? length M)%nat && (j <? length (nth i' M []))%nat)
  then f i' else get M i' j'.
Proof.
  unfold get, set_col_slice.
  destruct (Nat.ltb_spec i' (length M)) as [Hi|Hi].
  - rewrite (mapi_from_nth _ [] [] M 0 i' Hi). simpl.
    destruct ((lo <=? i')%nat && (i' <? hi)%nat); simpl.
    + rewrite nth_upd. now rewrite andb_true_r.
    + now rewrite andb_false_r.
  - rewrite mapi_from_nth_out by lia. rewrite (nth_overflow M _ Hi).
    rewrite !andb_false_r. reflexivity.
Qed.

Lemma get_set_row_slice M i lo hi f i' j' :
  get (set_row_slice M i lo hi f) i' j' =
  if (i' =? i)%nat && ((lo <=? j')%nat && (j' <? hi)%nat)
     && ((i' <? length M)%nat && (j' <? length (nth i' M []))%nat)
  then f j' else get M i' j'.
Proof.
  unfold get, set_row_slice.
  destruct (Nat.ltb_spec i' (length M)) as [Hi|Hi].
  - rewrite (mapi_from_nth _ [] [] M 0 i' Hi). simpl.
    destruct (i' =? i)%nat; simpl; auto.
    destruct (Nat.ltb_spec j' (length (nth i' M []))) as [Hj|Hj].
    + rewrite (mapi_from_nth _ 0 0 _ 0 j' Hj). simpl.
      destruct ((lo <=? j')%nat && (j' <? hi)%nat); reflexivity.
    + rewrite mapi_from_nth_out by lia. rewrite nth_overflow by lia.
      now rewrite andb_false_r.
  - rewrite mapi_from_nth_out by lia. rewrite (nth_overflow M _ Hi).
    rewrite !andb_false_r. reflexivity.
Qed.

Lemma shape_zeros n m : shape (zeros n m) n m.
Proof.
  unfold shape, zeros; split; [apply repeat_length|].
  apply Forall_forall; intros row Hr.
  apply repeat_spec in Hr; subst; apply repeat_length.
Qed.

Lemma get_zeros n m i j : get (zeros n m) i j = 0.
Proof.
  unfold get, zeros.
  destruct (Nat.ltb_spec i n) as [Hi|Hi].
  - rewrite nth_repeat_lt by assumption.
    destruct (Nat.ltb_spec j m).
    + now rewrite nth_repeat_lt.
    + apply nth_overflow; now rewrite repeat_length.
  - rewrite (nth_overflow (repeat (repeat 0 m) n) [])
      by (rewrite repeat_length; assumption).
    now destruct j.
Qed.

Lemma shape_row M n m i : shape M n m -> (i < n)%nat -> length (nth i M []) = m.
Proof.
  intros [Hn Hm] Hi. rewrite Forall_forall in Hm.
  apply Hm, nth_In; lia.
Qed.

Lemma Forall_mapi_from {A B} (P : A -> Prop) (Q : B -> Prop) (f : nat -> A -> B) l :
  (forall k a, P a -> Q (f k a)) -> Forall P l -> forall k, Forall Q (mapi_from f k l).
Proof.
  intros Hf H; induction H; intros k; simpl; constructor; auto.
Qed.

Lemma shape_set_col_slice M n m j lo hi f :
  shape M n m -> shape (set_col_slice M j lo hi f) n m.
Proof.
  intros [Hn Hm]; split.
  - unfold set_col_slice; now rewrite mapi_from_length.
  - unfold set_col_slice. apply Forall_mapi_from with (P := fun row => length row = m); auto.
    intros k a Ha. destruct (_ && _); auto. now rewrite upd_length.
Qed.

Lemma shape_set_row_slice M n m i lo hi f :
  shape M n m -> shape (set_row_slice M i lo hi f) n m.
Proof.
  intros [Hn Hm]; split.
  - unfold set_row_slice; now rewrite mapi_from_length.
  - unfold set_row_slice. apply Forall_mapi_from with (P := fun row => length row = m); auto.
    intros k a Ha. destruct (_ =? _)%nat; auto. now rewrite mapi_from_length.
Qed.

(** Reading a cell after a column store, on an array of known shape. *)
Lemma get_set_col_slice_shape M n m j lo hi f i' j' :
  shape M n m ->
  get (set_col_slice M j lo hi f) i' j' =
  if (j' =? j)%nat && ((lo <=? i')%nat && (i' <? hi)%nat) && ((i' <? n)%nat && (j <? m)%nat)
  then f i' else get M i' j'.
Proof.
  intros HS. rewrite get_set_col_slice.
  destruct HS as [Hn Hm]. rewrite Hn.
  destruct (Nat.ltb_spec i' n) as [Hi|Hi].
  - rewrite (shape_row M n m i' (conj Hn Hm) Hi). reflexivity.
  - now rewrite !andb_false_l, !andb_false_r.
Qed.

Lemma get_set_row_slice_shape M n m i lo hi f i' j' :
  shape M n m ->
  get (set_row_slice M i lo hi f) i' j' =
  if (i' =? i)%nat && ((lo <=? j')%nat && (j' <? hi)%nat) && ((i' <? n)%nat && (j' <? m)%nat)
  then f j' else get M i' j'.
Proof.
  intros HS. rewrite get_set_row_slice.
  destruct HS as [Hn Hm]. rewrite Hn.
  destruct (Nat.ltb_spec i' n) as [Hi|Hi].
  - rewrite (shape_row M n m i' (conj Hn Hm) Hi). reflexivity.
  - now rewrite !andb_false_l, !andb_false_r.
Qed.

(** * Backward loops over columns *)

Lemma down_from_S hi lo : (lo <= hi)%nat -> down_from (S hi) lo = hi :: down_from hi lo.
Proof.
  intros H. unfold down_from.
  replace (S hi - lo)%nat with (S (hi - lo)) by lia.
  rewrite seq_S, rev_app_distr. simpl. f_equal. lia.
Qed.

Lemma down_from_nil hi lo : (hi <= lo)%nat -> down_from hi lo = [].
Proof.
  intros H. unfold down_from. replace (hi - lo)%nat with 0%nat by lia. reflexivity.
Qed.

Lemma shape_col_step g L n m j : shape L n m -> shape (col_step g L j) n m.
Proof. apply shape_set_col_slice. Qed.

Lemma get_col_step g L n m j i' j' :
  shape L n m ->
  get (col_step g L j) i' j' =
  if (j' =? j)%nat && (i' <=? j)%nat && ((i' <? n)%nat && (j <? m)%nat)
  then g L j i' else get L i' j'.
Proof.
  intros HS. unfold col_step. rewrite (get_set_col_slice_shape _ n m) by assumption.
  simpl. replace (i' <? j + 1)%nat with (i' <=? j)%nat; [reflexivity|].
  destruct (Nat.leb_spec i' j), (Nat.ltb_spec i' (j + 1)); auto; lia.
Qed.

(** The state of the array after the loop [for j in range(hi-1, lo-1, -1)]:
    the shape is kept, the cells outside the columns [lo .. hi-1] (rows
    [0 .. j]) are untouched, and every cell written satisfies the loop body's
    equation on the FINAL array. *)
Lemma backward_spec g n m :
  reads_next_col g ->
  forall hi lo L0,
    shape L0 n m -> (hi <= m)%nat ->
    let L' := fold_left (col_step g) (down_from hi lo) L0 in
    shape L' n m
    /\ (forall i j, ~ ((lo <= j < hi)%nat /\ (i <= j)%nat /\ (i < n)%nat) ->
                    get L' i j = get L0 i j)
    /\ (forall i j, (lo <= j < hi)%nat -> (i <= j)%nat -> (i < n)%nat ->
                    get L' i j = g L' j i).
Proof.
  intros Hg. induction hi as [|h IH]; intros lo L0 HS Hm.
  - rewrite down_from_nil by lia. simpl. split; [|split]; auto. intros; lia.
  - destruct (Nat.le_gt_cases lo h) as [Hlo|Hlo].
    2:{ rewrite down_from_nil by lia. simpl. split; [|split]; auto. intros; lia. }
    rewrite down_from_S by assumption. simpl.
    assert (HS1 : shape (col_step g L0 h) n m) by now apply shape_col_step.
    destruct (IH lo _ HS1 ltac:(lia)) as (HS' & Hout & Hin).
    set (L' := fold_left (col_step g) (down_from h lo) (col_step g L0 h)) in *.
    assert (Hnext : forall i, get L0 i (h + 1) = get L' i (h + 1)).
    { intros i. rewrite Hout by lia. rewrite (get_col_step g L0 n m) by assumption.
      replace (h + 1 =? h)%nat with false; [reflexivity|].
      symmetry; apply Nat.eqb_neq; lia. }
    split; [|split]; auto.
    + intros i j Hn. rewrite Hout by lia.
      rewrite (get_col_step g L0 n m) by assumption.
      destruct (Nat.eqb_spec j h); simpl; auto.
      destruct (Nat.leb_spec i h); simpl; auto.
      destruct (Nat.ltb_spec i n); simpl; auto.
      subst j. exfalso; apply Hn; lia.
    + intros i j Hj Hi Hin'.
      destruct (Nat.eq_dec j h) as [->|Hne].
      * rewrite Hout by lia. rewrite (get_col_step g L0 n m) by assumption.
        rewrite Nat.eqb_refl.
        replace (i <=? h)%nat with true by (symmetry; apply Nat.leb_le; lia).
        replace (i <? n)%nat with true by (symmetry; apply Nat.ltb_lt; lia).
        replace (h <? m)%nat with true by (symmetry; apply Nat.ltb_lt; lia).
        simpl. apply Hg, Hnext.
      * apply Hin; lia.
Qed.

(** * Scaling an array *)

Lemma get_scale lam M i j : get (scale lam M) i j = lam * get M i j.
Proof.
  unfold get, scale.
  destruct (Nat.ltb_spec i (length M)) as [Hi|Hi].
  - rewrite (nth_indep _ [] (map (Rmult lam) [])) by now rewrite length_map.
    rewrite map_nth.
    replace 0 with (lam * 0) at 1 by ring. now rewrite map_nth.
  - rewrite (nth_overflow (map _ M)) by now rewrite length_map.
    rewrite (nth_overflow M) by assumption. destruct j; simpl; ring.
Qed.

Lemma mapi_from_ext {A B} (f f' : nat -> A -> B) l :
  forall k, (forall i a, f i a = f' i a) -> mapi_from f k l = mapi_from f' k l.
Proof. induction l; simpl; intros; f_equal; auto. Qed.

Lemma set_col_slice_ext M j lo hi f f' :
  (forall k, f k = f' k) -> set_col_slice M j lo hi f = set_col_slice M j lo hi f'.
Proof.
  intros H. unfold set_col_slice. apply mapi_from_ext.
  intros i a. destruct (_ && _); auto. now rewrite H.
Qed.

Lemma upd_scale lam k v row : upd k (lam * v) (map (Rmult lam) row) = map (Rmult lam) (upd k v row).
Proof. revert k; induction row; destruct k; simpl; auto. now rewrite IHrow. Qed.

Lemma mapi_from_map {A B C} (f : nat -> B -> C) (h : A -> B) l :
  forall k, mapi_from f k (map h l) = mapi_from (fun i a => f i (h a)) k l.
Proof. induction l; simpl; intros; f_equal; auto. Qed.

Lemma map_mapi_from {A B C} (f : nat -> A -> B) (h : B -> C) l :
  forall k, map h (mapi_from f k l) = mapi_from (fun i a => h (f i a)) k l.
Proof. induction l; simpl; intros; f_equal; auto. Qed.

Lemma set_col_slice_scale lam M j lo hi f :
  set_col_slice (scale lam M) j lo hi (fun k => lam * f k)
  = scale lam (set_col_slice M j lo hi f).
Proof.
  unfold set_col_slice, scale.
  rewrite mapi_from_map, map_mapi_from. apply mapi_from_ext.
  intros i a. destruct (_ && _); auto. apply upd_scale.
Qed.

Lemma scale_zeros lam n m : scale lam (zeros n m) = zeros n m.
Proof.
  unfold scale, zeros. rewrite map_repeat. f_equal.
  rewrite map_repeat. f_equal. ring.
Qed.

(** A loop whose body is homogeneous maps a scaled array to the scaled
    result. *)
Lemma backward_scale lam (g1 g2 : matrix -> nat -> nat -> R) :
  (forall L j k, g2 (scale lam L) j k = lam * g1 L j k) ->
  forall cols L,
    fold_left (col_step g2) cols (scale lam L)
    = scale lam (fold_left (col_step g1) cols L).
Proof.
  intros Hg. induction cols as [|j cols IH]; intros L; simpl; auto.
  rewrite <- IH. f_equal. unfold col_step.
  rewrite <- set_col_slice_scale. apply set_col_slice_ext. intros k. apply Hg.
Qed.

(** * The rate lattice of the simple model *)

Ltac nat_bools :=
  repeat match goal with
         | |- context [(?a <=? ?b)%nat] => destruct (Nat.leb_spec a b)
         | |- context [(?a <? ?b)%nat] => destruct (Nat.ltb_spec a b)
         | |- context [(?a =? ?b)%nat] => destruct (Nat.eqb_spec a b)
         end;
  simpl; try lia; try reflexivity.

(** State of [rt] after the rows [1 .. k] are filled. *)
Lemma rates_tree_rows r u d t k :
  (k <= t)%nat ->
  let rt0 := set_row_slice (zeros (t + 1) (t + 1)) 0 0 (t + 1) (fun k => r * u ^ k) in
  let rt := fold_left (fun rt i => set_row_slice rt i i (t + 1)
                                     (fun j => d * get rt (i - 1) (j - 1)))
                      (seq 1 k) rt0 in
  shape rt (t + 1) (t + 1)
  /\ forall i j, get rt i j =
                 if (i <=? j)%nat && (j <=? t)%nat && (i <=? k)%nat
                 then r * u ^ (j - i) * d ^ i else 0.
Proof.
  intros Hk rt0. induction k as [|k IH].
  - simpl. split.
    + apply shape_set_row_slice, shape_zeros.
    + intros i j. unfold rt0.
      rewrite (get_set_row_slice_shape _ (t + 1) (t + 1)) by apply shape_zeros.
      rewrite get_zeros. nat_bools.
      subst i. rewrite Nat.sub_0_r. simpl. ring.
  - rewrite seq_S, fold_left_app. simpl.
    destruct (IH ltac:(lia)) as [HS Hget]. clear IH.
    set (rt := fold_left _ (seq 1 k) rt0) in *.
    split.
    + now apply shape_set_row_slice.
    + intros i j.
      rewrite (get_set_row_slice_shape _ (t + 1) (t + 1)) by assumption.
      rewrite !Hget. replace (S k - 1)%nat with k by lia. nat_bools.
      subst i. rewrite !Nat.sub_0_r.
      replace (j - S k)%nat with (j - 1 - k)%nat by lia. simpl. ring.
Qed.

Lemma rates_tree_shape r u d t : shape (Binomial.rates_tree r u d t) (t + 1) (t + 1).
Proof.
  unfold Binomial.rates_tree, up_to. replace (t + 1 - 1)%nat with t by lia.
  apply (rates_tree_rows r u d t t). lia.
Qed.

(** C5. The simple-model [rates_tree(r, u, d, t)] holds [r * u^(j-i) * d^i]
    at every position [(i, j)] with [0 <= i <= j <= t] and zero at every
    other position, in particular wherever [i > j]. *)
Theorem rates_tree_closed_form (r u d : R) (t i j : nat) :
  get (Binomial.rates_tree r u d t) i j =
  if (i <=? j)%nat && (j <=? t)%nat then r * u ^ (j - i) * d ^ i else 0.
Proof.
  unfold Binomial.rates_tree, up_to. replace (t + 1 - 1)%nat with t by lia.
  destruct (rates_tree_rows r u d t t ltac:(lia)) as [_ Hget].
  rewrite Hget. nat_bools.
Qed.

(** * Homogeneity of the pricers *)

Lemma lattice_scale lam n m j lo hi (f1 f2 : nat -> R) g1 g2 cols :
  (forall k, f2 k = lam * f1 k) ->
  (forall L j k, g2 (scale lam L) j k = lam * g1 L j k) ->
  fold_left (col_step g2) cols (set_col_slice (zeros n m) j lo hi f2)
  = scale lam (fold_left (col_step g1) cols (set_col_slice (zeros n m) j lo hi f1)).
Proof.
  intros Hf Hg. rewrite <- (backward_scale lam g1 g2 Hg). f_equal.
  rewrite (set_col_slice_ext _ _ _ _ f2 (fun k => lam * f1 k) Hf).
  rewrite <- (scale_zeros lam n m) at 1. apply set_col_slice_scale.
Qed.

Ltac homogeneous_body := intros; rewrite ?get_scale; unfold Rdiv; ring.

Lemma zcb_price_scale lam v t r u d qu qd :
  Binomial.zcb_price (lam * v) t r u d qu qd = scale lam (Binomial.zcb_price v t r u d qu qd).
Proof.
  unfold Binomial.zcb_price.
  apply (lattice_scale lam _ _ _ _ _ (fun _ => v) (fun _ => lam * v)
           (fun L i k => (1 / (1 + get (Binomial.rates_tree r u d (t - 1)) k i))
                         * (qu * get L k (i + 1) + qd * get L (k + 1) (i + 1)))
           (fun L i k => (1 / (1 + get (Binomial.rates_tree r u d (t - 1)) k i))
                         * (qu * get L k (i + 1) + qd * get L (k + 1) (i + 1))));
    homogeneous_body.
Qed.

Lemma cb_accrued_scale lam v ft t c r u d qu qd :
  Binomial.cb_accrued (lam * v) ft t c r u d qu qd
  = scale lam (Binomial.cb_accrued v ft t c r u d qu qd).
Proof.
  unfold Binomial.cb_accrued.
  apply (lattice_scale lam _ _ _ _ _ (fun _ => (1 + c) * v) (fun _ => (1 + c) * (lam * v))
           (fun L i k => v * c
                         + (1 / (1 + get (Binomial.rates_tree r u d (t - 1)) k i))
                           * (qu * get L k (i + 1) + qd * get L (k + 1) (i + 1)))
           (fun L i k => lam * v * c
                         + (1 / (1 + get (Binomial.rates_tree r u d (t - 1)) k i))
                           * (qu * get L k (i + 1) + qd * get L (k + 1) (i + 1))));
    homogeneous_body.
Qed.

Lemma cb_lattice_scale lam v t c r u d qu qd :
  Binomial.cb_lattice (lam * v) t c r u d qu qd
  = scale lam (Binomial.cb_lattice v t c r u d qu qd).
Proof.
  unfold Binomial.cb_lattice.
  apply (lattice_scale lam _ _ _ _ _ (fun _ => (1 + c) * v) (fun _ => (1 + c) * (lam * v))
           (fun L i k => v * c
                         + (1 / (1 + get (Binomial.rates_tree r u d (t - 1)) k i))
                           * (qu * get L k (i + 1) + qd * get L (k + 1) (i + 1)))
           (fun L i k => lam * v * c
                         + (1 / (1 + get (Binomial.rates_tree r u d (t - 1)) k i))
                           * (qu * get L k (i + 1) + qd * get L (k + 1) (i + 1))));
    homogeneous_body.
Qed.

Lemma cb_forward_lattice_scale lam v ft t c r u d qu qd :
  Binomial.cb_forward_lattice (lam * v) ft t c r u d qu qd
  = scale lam (Binomial.cb_forward_lattice v ft t c r u d qu qd).
Proof.
  unfold Binomial.cb_forward_lattice. rewrite cb_accrued_scale.
  apply (backward_scale lam
           (fun L i k => (1 / (1 + get (Binomial.rates_tree r u d (t - 1)) k i))
                         * (qu * get L k (i + 1) + qd * get L (k + 1) (i + 1)))
           (fun L i k => (1 / (1 + get (Binomial.rates_tree r u d (t - 1)) k i))
                         * (qu * get L k (i + 1) + qd * get L (k + 1) (i + 1))));
    homogeneous_body.
Qed.

Lemma cb_futures_lattice_scale lam v ft t c r u d qu qd :
  Binomial.cb_futures_lattice (lam * v) ft t c r u d qu qd
  = scale lam (Binomial.cb_futures_lattice v ft t c r u d qu qd).
Proof.
  unfold Binomial.cb_futures_lattice. rewrite cb_accrued_scale.
  rewrite <- (backward_scale lam
                (fun L i k => qu * get L k (i + 1) + qd * get L (k + 1) (i + 1))
                (fun L i k => qu * get L k (i + 1) + qd * get L (k + 1) (i + 1)))
    by homogeneous_body.
  unfold col_step. f_equal.
  rewrite <- set_col_slice_scale. apply set_col_slice_ext. homogeneous_body.
Qed.

Lemma scalar_div_scale lam x M : scalar_div (lam * x) M = scale lam (scalar_div x M).
Proof.
  unfold scalar_div, scale. rewrite map_map. apply map_ext. intros row.
  rewrite map_map. apply map_ext. intros z. unfold Rdiv. ring.
Qed.

Lemma caplet_price_scale lam v c t r u d qu qd :
  Binomial.caplet_price (lam * v) c t r u d qu qd = lam * Binomial.caplet_price v c t r u d qu qd.
Proof.
  unfold Binomial.caplet_price. rewrite <- get_scale. f_equal.
  apply (lattice_scale lam _ _ _ _ _
           (fun k => v * Rmax (get (Binomial.rates_tree r u d (t - 1)) k (t - 1) - c * 1) 0
                     / (1 + get (Binomial.rates_tree r u d (t - 1)) k (t - 1)))
           (fun k => lam * v * Rmax (get (Binomial.rates_tree r u d (t - 1)) k (t - 1) - c * 1) 0
                     / (1 + get (Binomial.rates_tree r u d (t - 1)) k (t - 1)))
           (fun L i k => (1 / (1 + get (Binomial.rates_tree r u d (t - 1)) k i))
                         * (qu * get L k (i + 1) + qd * get L (k + 1) (i + 1)))
           (fun L i k => (1 / (1 + get (Binomial.rates_tree r u d (t - 1)) k i))
                         * (qu * get L k (i + 1) + qd * get L (k + 1) (i + 1))));
    homogeneous_body.
Qed.

Lemma floorlet_price_scale lam v c t r u d qu qd :
  Binomial.floorlet_price (lam * v) c t r u d qu qd
  = lam * Binomial.floorlet_price v c t r u d qu qd.
Proof.
  unfold Binomial.floorlet_price. rewrite <- get_scale. f_equal.
  apply (lattice_scale lam _ _ _ _ _
           (fun k => v * Rmax (c * 1 - get (Binomial.rates_tree r u d (t - 1)) k (t - 1)) 0
                     / (1 + get (Binomial.rates_tree r u d (t - 1)) k (t - 1)))
           (fun k => lam * v * Rmax (c * 1 - get (Binomial.rates_tree r u d (t - 1)) k (t - 1)) 0
                     / (1 + get (Binomial.rates_tree r u d (t - 1)) k (t - 1)))
           (fun L i k => (1 / (1 + get (Binomial.rates_tree r u d (t - 1)) k i))
                         * (qu * get L k (i + 1) + qd * get L (k + 1) (i + 1)))
           (fun L i k => (1 / (1 + get (Binomial.rates_tree r u d (t - 1)) k i))
                         * (qu * get L k (i + 1) + qd * get L (k + 1) (i + 1))));
    homogeneous_body.
Qed.

(** C7. For every nonnegative [lam], every instrument pricer is homogeneous
    of degree 1 in its face or notional amount wherever the code returns a
    value: at [lam * v] it returns [lam] times what it returns at [v] (entry
    by entry for the two pricers that return an array).  [zcb_price],
    [cb_price], [caplet_price], [floorlet_price] and [swap_price] return for
    every [t >= 1]; [cb_forward_price] for a forward date [0 < ft < t] (it
    prices a bond of maturity [ft]); [cb_futures_price] for every futures date
    [ft < t], [ft = 0] included; [swaption_price] for every option date
    [ot < t].  Outside these ranges the source raises an [IndexError]. *)
Theorem pricers_homogeneous (lam v : R) (ft ot t : nat) (c r u d qu qd : R) :
  0 <= lam ->
  ((1 <= t)%nat ->
     Binomial.zcb_price (lam * v) t r u d qu qd
     = scale lam (Binomial.zcb_price v t r u d qu qd)
     /\ Binomial.cb_price (lam * v) t c r u d qu qd
        = lam * Binomial.cb_price v t c r u d qu qd
     /\ Binomial.caplet_price (lam * v) c t r u d qu qd
        = lam * Binomial.caplet_price v c t r u d qu qd
     /\ Binomial.floorlet_price (lam * v) c t r u d qu qd
        = lam * Binomial.floorlet_price v c t r u d qu qd
     /\ Binomial.swap_price (lam * v) c t r u d qu qd
        = lam * Binomial.swap_price v c t r u d qu qd)
  /\ ((0 < ft < t)%nat ->
      Binomial.cb_forward_price (lam * v) ft t c r u d qu qd
      = scale lam (Binomial.cb_forward_price v ft t c r u d qu qd))
  /\ ((ft < t)%nat ->
      Binomial.cb_futures_price (lam * v) ft t c r u d qu qd
      = lam * Binomial.cb_futures_price v ft t c r u d qu qd)
  /\ ((ot < t)%nat ->
      Binomial.swaption_price (lam * v) ot c t r u d qu qd
      = lam * Binomial.swaption_price v ot c t r u d qu qd).
Proof.
  intros _. split; [|split; [|split]]; intros _.
  - split; [apply zcb_price_scale|].
    split; [unfold Binomial.cb_price; now rewrite cb_lattice_scale, get_scale|].
    split; [apply caplet_price_scale|].
    split; [apply floorlet_price_scale|].
    unfold Binomial.swap_price. ring.
  - unfold Binomial.cb_forward_price.
    now rewrite cb_forward_lattice_scale, get_scale, scalar_div_scale.
  - unfold Binomial.cb_futures_price. now rewrite cb_futures_lattice_scale, get_scale.
  - unfold Binomial.swaption_price. ring.
Qed.

(** * Shapes of the instrument lattices *)

Lemma shape_fold_col_step g n m cols :
  forall L, shape L n m -> shape (fold_left (col_step g) cols L) n m.
Proof.
  induction cols as [|j cols IH]; intros L HS; simpl; auto.
  apply IH. now apply shape_col_step.
Qed.

Lemma swap_lattice_to_shape lo c t r u d qu qd :
  shape (Binomial.swap_lattice_to lo c t r u d qu qd) t t.
Proof.
  unfold Binomial.swap_lattice_to.
  apply (shape_fold_col_step
           (fun L i k => (1 / (1 + get (Binomial.rates_tree r u d (t - 1)) k i))
                         * ((get (Binomial.rates_tree r u d (t - 1)) k i - c * 1)
                            + qu * get L k (i + 1) + qd * get L (k + 1) (i + 1)))).
  apply shape_set_col_slice, shape_zeros.
Qed.

(** * Swaption exercised at once *)

Lemma swaption_at_zero nv c t r u d qu qd :
  (1 <= t)%nat ->
  Binomial.swaption_price nv 0 c t r u d qu qd
  = nv * Rmax (get (Binomial.swap_lattice_to 0 c t r u d qu qd) 0 0) 0.
Proof.
  intros Ht. unfold Binomial.swaption_price.
  rewrite down_from_nil by lia. simpl fold_left.
  rewrite (get_set_col_slice_shape _ t t) by apply swap_lattice_to_shape.
  nat_bools.
Qed.

(** C10. With exercise date [ot = 0], a nonnegative notional and [t >= 2],
    [swaption_price] is the positive part of [swap_price]. *)
Theorem swaption_ot0_is_positive_part (notional_value c : R) (t : nat) (r u d qu qd : R) :
  0 <= notional_value -> (2 <= t)%nat ->
  Binomial.swaption_price notional_value 0 c t r u d qu qd
  = Rmax (Binomial.swap_price notional_value c t r u d qu qd) 0.
Proof.
  intros Hnv Ht. rewrite swaption_at_zero by lia.
  unfold Binomial.swap_price.
  rewrite <- (Rmult_0_r notional_value) at 2.
  now rewrite (RmaxRmult _ _ notional_value Hnv).
Qed.

(** * Futures and forward on a coupon bond *)

Lemma disc_step_local rt qu qd : reads_next_col (disc_step rt qu qd).
Proof. intros L1 L2 j H k. unfold disc_step. now rewrite !H. Qed.

Lemma coupon_step_local rt fv c qu qd : reads_next_col (coupon_step rt fv c qu qd).
Proof. intros L1 L2 j H k. unfold coupon_step. now rewrite !H. Qed.

Lemma plain_step_local qu qd : reads_next_col (plain_step qu qd).
Proof. intros L1 L2 j H k. unfold plain_step. now rewrite !H. Qed.

Lemma cb_accrued_unfold fv ft t c r u d qu qd :
  Binomial.cb_accrued fv ft t c r u d qu qd
  = fold_left (col_step (coupon_step (Binomial.rates_tree r u d (t - 1)) fv c qu qd))
              (down_from t (ft + 1))
              (set_col_slice (zeros (t + 1) (t + 1)) t 0 (t + 1) (fun _ => (1 + c) * fv)).
Proof. reflexivity. Qed.

(** What the first loop leaves: the terminal column, the accrued columns
    [ft+1 .. t-1], zeros elsewhere. *)
Lemma cb_accrued_spec fv ft t c r u d qu qd :
  let A := Binomial.cb_accrued fv ft t c r u d qu qd in
  let rt := Binomial.rates_tree r u d (t - 1) in
  shape A (t + 1) (t + 1)
  /\ (forall i, (i <= t)%nat -> get A i t = (1 + c) * fv)
  /\ (forall i j, (ft < j < t)%nat -> (i <= j)%nat ->
                  get A i j = coupon_step rt fv c qu qd A j i).
Proof.
  intros A rt. unfold A. rewrite cb_accrued_unfold.
  assert (HS0 : shape (set_col_slice (zeros (t + 1) (t + 1)) t 0 (t + 1)
                         (fun _ => (1 + c) * fv)) (t + 1) (t + 1))
    by apply shape_set_col_slice, shape_zeros.
  destruct (backward_spec (coupon_step rt fv c qu qd) (t + 1) (t + 1)
              (coupon_step_local _ _ _ _ _) t (ft + 1) _ HS0 ltac:(lia))
    as (HS & Hout & Hin).
  split; [exact HS|]. split.
  - intros i Hi. rewrite Hout by lia.
    rewrite (get_set_col_slice_shape _ (t + 1) (t + 1)) by apply shape_zeros.
    nat_bools.
  - intros i j Hj Hi. apply Hin; lia.
Qed.

Lemma cb_futures_lattice_unfold fv ft t c r u d qu qd :
  Binomial.cb_futures_lattice fv ft t c r u d qu qd
  = fold_left (col_step (plain_step qu qd)) (down_from ft 0)
      (col_step (disc_step (Binomial.rates_tree r u d (t - 1)) qu qd)
                (Binomial.cb_accrued fv ft t c r u d qu qd) ft).
Proof. reflexivity. Qed.

Lemma cb_forward_lattice_unfold fv ft t c r u d qu qd :
  Binomial.cb_forward_lattice fv ft t c r u d qu qd
  = fold_left (col_step (disc_step (Binomial.rates_tree r u d (t - 1)) qu qd)) (down_from ft 0)
      (col_step (disc_step (Binomial.rates_tree r u d (t - 1)) qu qd)
                (Binomial.cb_accrued fv ft t c r u d qu qd) ft).
Proof.
  unfold Binomial.cb_forward_lattice. replace (ft + 1)%nat with (S ft) by lia.
  rewrite down_from_S by lia. reflexivity.
Qed.

(** C6. For [0 < ft < t] the lattice of [cb_futures_price] agrees with the
    lattice of [cb_forward_price] in every column from [ft] on: the terminal
    column is [(1+c) * face_value], the columns strictly between [ft] and [t]
    accrue the coupon, column [ft] is discounted without a coupon.  Every
    column [j < ft] is the plain expectation [qu * up + qd * down] of column
    [j+1], with neither discount factor nor coupon, and the function returns
    the root [(0,0)] of that lattice. *)
Theorem cb_futures_structure (face_value : R) (ft t : nat) (c r u d qu qd : R) :
  (0 < ft < t)%nat ->
  let F := Binomial.cb_futures_lattice face_value ft t c r u d qu qd in
  let W := Binomial.cb_forward_lattice face_value ft t c r u d qu qd in
  let rt := Binomial.rates_tree r u d (t - 1) in
  (forall i j, (ft <= j)%nat -> get F i j = get W i j)
  /\ (forall i, (i <= t)%nat -> get F i t = (1 + c) * face_value)
  /\ (forall i j, (ft < j < t)%nat -> (i <= j)%nat ->
        get F i j = face_value * c
                    + (1 / (1 + get rt i j))
                      * (qu * get F i (j + 1) + qd * get F (i + 1) (j + 1)))
  /\ (forall i, (i <= ft)%nat ->
        get F i ft = (1 / (1 + get rt i ft))
                     * (qu * get F i (ft + 1) + qd * get F (i + 1) (ft + 1)))
  /\ (forall i j, (j < ft)%nat -> (i <= j)%nat ->
        get F i j = qu * get F i (j + 1) + qd * get F (i + 1) (j + 1))
  /\ Binomial.cb_futures_price face_value ft t c r u d qu qd = get F 0 0.
Proof.
  intros Hft F W rt.
  destruct (cb_accrued_spec face_value ft t c r u d qu qd) as (HSA & Hterm & Hacc).
  set (A := Binomial.cb_accrued face_value ft t c r u d qu qd) in *.
  set (F1 := col_step (disc_step rt qu qd) A ft).
  assert (HS1 : shape F1 (t + 1) (t + 1)) by now apply shape_col_step.
  destruct (backward_spec (plain_step qu qd) (t + 1) (t + 1) (plain_step_local _ _)
              ft 0 F1 HS1 ltac:(lia)) as (_ & HFout & HFin).
  destruct (backward_spec (disc_step rt qu qd) (t + 1) (t + 1) (disc_step_local _ _ _)
              ft 0 F1 HS1 ltac:(lia)) as (_ & HWout & _).
  assert (HF : forall i j, (ft <= j)%nat -> get F i j = get F1 i j).
  { intros i j Hj. unfold F. rewrite cb_futures_lattice_unfold. apply HFout. lia. }
  assert (HW : forall i j, (ft <= j)%nat -> get W i j = get F1 i j).
  { intros i j Hj. unfold W. rewrite cb_forward_lattice_unfold. apply HWout. lia. }
  assert (HFA : forall i j, (ft < j)%nat -> get F i j = get A i j).
  { intros i j Hj. rewrite HF by lia. unfold F1.
    rewrite (get_col_step _ A (t + 1) (t + 1)) by assumption. nat_bools. }
  split; [|split; [|split; [|split; [|split]]]].
  - intros i j Hj. now rewrite HF, HW.
  - intros i Hi. rewrite HFA by lia. now apply Hterm.
  - intros i j Hj Hi. rewrite !HFA by lia. apply (Hacc i j); lia.
  - intros i Hi. rewrite HF by lia. rewrite !HFA by lia. unfold F1.
    rewrite (get_col_step _ A (t + 1) (t + 1)) by assumption. nat_bools.
  - intros i j Hj Hi. unfold F. rewrite cb_futures_lattice_unfold.
    apply (HFin i j); lia.
  - reflexivity.
Qed.

(** * Evaluation on concrete inputs *)

Ltac lattice_eval :=
  cbv [Binomial.cb_forward_price Binomial.cb_forward_lattice Binomial.cb_accrued
       Binomial.zcb_price Binomial.rates_tree Binomial.elementary_price_tree
       Binomial.ept_of_rates Binomial.cb_futures_lattice Binomial.cb_futures_price
       Binomial.cb_lattice Binomial.cb_price Binomial.swap_lattice_to
       Binomial.swap_price Binomial.swaption_price
       Binomial.caplet_price Binomial.floorlet_price
       scalar_div scale zeros get set_col_slice set_row_slice set_cell col_sum vsum
       mapi_from upd down_from up_to
       nth fold_left fold_right map seq rev app repeat length
       Nat.leb Nat.ltb Nat.eqb Nat.add Nat.sub andb pow].

Lemma get_scalar_div x M n m i j :
  shape M n m -> (i < n)%nat -> (j < m)%nat ->
  get (scalar_div x M) i j = x / get M i j.
Proof.
  intros HS Hi Hj. unfold get, scalar_div.
  destruct HS as [Hn Hm].
  rewrite (nth_indep _ [] (map (fun z => x / z) [])) by (rewrite length_map; lia).
  rewrite map_nth.
  rewrite (nth_indep _ 0 (x / 0))
    by (rewrite length_map, (shape_row M n m i (conj Hn Hm) Hi); lia).
  now rewrite map_nth.
Qed.

Lemma shape_scalar_div x M n m : shape M n m -> shape (scalar_div x M) n m.
Proof.
  intros [Hn Hm]. split.
  - unfold scalar_div. now rewrite length_map.
  - unfold scalar_div. apply Forall_map. eapply Forall_impl; [|exact Hm].
    intros row Hr. simpl. now rewrite length_map.
Qed.

Lemma zcb_price_shape fv t r u d qu qd :
  shape (Binomial.zcb_price fv t r u d qu qd) (t + 1) (t + 1).
Proof.
  unfold Binomial.zcb_price.
  apply (shape_fold_col_step (disc_step (Binomial.rates_tree r u d (t - 1)) qu qd)).
  apply shape_set_col_slice, shape_zeros.
Qed.

(** What [cb_forward_price] returns: an array of the shape of the [ft]-period
    zero-coupon lattice, the root of the bond lattice divided by each of its
    cells. *)
Lemma cb_forward_price_array fv ft t c r u d qu qd :
  let out := Binomial.cb_forward_price fv ft t c r u d qu qd in
  shape out (ft + 1) (ft + 1)
  /\ forall i j, (i <= ft)%nat -> (j <= ft)%nat ->
                 get out i j = get (Binomial.cb_forward_lattice fv ft t c r u d qu qd) 0 0
                               / get (Binomial.zcb_price 1 ft r u d qu qd) i j.
Proof.
  split.
  - apply shape_scalar_div, zcb_price_shape.
  - intros i j Hi Hj. unfold Binomial.cb_forward_price.
    apply (get_scalar_div _ _ (ft + 1) (ft + 1)); [apply zcb_price_shape|lia|lia].
Qed.

(** C1, evaluated.  With face value 100, [ft = 1], [t = 2], no coupon, all
    rates equal to 1 and [qu = qd = 1/2] the root of the bond lattice is 25
    and the one-period zero-coupon price is 1/2, so the forward price is 50.
    [cb_forward_price] returns a 2 x 2 array: 50 at [(0,0)], and 25 at
    [(0,1)] and [(1,1)], where the zero-coupon lattice holds its face
    value 1. *)
Theorem cb_forward_price_not_scalar :
  let out := Binomial.cb_forward_price 100 1 2 0 1 1 1 (1/2) (1/2) in
  shape out 2 2
  /\ get (Binomial.cb_forward_lattice 100 1 2 0 1 1 1 (1/2) (1/2)) 0 0 = 25
  /\ get (Binomial.zcb_price 1 1 1 1 1 (1/2) (1/2)) 0 0 = 1 / 2
  /\ get out 0 0 = 50 /\ get out 0 1 = 25 /\ get out 1 1 = 25.
Proof.
  split; [apply (cb_forward_price_array 100 1 2 0 1 1 1 (1/2) (1/2))|].
  repeat split; lattice_eval; lra.
Qed.

(** C2, evaluated.  At [t = 2], [r = 0.05], [u = 1.1], [d = 0.9],
    [qu = 0.9], [qd = 0.1] and face value 100, backward induction gives
    [83680000/926079] (about 90.36) at the root of the zero-coupon lattice
    while 100 times the last column sum of the elementary price lattice is
    [137120000/926079] (about 148.07). *)
Theorem zcb_root_differs_from_ept_column_sum :
  get (Binomial.zcb_price 100 2 (1/20) (11/10) (9/10) (9/10) (1/10)) 0 0
  = 83680000 / 926079
  /\ 100 * col_sum (Binomial.elementary_price_tree (1/20) (11/10) (9/10) 2 (9/10) (1/10)) 2
     = 137120000 / 926079.
Proof. split; lattice_eval; lra. Qed.

(** C4, evaluated.  With the positive rates 0.05, 0.055, 0.045 and
    [qu = 0.9] the column sums of the
    elementary price lattice are [1], [20/21] and then [1371200/926079] in
    the simple model and [656/441] in the BDT model ([a = [5, 5]], [b = 0]):
    the last one exceeds both its predecessor and 1. *)
Theorem ept_column_sums_increase :
  let ept := Binomial.elementary_price_tree (1/20) (11/10) (9/10) 2 (9/10) (1/10) in
  let rt := Binomial.rates_tree (1/20) (11/10) (9/10) 1 in
  (get rt 0 0 = 1 / 20 /\ get rt 0 1 = 11 / 200 /\ get rt 1 1 = 9 / 200)
  /\ col_sum ept 0 = 1 /\ col_sum ept 1 = 20 / 21 /\ col_sum ept 2 = 1371200 / 926079
  /\ exists ept', BDT.elementary_price_tree [5; 5] 0 2 (9/10) = Some ept'
                  /\ col_sum ept' 1 = 20 / 21 /\ col_sum ept' 2 = 656 / 441.
Proof.
  split; [|split; [|split; [|split]]].
  - repeat split; lattice_eval; lra.
  - lattice_eval; lra.
  - lattice_eval; lra.
  - lattice_eval; lra.
  - eexists. split.
    + unfold BDT.elementary_price_tree, BDT.rates_tree. simpl. reflexivity.
    + lattice_eval. rewrite !Rmult_0_l, exp_0. split; lra.
Qed.

(** * The rate lattice of the BDT model *)

Lemma get_map_map (f : R -> R) M i j :
  f 0 = 0 -> get (map (map f) M) i j = f (get M i j).
Proof.
  intros Hf. unfold get.
  destruct (Nat.ltb_spec i (length M)) as [Hi|Hi].
  - rewrite (nth_indep _ [] (map f [])) by now rewrite length_map.
    rewrite map_nth. rewrite <- Hf at 1. now rewrite map_nth.
  - rewrite (nth_overflow (map _ M)) by now rewrite length_map.
    rewrite (nth_overflow M) by assumption. destruct j; simpl; now rewrite Hf.
Qed.

(** State of [rt] after the columns [0 .. k-1] are filled, before the
    division by 100. *)
Lemma bdt_rates_tree_cols a b t k :
  (k <= length a)%nat ->
  exists rt,
    fold_left (fun acc i =>
                 match acc with
                 | None => None
                 | Some rt =>
                     match nth_error a i with
                     | None => None
                     | Some a_i =>
                         Some (set_col_slice rt i 0 (i + 1)
                                 (fun k => a_i * exp (b * INR (i - k))))
                     end
                 end)
              (seq 0 k) (Some (zeros (t + 1) (t + 1))) = Some rt
    /\ shape rt (t + 1) (t + 1)
    /\ forall i j, get rt i j =
                   if (i <=? j)%nat && (j <? k)%nat && (j <=? t)%nat
                   then nth j a 0 * exp (b * INR (j - i)) else 0.
Proof.
  induction k as [|k IH]; intros Hk.
  - exists (zeros (t + 1) (t + 1)). simpl. split; [reflexivity|]. split.
    + apply shape_zeros.
    + intros i j. rewrite get_zeros. nat_bools.
  - destruct (IH ltac:(lia)) as (rt & Hrt & HS & Hget). clear IH.
    rewrite seq_S, fold_left_app, Hrt. simpl.
    destruct (nth_error a k) as [a_k|] eqn:Ha.
    2:{ apply nth_error_None in Ha. lia. }
    eexists. split; [reflexivity|]. split.
    + now apply shape_set_col_slice.
    + intros i j.
      rewrite (get_set_col_slice_shape _ (t + 1) (t + 1)) by assumption.
      rewrite Hget. nat_bools.
      all: subst j; now rewrite (nth_error_nth a k 0 Ha).
Qed.

Lemma bdt_rates_tree_entries a b t :
  (t + 1 <= length a)%nat ->
  exists rt,
    BDT.rates_tree a b t = Some rt
    /\ shape rt (t + 1) (t + 1)
    /\ forall i j, get rt i j =
                   if (i <=? j)%nat && (j <=? t)%nat
                   then nth j a 0 * exp (b * (INR j - INR i)) / 100 else 0.
Proof.
  intros Ha. unfold BDT.rates_tree, up_to. rewrite Nat.sub_0_r.
  destruct (bdt_rates_tree_cols a b t (t + 1) Ha) as (rt & Hrt & HS & Hget).
  rewrite Hrt. simpl. eexists. split; [reflexivity|]. split.
  - destruct HS as [Hn Hm]. split; [now rewrite length_map|].
    apply Forall_map. eapply Forall_impl; [|exact Hm].
    intros row Hr. simpl. now rewrite length_map.
  - intros i j. rewrite (get_map_map (fun x => x / 100)) by (unfold Rdiv; ring).
    rewrite Hget. nat_bools; try (unfold Rdiv; ring).
    now rewrite minus_INR.
Qed.

(** C3, as the code has it.  For a parameter vector [a] of length at least
    [t+1], the BDT [rates_tree(a, b, t)] returns an array (no index error)
    whose entry at [(i, j)], [0 <= i <= j <= t], is
    [a[j] * exp(b * (j - i)) / 100], and whose other entries are zero, in
    particular those with [i > j]. *)
Theorem bdt_rates_tree_closed_form (a : list R) (b : R) (t : nat) :
  (t + 1 <= length a)%nat ->
  exists rt,
    BDT.rates_tree a b t = Some rt
    /\ forall i j, get rt i j =
                   if (i <=? j)%nat && (j <=? t)%nat
                   then nth j a 0 * exp (b * (INR j - INR i)) / 100 else 0.
Proof.
  intros Ha. unfold BDT.rates_tree, up_to. rewrite Nat.sub_0_r.
  destruct (bdt_rates_tree_cols a b t (t + 1) Ha) as (rt & Hrt & _ & Hget).
  rewrite Hrt. simpl. eexists. split; [reflexivity|].
  intros i j. rewrite (get_map_map (fun x => x / 100)) by (unfold Rdiv; ring).
  rewrite Hget. nat_bools; try (unfold Rdiv; ring).
  now rewrite minus_INR.
Qed.

(** C3 as worded, without the division by 100, fails already on the
    one-cell lattice of [a = [5]], [b = 0], [t = 0]: the cell holds
    [5 / 100]. *)
Lemma bdt_rates_tree_not_unscaled :
  exists rt, BDT.rates_tree [5] 0 0 = Some rt
             /\ get rt 0 0 = 1 / 20
             /\ get rt 0 0 <> nth 0 [5] 0 * exp (0 * (INR 0 - INR 0)).
Proof.
  eexists. split; [reflexivity|].
  cbv [get nth map set_col_slice mapi_from zeros repeat Nat.add upd Nat.leb Nat.ltb andb
       Nat.sub INR].
  rewrite !Rmult_0_l, exp_0. split; lra.
Qed.

(** * The market curve *)

Lemma combine_map_self {A B} (f : A -> B) l : combine l (map f l) = map (fun x => (x, f x)) l.
Proof. induction l; simpl; f_equal; auto. Qed.

Lemma filter_le_seq t n : filter (fun x => (x <=? t)%nat) (seq 1 n) = seq 1 (Nat.min t n).
Proof.
  induction n as [|n IH]; [now rewrite Nat.min_0_r|].
  rewrite seq_S, filter_app, IH. cbn [filter Nat.add].
  destruct (Nat.leb_spec (S n) t) as [H|H].
  - rewrite (Nat.min_r t n), (Nat.min_r t (S n)) by lia. now rewrite seq_S.
  - rewrite (Nat.min_l t n), (Nat.min_l t (S n)) by lia. now rewrite app_nil_r.
Qed.

Lemma py_in_false x ys : (forall y, In y ys -> y <> INR x) -> BDT.py_in x ys = false.
Proof.
  intros H. unfold BDT.py_in. destruct (existsb _ ys) eqn:E; auto.
  apply existsb_exists in E. destruct E as (y & Hy & Hd).
  destruct (Req_dec_T (INR x) y) as [e|]; [|discriminate].
  exfalso. apply (H y Hy). now symmetry.
Qed.

(** When no observed yield is, as a number, one of the years [1 .. t], the
    comprehension [linear_int] is [1, ..., t] and the function interpolates
    at every year. *)
Lemma load_market_rates_all_years latest t :
  (t <= 30)%nat ->
  (forall x y, In x BDT.fred_yield_yrs -> (x <= t)%nat -> (1 <= y <= t)%nat ->
               latest x <> INR y) ->
  BDT.load_market_rates latest t
  = map (BDT.interp_at (tenor_points latest
                          (filter (fun x => (x <=? t)%nat) BDT.fred_yield_yrs)))
        (seq 1 t).
Proof.
  intros Ht Hno. unfold BDT.load_market_rates, BDT.interp, up_to.
  rewrite combine_map_self. fold (tenor_points latest). f_equal.
  replace (31 - 1)%nat with 30%nat by reflexivity.
  replace (seq 1 t) with (filter (fun x => (x <=? t)%nat) (seq 1 30))
    by (now rewrite filter_le_seq, Nat.min_l).
  apply filter_ext_in. intros y Hy. apply in_seq in Hy. cbv beta.
  destruct (Nat.leb_spec y t) as [Hyt|Hyt]; [|now rewrite andb_false_r].
  rewrite py_in_false; [reflexivity|].
  intros v Hv. apply in_map_iff in Hv. destruct Hv as (x & <- & Hx).
  apply filter_In in Hx. destruct Hx as [Hx Hxt]. apply Nat.leb_le in Hxt.
  apply Hno; auto; lia.
Qed.

(** [np.interp] on increasing abscissae. *)

Lemma sorted_head_lt x0 rest y :
  StronglySorted lt (x0 :: rest) -> In y rest -> (x0 < y)%nat.
Proof.
  intros HS Hy. apply StronglySorted_inv in HS. destruct HS as [_ HF].
  rewrite Forall_forall in HF. now apply HF.
Qed.

Lemma sorted_tail x0 rest : StronglySorted lt (x0 :: rest) -> StronglySorted lt rest.
Proof. intros HS. now apply StronglySorted_inv in HS. Qed.

(** At the left end of a segment the value is the point's own. *)
Lemma interp_from_start latest x0 f0 rest :
  StronglySorted lt (x0 :: rest) ->
  BDT.interp_from x0 x0 f0 (tenor_points latest rest) = f0.
Proof.
  intros HS. destruct rest as [|x1 rest]; simpl; auto.
  assert (x0 < x1)%nat by (apply (sorted_head_lt x0 (x1 :: rest)); simpl; auto).
  replace (x0 <? x1)%nat with true by (symmetry; apply Nat.ltb_lt; lia).
  unfold Rdiv. ring.
Qed.

Lemma interp_from_in latest y rest :
  forall x0 f0, StronglySorted lt (x0 :: rest) -> In y rest ->
                BDT.interp_from y x0 f0 (tenor_points latest rest) = latest y.
Proof.
  induction rest as [|x1 rest IH]; intros x0 f0 HS Hy; [contradiction|].
  simpl. pose proof (sorted_tail _ _ HS) as HS1.
  destruct Hy as [->|Hy].
  - rewrite Nat.ltb_irrefl. now apply interp_from_start.
  - assert (x1 < y)%nat by now apply (sorted_head_lt x1 rest).
    replace (y <? x1)%nat with false by (symmetry; apply Nat.ltb_ge; lia).
    now apply IH.
Qed.

Lemma interp_from_between latest y lo hi l2 l1 :
  forall x0 f0, StronglySorted lt (x0 :: l1 ++ lo :: hi :: l2) -> (lo < y < hi)%nat ->
                BDT.interp_from y x0 f0 (tenor_points latest (l1 ++ lo :: hi :: l2))
                = between latest lo hi y.
Proof.
  induction l1 as [|a l1 IH]; intros x0 f0 HS Hy; simpl.
  - replace (y <? lo)%nat with false by (symmetry; apply Nat.ltb_ge; lia).
    replace (y <? hi)%nat with true by (symmetry; apply Nat.ltb_lt; lia).
    reflexivity.
  - pose proof (sorted_tail _ _ HS) as HS1.
    assert (a < lo)%nat
      by (apply (sorted_head_lt a (l1 ++ lo :: hi :: l2)); auto; apply in_elt).
    replace (y <? a)%nat with false by (symmetry; apply Nat.ltb_ge; lia).
    now apply IH.
Qed.

Lemma interp_from_beyond latest y lo l1 :
  forall x0 f0, StronglySorted lt (x0 :: l1 ++ [lo]) -> (lo < y)%nat ->
                BDT.interp_from y x0 f0 (tenor_points latest (l1 ++ [lo])) = latest lo.
Proof.
  induction l1 as [|a l1 IH]; intros x0 f0 HS Hy; simpl.
  - replace (y <? lo)%nat with false by (symmetry; apply Nat.ltb_ge; lia).
    reflexivity.
  - pose proof (sorted_tail _ _ HS) as HS1.
    assert (a < lo)%nat by (apply (sorted_head_lt a (l1 ++ [lo])); auto; apply in_elt).
    replace (y <? a)%nat with false by (symmetry; apply Nat.ltb_ge; lia).
    now apply IH.
Qed.

Lemma interp_at_in latest xs y :
  StronglySorted lt xs -> In y xs -> BDT.interp_at (tenor_points latest xs) y = latest y.
Proof.
  intros HS Hy. destruct xs as [|x0 rest]; [contradiction|]. simpl.
  destruct Hy as [->|Hy].
  - now rewrite Nat.leb_refl.
  - assert (x0 < y)%nat by now apply (sorted_head_lt x0 rest).
    replace (y <=? x0)%nat with false by (symmetry; apply Nat.leb_gt; lia).
    now apply interp_from_in.
Qed.

Lemma interp_at_between latest l1 lo hi l2 y :
  StronglySorted lt (l1 ++ lo :: hi :: l2) -> (lo < y < hi)%nat ->
  BDT.interp_at (tenor_points latest (l1 ++ lo :: hi :: l2)) y = between latest lo hi y.
Proof.
  intros HS Hy. destruct l1 as [|a l1]; simpl.
  - replace (y <=? lo)%nat with false by (symmetry; apply Nat.leb_gt; lia).
    replace (y <? hi)%nat with true by (symmetry; apply Nat.ltb_lt; lia).
    reflexivity.
  - assert (a < lo)%nat
      by (apply (sorted_head_lt a (l1 ++ lo :: hi :: l2)); auto; apply in_elt).
    replace (y <=? a)%nat with false by (symmetry; apply Nat.leb_gt; lia).
    now apply interp_from_between.
Qed.

Lemma interp_at_beyond latest l1 lo y :
  StronglySorted lt (l1 ++ [lo]) -> (lo < y)%nat ->
  BDT.interp_at (tenor_points latest (l1 ++ [lo])) y = latest lo.
Proof.
  intros HS Hy. destruct l1 as [|a l1]; simpl.
  - replace (y <=? lo)%nat with false by (symmetry; apply Nat.leb_gt; lia).
    reflexivity.
  - assert (a < lo)%nat by (apply (sorted_head_lt a (l1 ++ [lo])); auto; apply in_elt).
    replace (y <=? a)%nat with false by (symmetry; apply Nat.leb_gt; lia).
    now apply interp_from_beyond.
Qed.

Lemma fred_yield_yrs_sorted : StronglySorted lt BDT.fred_yield_yrs.
Proof. unfold BDT.fred_yield_yrs. repeat constructor; lia. Qed.

Lemma StronglySorted_filter_lt (p : nat -> bool) l :
  StronglySorted lt l -> StronglySorted lt (filter p l).
Proof.
  induction 1 as [|a l HS IH HF]; simpl; [constructor|].
  destruct (p a); auto. constructor; auto.
  rewrite Forall_forall in *. intros x Hx. apply HF.
  apply filter_In in Hx. tauto.
Qed.

Lemma sorted_app_tail l1 l : StronglySorted lt (l1 ++ l) -> StronglySorted lt l.
Proof. induction l1; simpl; auto. intros H. apply IHl1. now apply sorted_tail in H. Qed.

Lemma filter_none {A} (p : A -> bool) l : (forall x, In x l -> p x = false) -> filter p l = [].
Proof.
  induction l as [|a l IH]; simpl; intros H; auto.
  rewrite (H a) by auto. apply IH. intros x Hx. apply H. auto.
Qed.

Lemma nth_map_seq (f : nat -> R) t y :
  (1 <= y <= t)%nat -> nth (y - 1) (map f (seq 1 t)) 0 = f y.
Proof.
  intros Hy. rewrite (nth_indep _ 0 (f 0%nat)) by (rewrite length_map, length_seq; lia).
  rewrite map_nth, seq_nth by lia. f_equal. lia.
Qed.

(** C9, as the code has it.  Let [1 <= t <= 30] and let no observed yield
    be, as a number, one of the years [1 .. t].  Then [load_market_rates(t)]
    returns one yield per year [1 .. t]; a year that is an observed tenor
    takes that tenor's yield; a year strictly between two tenors that follow
    each other in the tenor set, the upper one at most [t], takes the linear
    interpolation between them; and a year above the largest tenor that is at
    most [t] takes that tenor's yield unchanged. *)
Theorem load_market_rates_dense (latest : nat -> R) (t : nat) :
  (1 <= t <= 30)%nat ->
  (forall x y, In x BDT.fred_yield_yrs -> (x <= t)%nat -> (1 <= y <= t)%nat ->
               latest x <> INR y) ->
  let out := BDT.load_market_rates latest t in
  length out = t
  /\ forall y, (1 <= y <= t)%nat ->
       (In y BDT.fred_yield_yrs -> nth (y - 1) out 0 = latest y)
       /\ (forall lo hi, adjacent_tenors lo hi -> (hi <= t)%nat -> (lo < y < hi)%nat ->
                         nth (y - 1) out 0 = between latest lo hi y)
       /\ (forall lo, In lo BDT.fred_yield_yrs -> (lo < y)%nat ->
                      (forall x, In x BDT.fred_yield_yrs -> (x <= t)%nat -> (x <= lo)%nat) ->
                      nth (y - 1) out 0 = latest lo).
Proof.
  intros Ht Hno out. unfold out.
  rewrite (load_market_rates_all_years latest t) by (auto; lia).
  pose proof (StronglySorted_filter_lt (fun x => (x <=? t)%nat) _ fred_yield_yrs_sorted) as HS.
  split; [now rewrite length_map, length_seq|].
  intros y Hy. rewrite (nth_map_seq _ t y Hy). split; [|split].
  - intros Hin. apply interp_at_in; auto.
    apply filter_In. split; auto. apply Nat.leb_le; lia.
  - intros lo hi (l1 & l2 & Hadj) Hhi Hlo.
    rewrite Hadj in HS |- *. rewrite filter_app in HS |- *. simpl in HS |- *.
    replace (lo <=? t)%nat with true in HS |- * by (symmetry; apply Nat.leb_le; lia).
    replace (hi <=? t)%nat with true in HS |- * by (symmetry; apply Nat.leb_le; lia).
    now apply interp_at_between.
  - intros lo Hin Hlo Hmax.
    destruct (in_split _ _ Hin) as (l1 & l2 & Hsplit).
    pose proof fred_yield_yrs_sorted as HS0. rewrite Hsplit in HS0.
    apply sorted_app_tail in HS0.
    assert (Hl2 : filter (fun x => (x <=? t)%nat) l2 = []).
    { apply filter_none. intros x Hx. apply Nat.leb_gt.
      pose proof (sorted_head_lt lo l2 x HS0 Hx) as Hlt.
      destruct (Nat.le_gt_cases x t) as [Hxt|Hxt]; [|lia].
      assert (x <= lo)%nat; [|lia].
      apply Hmax; auto. rewrite Hsplit. apply in_or_app. right. now right. }
    rewrite Hsplit in HS |- *. rewrite filter_app in HS |- *. simpl in HS |- *.
    replace (lo <=? t)%nat with true in HS |- * by (symmetry; apply Nat.leb_le; lia).
    rewrite Hl2 in HS |- *.
    now apply interp_at_beyond.
Qed.

(** ** The curve on concrete observations *)

Lemma sample_yields_not_whole x y : sample_yields x <> INR y.
Proof.
  unfold sample_yields. intros H.
  assert (H2 : INR (2 * x + 1) = INR (2 * y)).
  { rewrite plus_INR, !mult_INR. simpl. lra. }
  apply INR_eq in H2. lia.
Qed.

Lemma load_market_rates_dense_at_5 :
  length (BDT.load_market_rates sample_yields 5) = 5%nat
  /\ nth 2 (BDT.load_market_rates sample_yields 5) 0 = sample_yields 3
  /\ nth 3 (BDT.load_market_rates sample_yields 5) 0 = between sample_yields 3 5 4.
Proof.
  destruct (load_market_rates_dense sample_yields 5 ltac:(lia)
              (fun x y _ _ _ => sample_yields_not_whole x y)) as [Hlen Hy].
  split; [exact Hlen|]. split.
  - destruct (Hy 3%nat ltac:(lia)) as [H3 _]. apply H3.
    unfold BDT.fred_yield_yrs. simpl. tauto.
  - destruct (Hy 4%nat ltac:(lia)) as (_ & H4 & _). apply H4; [|lia|lia].
    exists [1; 2]%nat, [7; 10; 20; 30]%nat. reflexivity.
Defined.

(** C9 as worded fails at [t = 4]: the tenors kept are 1, 2, 3, and year 4,
    which no kept tenor brackets from above, takes the 3-year yield. *)
Lemma load_market_rates_flat_after_last_tenor :
  BDT.load_market_rates sample_yields 4 = [3 / 2; 5 / 2; 7 / 2; 7 / 2]
  /\ filter (fun x => (x <=? 4)%nat) BDT.fred_yield_yrs = [1; 2; 3]%nat
  /\ ~ dense_curve_claim sample_yields 4.
Proof.
  split; [|split].
  - rewrite load_market_rates_all_years;
      [|lia|intros; apply sample_yields_not_whole].
    cbv [map seq filter BDT.fred_yield_yrs tenor_points BDT.interp_at BDT.interp_from
         Nat.leb Nat.ltb sample_yields INR].
    repeat (apply (f_equal2 cons); [unfold Rdiv; lra|]). reflexivity.
  - reflexivity.
  - intros [_ H]. destruct (H 4%nat ltac:(lia)) as [_ Hno].
    destruct Hno as (lo & hi & _ & Hhi & Hlt & _).
    + unfold BDT.fred_yield_yrs. simpl. lia.
    + simpl in Hhi. lia.
Qed.

Lemma par_yields_hit x :
  BDT.py_in x (map par_yields [1; 2; 3; 5]%nat) = (x =? 4)%nat.
Proof.
  destruct (Nat.eqb_spec x 4) as [->|Hx].
  - unfold BDT.py_in. simpl existsb.
    match goal with
    | |- context [Req_dec_T ?a (par_yields 1)] =>
        destruct (Req_dec_T a (par_yields 1)) as [_|n]; [reflexivity|]
    end.
    exfalso. apply n. unfold par_yields. simpl. lra.
  - apply py_in_false. intros y Hy. apply in_map_iff in Hy.
    destruct Hy as (k & <- & Hk). unfold par_yields. intros H.
    assert (H2 : INR (39 + k) = INR (10 * x)).
    { rewrite plus_INR, mult_INR. simpl INR. lra. }
    apply INR_eq in H2. simpl in Hk. lia.
Qed.

(** The membership test of [linear_int] compares a year with the observed
    YIELDS.  When the one-year yield is exactly 4 (percent), year 4 is left
    out and the curve for [t = 5] has four entries, for the years 1, 2, 3
    and 5. *)
Lemma load_market_rates_drops_year :
  par_yields 1 = 4
  /\ BDT.load_market_rates par_yields 5 = [4; 41 / 10; 42 / 10; 44 / 10]
  /\ length (BDT.load_market_rates par_yields 5) = 4%nat.
Proof.
  assert (Hl : BDT.load_market_rates par_yields 5 = [4; 41 / 10; 42 / 10; 44 / 10]).
  { unfold BDT.load_market_rates, BDT.interp, up_to.
    change (filter (fun x => (x <=? 5)%nat) BDT.fred_yield_yrs) with [1; 2; 3; 5]%nat.
    rewrite (filter_ext _ (fun x => negb (x =? 4)%nat && (x <=? 5)%nat))
      by (intros x; now rewrite par_yields_hit).
    cbv [map seq filter combine BDT.interp_at BDT.interp_from tenor_points
         Nat.leb Nat.ltb Nat.eqb Nat.sub negb andb par_yields INR].
    repeat (apply (f_equal2 cons); [unfold Rdiv; lra|]). reflexivity. }
  split; [unfold par_yields; simpl; lra|]. split; [exact Hl|now rewrite Hl].
Qed.

(** * The calibration script *)

(** C8, as the code has it.  The script binds [optimal_a = res.x] without
    reading [res.success] or [res.message]: its outcome is the report priced
    from [res.x] (or a NumPy exception), it is the same whatever flag and
    message the result carries, and it is never [CalibrationFailed]. *)
Theorem script_ignores_success_flag
        (latest : nat -> R)
        (minimize : (list R -> option R) -> list R -> BDT.OptimizeResult)
        (b : R) (t : nat) (qu face_value : R) (flag : bool) (msg : string) :
  BDT.script latest minimize b t qu face_value
  = match BDT.ZCB_prices (BDT.x (calibration_result latest minimize b t qu)) b t qu with
    | None => BDT.Raised
    | Some zcb => BDT.Printed (map (Rmult face_value) zcb)
    end
  /\ BDT.script latest (with_flag minimize flag msg) b t qu face_value
     = BDT.script latest minimize b t qu face_value
  /\ ((exists zcb, BDT.script latest minimize b t qu face_value = BDT.Printed zcb)
      \/ BDT.script latest minimize b t qu face_value = BDT.Raised).
Proof.
  split; [reflexivity|]. split; [reflexivity|].
  unfold BDT.script. destruct (BDT.ZCB_prices _ b t qu) as [zcb|].
  - left. eexists. reflexivity.
  - now right.
Qed.

(** C8 as worded fails: with a minimizer that reports failure, the script
    run for one period on the sample observations ends with a printed price
    computed from the vector the minimizer handed back. *)
Lemma script_prints_after_failed_calibration :
  BDT.success (calibration_result sample_yields failing_minimize (5 / 1000) 1 (1 / 2)) = false
  /\ BDT.script sample_yields failing_minimize (5 / 1000) 1 (1 / 2) 100
     = BDT.Printed [2000 / 21]
  /\ ~ calibration_failure_claim sample_yields failing_minimize (5 / 1000) 1 (1 / 2) 100.
Proof.
  assert (Hs : BDT.script sample_yields failing_minimize (5 / 1000) 1 (1 / 2) 100
               = BDT.Printed [2000 / 21]).
  { unfold BDT.script, failing_minimize, BDT.x, BDT.ZCB_prices, BDT.elementary_price_tree,
      BDT.rates_tree.
    cbv [option_map up_to Nat.sub Nat.add seq fold_left nth_error map repeat].
    lattice_eval. cbv [skipn fold_right nth INR].
    rewrite Rmult_0_r, exp_0. f_equal. f_equal. field. }
  split; [reflexivity|]. split; [exact Hs|].
  intros H. specialize (H eq_refl). rewrite Hs in H. discriminate.
Qed.


(** * The elementary price lattice as a recurrence *)

Lemma get_set_cell M n m i j v i' j' :
  shape M n m ->
  get (set_cell M i j v) i' j' =
  if (j' =? j)%nat && (i' =? i)%nat && ((i <? n)%nat && (j <? m)%nat) then v else get M i' j'.
Proof.
  intros HS. unfold set_cell. rewrite (get_set_col_slice_shape _ n m) by assumption.
  nat_bools.
Qed.

Lemma shape_set_cell M n m i j v : shape M n m -> shape (set_cell M i j v) n m.
Proof. apply shape_set_col_slice. Qed.

(** After the first loop has run for the columns [1 .. k]: the two edges of
    these columns hold their values, every other cell is zero. *)
Lemma ept_edges rt t qu qd k :
  (k <= t)%nat ->
  let E :=
    fold_left (fun ept i =>
                 let ept := set_cell ept 0 i (qu * (get ept 0 (i - 1) / (1 + get rt 0 (i - 1)))) in
                 set_cell ept i i (qd * (get ept (i - 1) (i - 1) / (1 + get rt (i - 1) (i - 1)))))
              (seq 1 k) (set_cell (zeros (t + 1) (t + 1)) 0 0 1) in
  shape E (t + 1) (t + 1)
  /\ forall i j, get E i j =
                 if (j <=? k)%nat && ((i =? 0)%nat || (i =? j)%nat)
                 then ept_val rt qu qd j i else 0.
Proof.
  induction k as [|k IH]; intros Hk.
  - simpl. split; [apply shape_set_cell, shape_zeros|].
    intros i j. rewrite (get_set_cell _ (t + 1) (t + 1)) by apply shape_zeros.
    rewrite get_zeros. nat_bools; subst; reflexivity.
  - destruct (IH ltac:(lia)) as [HS Hget]. clear IH.
    rewrite seq_S, fold_left_app. cbn [fold_left Nat.add].
    set (E := fold_left _ (seq 1 k) _) in *.
    replace (S k - 1)%nat with k by lia.
    assert (HS2 : shape (set_cell E 0 (S k) (qu * (get E 0 k / (1 + get rt 0 k))))
                        (t + 1) (t + 1)) by now apply shape_set_cell.
    split; [now apply shape_set_cell|].
    intros i j.
    assert (Hk0 : get E 0 k = ept_val rt qu qd k 0).
    { rewrite Hget, Nat.leb_refl. reflexivity. }
    assert (Hkk : get E k k = ept_val rt qu qd k k).
    { rewrite Hget, Nat.leb_refl, Nat.eqb_refl, orb_true_r. reflexivity. }
    assert (Hkk2 : get (set_cell E 0 (S k) (qu * (get E 0 k / (1 + get rt 0 k)))) k k
                   = get E k k).
    { rewrite (get_set_cell _ (t + 1) (t + 1)) by assumption.
      replace (k =? S k)%nat with false by (symmetry; apply Nat.eqb_neq; lia).
      reflexivity. }
    rewrite Hkk2, Hkk, Hk0.
    rewrite (get_set_cell _ (t + 1) (t + 1)) by (apply shape_set_cell; assumption).
    rewrite (get_set_cell _ (t + 1) (t + 1)) by assumption.
    rewrite Hget.
    replace (S k <? t + 1)%nat with true by (symmetry; apply Nat.ltb_lt; lia).
    replace (0 <? t + 1)%nat with true by (symmetry; apply Nat.ltb_lt; lia).
    rewrite !andb_true_r.
    destruct (Nat.eqb_spec j (S k)) as [->|Hj]; cbn [andb].
    + rewrite Nat.leb_refl.
      replace (S k <=? k)%nat with false by (symmetry; apply Nat.leb_gt; lia).
      cbn [andb ept_val].
      destruct (Nat.eqb_spec i (S k)) as [->|Hi].
      * cbn [Nat.eqb orb]. reflexivity.
      * destruct (Nat.eqb_spec i 0) as [->|Hi0]; reflexivity.
    + replace (j <=? S k)%nat with (j <=? k)%nat; [reflexivity|].
      destruct (Nat.leb_spec j k), (Nat.leb_spec j (S k)); auto; lia.
Qed.

Lemma ept_val_above rt qu qd j : forall i, (j < i)%nat -> ept_val rt qu qd j i = 0.
Proof.
  destruct j as [|j]; intros i Hi; simpl.
  - destruct i; [lia|reflexivity].
  - destruct i as [|i]; [lia|]. cbn [Nat.eqb].
    replace (i =? j)%nat with false by (symmetry; apply Nat.eqb_neq; lia).
    replace (S i <? S j)%nat with false by (symmetry; apply Nat.ltb_ge; lia).
    reflexivity.
Qed.

(** After the second loop has run for the columns [1 .. k]: these columns
    are complete, the later ones still hold their edges only. *)
Lemma ept_interior rt t qu qd E1 k :
  (k <= t)%nat ->
  shape E1 (t + 1) (t + 1) ->
  (forall i j, get E1 i j =
               if (j <=? t)%nat && ((i =? 0)%nat || (i =? j)%nat)
               then ept_val rt qu qd j i else 0) ->
  let E :=
    fold_left (fun ept i =>
                 set_col_slice ept i 1 i
                   (fun k => qu * (1 / (1 + get rt (k - 1) (i - 1))) * get ept (k - 1) (i - 1)
                             + qd * (1 / (1 + get rt k (i - 1))) * get ept k (i - 1)))
              (seq 1 k) E1 in
  shape E (t + 1) (t + 1)
  /\ forall i j, get E i j =
                 if (j <=? k)%nat then ept_val rt qu qd j i
                 else if (j <=? t)%nat && ((i =? 0)%nat || (i =? j)%nat)
                      then ept_val rt qu qd j i else 0.
Proof.
  intros Hk HS1 H1. induction k as [|k IH].
  - simpl. split; [assumption|]. intros i j. rewrite H1.
    destruct (Nat.leb_spec j 0) as [Hj|Hj]; [|reflexivity].
    assert (j = 0)%nat by lia. subst j. simpl.
    rewrite orb_diag. destruct i; reflexivity.
  - destruct (IH ltac:(lia)) as [HS Hget]. clear IH.
    rewrite seq_S, fold_left_app. cbn [fold_left Nat.add].
    set (E := fold_left _ (seq 1 k) E1) in *.
    replace (S k - 1)%nat with k by lia.
    split; [now apply shape_set_col_slice|].
    intros i j.
    rewrite (get_set_col_slice_shape _ (t + 1) (t + 1)) by assumption.
    rewrite !Hget. rewrite Nat.leb_refl.
    destruct (Nat.eqb_spec j (S k)) as [->|Hj]; cbn [andb].
    + rewrite Nat.leb_refl.
      replace (S k <=? k)%nat with false by (symmetry; apply Nat.leb_gt; lia).
      replace (S k <=? t)%nat with true by (symmetry; apply Nat.leb_le; lia).
      destruct (Nat.leb_spec 1 i) as [Hi1|Hi1]; cbn [andb].
      * destruct (Nat.ltb_spec i (S k)) as [Hi2|Hi2]; cbn [andb].
        -- replace (i <? t + 1)%nat with true by (symmetry; apply Nat.ltb_lt; lia).
           replace (S k <? t + 1)%nat with true by (symmetry; apply Nat.ltb_lt; lia).
           cbn [andb ept_val].
           replace (i =? 0)%nat with false by (symmetry; apply Nat.eqb_neq; lia).
           replace (i =? S k)%nat with false by (symmetry; apply Nat.eqb_neq; lia).
           replace (i <? S k)%nat with true by (symmetry; apply Nat.ltb_lt; lia).
           reflexivity.
        -- replace (i =? 0)%nat with false by (symmetry; apply Nat.eqb_neq; lia).
           cbn [orb andb].
           destruct (Nat.eqb_spec i (S k)) as [->|Hne]; [reflexivity|].
           symmetry. apply ept_val_above. lia.
      * assert (i = 0)%nat by lia. subst i. reflexivity.
    + destruct (Nat.leb_spec j k), (Nat.leb_spec j (S k)); try lia; reflexivity.
Qed.

(** The array that [elementary_price_tree] builds holds the recurrence
    [ept_val] in every column [0 .. t]. *)
Lemma ept_of_rates_closed_form rt t qu qd i j :
  get (Binomial.ept_of_rates rt t qu qd) i j
  = if (j <=? t)%nat then ept_val rt qu qd j i else 0.
Proof.
  unfold Binomial.ept_of_rates, up_to. replace (t + 1 - 1)%nat with t by lia.
  destruct (ept_edges rt t qu qd t (Nat.le_refl t)) as [HS1 H1].
  destruct (ept_interior rt t qu qd _ t (Nat.le_refl t) HS1 H1) as [_ H2].
  rewrite H2. destruct (j <=? t)%nat; reflexivity.
Qed.

Lemma ept_of_rates_shape rt t qu qd : shape (Binomial.ept_of_rates rt t qu qd) (t + 1) (t + 1).
Proof.
  unfold Binomial.ept_of_rates, up_to. replace (t + 1 - 1)%nat with t by lia.
  destruct (ept_edges rt t qu qd t (Nat.le_refl t)) as [HS1 H1].
  now destruct (ept_interior rt t qu qd _ t (Nat.le_refl t) HS1 H1) as [HS _].
Qed.

(** * Finite sums *)

Lemma vsum_app l1 l2 : vsum (l1 ++ l2) = vsum l1 + vsum l2.
Proof. induction l1; simpl; [ring|]. rewrite IHl1. ring. Qed.

Lemma sum_to_0 f : sum_to 0 f = 0.
Proof. reflexivity. Qed.

Lemma sum_to_S n f : sum_to (S n) f = sum_to n f + f n.
Proof. unfold sum_to. rewrite seq_S, map_app, vsum_app. simpl. ring. Qed.

Lemma sum_to_S_l n f : sum_to (S n) f = f 0%nat + sum_to n (fun i => f (S i)).
Proof.
  unfold sum_to. cbn [seq map vsum fold_right].
  rewrite <- seq_shift, map_map. reflexivity.
Qed.

Lemma sum_to_ext n f g : (forall i, (i < n)%nat -> f i = g i) -> sum_to n f = sum_to n g.
Proof.
  induction n as [|n IH]; intros H; [reflexivity|].
  rewrite !sum_to_S, IH, H by (intros; auto; lia). reflexivity.
Qed.

Lemma sum_to_plus n f g : sum_to n (fun i => f i + g i) = sum_to n f + sum_to n g.
Proof. induction n as [|n IH]; [unfold sum_to; simpl; ring|]. rewrite !sum_to_S, IH. ring. Qed.

Lemma sum_to_scal n c f : sum_to n (fun i => c * f i) = c * sum_to n f.
Proof. induction n as [|n IH]; [unfold sum_to; simpl; ring|]. rewrite !sum_to_S, IH. ring. Qed.

Lemma fold_sum_nth {A} (g : A -> R) (d : A) l :
  vsum (map g l) = sum_to (length l) (fun i => g (nth i l d)).
Proof.
  induction l as [|a l IH]; [reflexivity|].
  simpl length. rewrite sum_to_S_l. simpl. now rewrite IH.
Qed.

Lemma col_sum_sum_to M j : col_sum M j = sum_to (length M) (fun i => get M i j).
Proof. unfold col_sum, get. apply (fold_sum_nth (fun row => nth j row 0) []). Qed.

(** * The zero-coupon lattice *)

Lemma zcb_price_unfold fv t r u d qu qd :
  Binomial.zcb_price fv t r u d qu qd
  = fold_left (col_step (disc_step (Binomial.rates_tree r u d (t - 1)) qu qd))
              (down_from t 0)
              (set_col_slice (zeros (t + 1) (t + 1)) t 0 (t + 1) (fun _ => fv)).
Proof. reflexivity. Qed.

(** The lattice that [zcb_price] returns: the face value in the last column,
    the discounted expectation of the next column everywhere before. *)
Lemma zcb_price_spec fv t r u d qu qd :
  let Z := Binomial.zcb_price fv t r u d qu qd in
  let rt := Binomial.rates_tree r u d (t - 1) in
  (forall i, (i <= t)%nat -> get Z i t = fv)
  /\ (forall i j, (j < t)%nat -> (i <= j)%nat ->
        get Z i j = (1 / (1 + get rt i j))
                    * (qu * get Z i (j + 1) + qd * get Z (i + 1) (j + 1))).
Proof.
  intros Z rt. unfold Z. rewrite zcb_price_unfold.
  assert (HS0 : shape (set_col_slice (zeros (t + 1) (t + 1)) t 0 (t + 1) (fun _ => fv))
                      (t + 1) (t + 1)) by apply shape_set_col_slice, shape_zeros.
  destruct (backward_spec (disc_step rt qu qd) (t + 1) (t + 1) (disc_step_local _ _ _)
              t 0 _ HS0 ltac:(lia)) as (_ & Hout & Hin).
  split.
  - intros i Hi. rewrite Hout by lia.
    rewrite (get_set_col_slice_shape _ (t + 1) (t + 1)) by apply shape_zeros.
    nat_bools.
  - intros i j Hj Hi. apply (Hin i j); lia.
Qed.

(** * Forward and backward induction with equal weights *)

(** One column of [ept_val] when both moves carry the same weight [q]:
    every cell collects [q] times the discounted cells from which it is
    reached. *)
Lemma ept_val_symmetric_step rt q j k :
  (k < j + 2)%nat ->
  ept_val rt q q (S j) k
  = q * (if (k <? j + 1)%nat then ept_val rt q q j k * (1 / (1 + get rt k j)) else 0)
    + q * (if (0 <? k)%nat
           then ept_val rt q q j (k - 1) * (1 / (1 + get rt (k - 1) j)) else 0).
Proof.
  intros Hk. cbn [ept_val].
  destruct (Nat.eqb_spec k 0) as [->|Hk0].
  - replace (0 <? j + 1)%nat with true by (symmetry; apply Nat.ltb_lt; lia).
    cbn [Nat.ltb Nat.leb]. unfold Rdiv. ring.
  - replace (0 <? k)%nat with true by (symmetry; apply Nat.ltb_lt; lia).
    destruct (Nat.eqb_spec k (S j)) as [->|Hkj].
    + replace (S j <? j + 1)%nat with false by (symmetry; apply Nat.ltb_ge; lia).
      replace (S j - 1)%nat with j by lia. unfold Rdiv. ring.
    + replace (k <? S j)%nat with true by (symmetry; apply Nat.ltb_lt; lia).
      replace (k <? j + 1)%nat with true by (symmetry; apply Nat.ltb_lt; lia).
      unfold Rdiv. ring.
Qed.

(** A column of [ept_val] summed against any weights [z], in terms of the
    column before. *)
Lemma ept_val_column_weighted rt q j (z : nat -> R) :
  sum_to (j + 2) (fun k => ept_val rt q q (S j) k * z k)
  = q * sum_to (j + 1) (fun i => ept_val rt q q j i * (1 / (1 + get rt i j)) * z i)
    + q * sum_to (j + 1) (fun i => ept_val rt q q j i * (1 / (1 + get rt i j)) * z (S i)).
Proof.
  set (w := fun i => ept_val rt q q j i * (1 / (1 + get rt i j))).
  rewrite (sum_to_ext (j + 2) _
             (fun k => q * ((if (k <? j + 1)%nat then w k else 0) * z k)
                       + q * ((if (0 <? k)%nat then w (k - 1)%nat else 0) * z k))).
  2:{ intros k Hk. rewrite (ept_val_symmetric_step rt q j k Hk). unfold w. ring. }
  rewrite sum_to_plus, !sum_to_scal. f_equal; f_equal.
  - replace (j + 2)%nat with (S (j + 1)) by lia. rewrite sum_to_S.
    rewrite Nat.ltb_irrefl, Rmult_0_l, Rplus_0_r.
    apply sum_to_ext. intros i Hi.
    now replace (i <? j + 1)%nat with true by (symmetry; apply Nat.ltb_lt; lia).
  - replace (j + 2)%nat with (S (j + 1)) by lia. rewrite sum_to_S_l.
    cbn [Nat.ltb Nat.leb]. rewrite Rmult_0_l, Rplus_0_l.
    apply sum_to_ext. intros i Hi. cbn [Nat.ltb Nat.leb Nat.sub].
    now rewrite Nat.sub_0_r.
Qed.

(** The value of the bond carried by column [j] of the state prices does not
    depend on [j]. *)
Lemma zcb_ept_pairing_step fv t r u d q j :
  (j < t)%nat ->
  let Z := Binomial.zcb_price fv t r u d q q in
  let rt := Binomial.rates_tree r u d (t - 1) in
  sum_to (j + 1) (fun i => ept_val rt q q j i * get Z i j)
  = sum_to (j + 2) (fun i => ept_val rt q q (S j) i * get Z i (j + 1)).
Proof.
  intros Hj Z rt.
  destruct (zcb_price_spec fv t r u d q q) as [_ Hstep].
  fold Z rt in Hstep.
  rewrite (ept_val_column_weighted rt q j (fun i => get Z i (j + 1))).
  rewrite <- !sum_to_scal, <- sum_to_plus. apply sum_to_ext. intros i Hi.
  rewrite (Hstep i j) by lia. replace (S i) with (i + 1)%nat by lia. ring.
Qed.

Lemma zcb_ept_pairing fv t r u d q j :
  (j <= t)%nat ->
  let Z := Binomial.zcb_price fv t r u d q q in
  let rt := Binomial.rates_tree r u d (t - 1) in
  get Z 0 0 = sum_to (j + 1) (fun i => ept_val rt q q j i * get Z i j).
Proof.
  intros Hj Z rt. induction j as [|j IH].
  - unfold sum_to. simpl. ring.
  - rewrite IH by lia. unfold Z, rt.
    rewrite (zcb_ept_pairing_step fv t r u d q j) by lia.
    replace (j + 2)%nat with (S j + 1)%nat by lia.
    apply sum_to_ext. intros i _. now replace (j + 1)%nat with (S j) by lia.
Qed.

(** X1. With equal weights on the two moves ([qu = qd]), backward induction and
    forward induction agree: the root of the zero-coupon lattice is the face
    value times the last column sum of the elementary price lattice. *)
Theorem zcb_root_is_ept_column_sum_equal_weights (face_value : R) (t : nat) (r u d q : R) :
  (1 <= t)%nat ->
  get (Binomial.zcb_price face_value t r u d q q) 0 0
  = face_value * col_sum (Binomial.elementary_price_tree r u d t q q) t.
Proof.
  intros Ht. rewrite (zcb_ept_pairing face_value t r u d q t (Nat.le_refl t)).
  destruct (zcb_price_spec face_value t r u d q q) as [Hterm _].
  rewrite col_sum_sum_to. unfold Binomial.elementary_price_tree.
  destruct (ept_of_rates_shape (Binomial.rates_tree r u d (t - 1)) t q q) as [Hlen _].
  rewrite Hlen, <- sum_to_scal. apply sum_to_ext. intros i Hi.
  rewrite Hterm by lia. rewrite ept_of_rates_closed_form, Nat.leb_refl. ring.
Qed.

(** * Column sums with equal weights *)

Lemma sum_to_lt n f g :
  (0 < n)%nat -> (forall i, (i < n)%nat -> f i < g i) -> sum_to n f < sum_to n g.
Proof.
  induction n as [|n IH]; intros Hn H; [lia|].
  rewrite !sum_to_S. destruct n as [|n].
  - rewrite !sum_to_0. specialize (H 0%nat ltac:(lia)). lra.
  - specialize (IH ltac:(lia) (fun i Hi => H i ltac:(lia))).
    specialize (H (S n) ltac:(lia)). lra.
Qed.

Lemma sum_to_pos n f :
  (0 < n)%nat -> (forall i, (i < n)%nat -> 0 < f i) -> 0 < sum_to n f.
Proof.
  intros Hn H. replace 0 with (sum_to n (fun _ => 0)).
  - now apply sum_to_lt.
  - clear. induction n; [reflexivity|]. rewrite sum_to_S, IHn. ring.
Qed.

Lemma sum_to_tail_zero n m f :
  (n <= m)%nat -> (forall i, (n <= i < m)%nat -> f i = 0) -> sum_to m f = sum_to n f.
Proof.
  induction m as [|m IH]; intros Hn H.
  - now replace n with 0%nat by lia.
  - destruct (Nat.eq_dec n (S m)) as [->|Hne]; [reflexivity|].
    rewrite sum_to_S, IH, H by (try lia; intros; apply H; lia). ring.
Qed.


Lemma ept_val_half_pos rt t :
  (forall i j, (i <= j < t)%nat -> 0 < get rt i j) ->
  forall j i, (i <= j <= t)%nat -> 0 < ept_val rt (1 / 2) (1 / 2) j i.
Proof.
  intros Hrt. induction j as [|j IH]; intros i Hi.
  - replace i with 0%nat by lia. simpl. lra.
  - assert (Hd : forall k, (k <= j)%nat ->
                           0 < ept_val rt (1 / 2) (1 / 2) j k * (1 / (1 + get rt k j))).
    { intros k Hk. apply Rmult_lt_0_compat; [apply IH; lia|].
      apply Rdiv_lt_0_compat; [lra|]. specialize (Hrt k j ltac:(lia)). lra. }
    rewrite ept_val_symmetric_step by lia.
    destruct (Nat.ltb_spec i (j + 1)) as [H1|H1], (Nat.ltb_spec 0 i) as [H2|H2].
    + specialize (Hd i ltac:(lia)) as Ha. specialize (Hd (i - 1)%nat ltac:(lia)) as Hb. lra.
    + specialize (Hd i ltac:(lia)) as Ha. lra.
    + specialize (Hd (i - 1)%nat ltac:(lia)) as Hb. lra.
    + lia.
Qed.

Lemma col_sum_ept rt t qu qd j :
  (j <= t)%nat ->
  col_sum (Binomial.ept_of_rates rt t qu qd) j = sum_to (j + 1) (ept_val rt qu qd j).
Proof.
  intros Hj. rewrite col_sum_sum_to.
  destruct (ept_of_rates_shape rt t qu qd) as [Hlen _]. rewrite Hlen.
  rewrite (sum_to_ext _ _ (ept_val rt qu qd j)).
  - apply sum_to_tail_zero; [lia|]. intros i Hi. apply ept_val_above. lia.
  - intros i _. rewrite ept_of_rates_closed_form.
    now replace (j <=? t)%nat with true by (symmetry; apply Nat.leb_le; lia).
Qed.

Lemma ept_column_sum_half_step rt j :
  sum_to (j + 2) (ept_val rt (1 / 2) (1 / 2) (S j))
  = sum_to (j + 1) (fun i => ept_val rt (1 / 2) (1 / 2) j i * (1 / (1 + get rt i j))).
Proof.
  rewrite (sum_to_ext _ _ (fun k => ept_val rt (1 / 2) (1 / 2) (S j) k * 1))
    by (intros; ring).
  rewrite ept_val_column_weighted.
  rewrite (sum_to_ext (j + 1) (fun i => _ * _ * 1)
             (fun i => ept_val rt (1 / 2) (1 / 2) j i * (1 / (1 + get rt i j))))
    by (intros; ring).
  lra.
Qed.

(** With [qu = qd = 1/2] and positive rates the column sums of the
    elementary price lattice start at 1, stay positive and decrease strictly
    from each column to the next, so each lies in (0, 1]. *)
Lemma ept_column_sums_decrease_at_half (rt : matrix) (t : nat) :
  (forall i j, (i <= j < t)%nat -> 0 < get rt i j) ->
  let E := Binomial.ept_of_rates rt t (1 / 2) (1 / 2) in
  col_sum E 0 = 1
  /\ (forall j, (j < t)%nat -> 0 < col_sum E (S j) < col_sum E j)
  /\ (forall j, (j <= t)%nat -> 0 < col_sum E j <= 1).
Proof.
  intros Hrt E.
  assert (H0 : col_sum E 0 = 1).
  { unfold E. rewrite col_sum_ept by lia. unfold sum_to. simpl. ring. }
  assert (Hstep : forall j, (j < t)%nat -> 0 < col_sum E (S j) < col_sum E j).
  { intros j Hj. unfold E. rewrite !col_sum_ept by lia.
    replace (S j + 1)%nat with (j + 2)%nat by lia.
    rewrite ept_column_sum_half_step.
    assert (Hv : forall i, (i < j + 1)%nat -> 0 < ept_val rt (1 / 2) (1 / 2) j i)
      by (intros i Hi; apply (ept_val_half_pos rt t Hrt); lia).
    assert (Hd : forall i, (i < j + 1)%nat -> 0 < 1 / (1 + get rt i j) < 1).
    { intros i Hi. specialize (Hrt i j ltac:(lia)).
      assert (Hinv : 0 < / (1 + get rt i j)) by (apply Rinv_0_lt_compat; lra).
      assert (Hone : / (1 + get rt i j) * (1 + get rt i j) = 1) by (apply Rinv_l; lra).
      unfold Rdiv. rewrite Rmult_1_l. split; [exact Hinv|nra]. }
    split.
    - apply sum_to_pos; [lia|]. intros i Hi.
      apply Rmult_lt_0_compat; [now apply Hv|now apply Hd].
    - apply sum_to_lt; [lia|]. intros i Hi.
      specialize (Hv i Hi). specialize (Hd i Hi). nra. }
  split; [exact H0|]. split; [exact Hstep|].
  induction j as [|j IH]; intros Hj.
  - rewrite H0. lra.
  - specialize (IH ltac:(lia)). specialize (Hstep j ltac:(lia)). lra.
Qed.

(** * Further properties of the lattices *)

Lemma fold_col_step_ext g1 g2 cols :
  (forall L j k, g1 L j k = g2 L j k) ->
  forall L, fold_left (col_step g1) cols L = fold_left (col_step g2) cols L.
Proof.
  intros Hg. induction cols as [|j cols IH]; intros L; simpl; auto.
  rewrite IH. f_equal. unfold col_step. apply set_col_slice_ext. intros k. apply Hg.
Qed.

(** X2. A coupon bond with coupon rate 0 is the zero-coupon bond: the two
    lattices are the same array, so [cb_price] is the root of [zcb_price]. *)
Theorem cb_price_zero_coupon (face_value : R) (t : nat) (r u d qu qd : R) :
  (1 <= t)%nat ->
  Binomial.cb_lattice face_value t 0 r u d qu qd = Binomial.zcb_price face_value t r u d qu qd
  /\ Binomial.cb_price face_value t 0 r u d qu qd
     = get (Binomial.zcb_price face_value t r u d qu qd) 0 0.
Proof.
  intros _.
  assert (H : Binomial.cb_lattice face_value t 0 r u d qu qd
              = Binomial.zcb_price face_value t r u d qu qd).
  { unfold Binomial.cb_lattice. rewrite zcb_price_unfold.
    rewrite (set_col_slice_ext _ _ _ _ (fun _ => (1 + 0) * face_value) (fun _ => face_value))
      by (intros; ring).
    apply (fold_col_step_ext
             (coupon_step (Binomial.rates_tree r u d (t - 1)) face_value 0 qu qd)
             (disc_step (Binomial.rates_tree r u d (t - 1)) qu qd)).
    intros L j k. unfold coupon_step, disc_step. ring. }
  split; [exact H|]. unfold Binomial.cb_price. now rewrite H.
Qed.

(** X3. The forward induction of [elementary_price_tree] for [t >= 1], cell by
    cell: the root
    is 1; in column [j] the top cell comes from the top cell of column [j-1]
    with weight [qu], the diagonal cell from the diagonal cell with weight
    [qd], an interior cell [i] from the cells [i-1] (weight [qu]) and [i]
    (weight [qd]) of column [j-1], each discounted at its own rate; below the
    diagonal the array is zero. *)
Theorem elementary_price_tree_recurrence (r u d : R) (t : nat) (qu qd : R) :
  (1 <= t)%nat ->
  let E := Binomial.elementary_price_tree r u d t qu qd in
  let rt := Binomial.rates_tree r u d (t - 1) in
  get E 0 0 = 1
  /\ (forall j, (1 <= j <= t)%nat ->
        get E 0 j = qu * (get E 0 (j - 1) / (1 + get rt 0 (j - 1)))
        /\ get E j j = qd * (get E (j - 1) (j - 1) / (1 + get rt (j - 1) (j - 1)))
        /\ forall i, (0 < i < j)%nat ->
             get E i j = qu * (1 / (1 + get rt (i - 1) (j - 1))) * get E (i - 1) (j - 1)
                         + qd * (1 / (1 + get rt i (j - 1))) * get E i (j - 1))
  /\ (forall i j, (j < i)%nat -> get E i j = 0).
Proof.
  intros _ E rt. unfold E, Binomial.elementary_price_tree. fold rt.
  split; [|split].
  - rewrite ept_of_rates_closed_form. reflexivity.
  - intros j Hj. rewrite !ept_of_rates_closed_form.
    replace (j <=? t)%nat with true by (symmetry; apply Nat.leb_le; lia).
    replace (j - 1 <=? t)%nat with true by (symmetry; apply Nat.leb_le; lia).
    destruct j as [|j]; [lia|]. replace (S j - 1)%nat with j by lia.
    split; [reflexivity|]. split.
    + cbn [ept_val Nat.eqb]. now rewrite Nat.eqb_refl.
    + intros i Hi. rewrite !ept_of_rates_closed_form.
      replace (j <=? t)%nat with true by (symmetry; apply Nat.leb_le; lia).
      replace (S j <=? t)%nat with true by (symmetry; apply Nat.leb_le; lia).
      cbn [ept_val].
      replace (i =? 0)%nat with false by (symmetry; apply Nat.eqb_neq; lia).
      replace (i =? S j)%nat with false by (symmetry; apply Nat.eqb_neq; lia).
      replace (i <? S j)%nat with true by (symmetry; apply Nat.ltb_lt; lia).
      reflexivity.
  - intros i j Hij. rewrite ept_of_rates_closed_form.
    destruct (j <=? t)%nat; [|reflexivity]. now apply ept_val_above.
Qed.

(** X4. With [qu = qd = 1/2] and positive rates, the column sums of the simple
    model's elementary price lattice start at 1, decrease strictly and stay
    in (0, 1]. *)
Theorem elementary_price_tree_sums_at_half (r u d : R) (t : nat) :
  (1 <= t)%nat ->
  (forall i j, (i <= j < t)%nat -> 0 < get (Binomial.rates_tree r u d (t - 1)) i j) ->
  let E := Binomial.elementary_price_tree r u d t (1 / 2) (1 / 2) in
  col_sum E 0 = 1
  /\ (forall j, (j < t)%nat -> 0 < col_sum E (S j) < col_sum E j)
  /\ (forall j, (j <= t)%nat -> 0 < col_sum E j <= 1).
Proof.
  intros _ Hrt. apply (ept_column_sums_decrease_at_half _ t Hrt).
Qed.

(** X5. The same for the BDT model, whose second weight is [1 - qu]: with
    [qu = 1/2] and positive parameters [a], the lattice is built (no index
    error when [a] has [t] entries) and its column sums, the model's
    zero-coupon prices, start at 1, decrease strictly and stay in (0, 1]. *)
Theorem bdt_elementary_price_tree_sums_at_half (a : list R) (b : R) (t : nat) :
  (1 <= t <= length a)%nat ->
  (forall x, In x a -> 0 < x) ->
  exists E,
    BDT.elementary_price_tree a b t (1 / 2) = Some E
    /\ col_sum E 0 = 1
    /\ (forall j, (j < t)%nat -> 0 < col_sum E (S j) < col_sum E j)
    /\ (forall j, (j <= t)%nat -> 0 < col_sum E j <= 1).
Proof.
  intros Ht Ha.
  destruct (bdt_rates_tree_entries a b (t - 1) ltac:(lia)) as (rt & Hrt & _ & Hget).
  unfold BDT.elementary_price_tree. rewrite Hrt.
  replace (1 - 1 / 2) with (1 / 2) by lra.
  eexists. split; [reflexivity|].
  apply (ept_column_sums_decrease_at_half rt t).
  intros i j Hij. rewrite Hget.
  replace (i <=? j)%nat with true by (symmetry; apply Nat.leb_le; lia).
  replace (j <=? t - 1)%nat with true by (symmetry; apply Nat.leb_le; lia).
  cbn [andb]. apply Rdiv_lt_0_compat; [|lra].
  apply Rmult_lt_0_compat; [|apply exp_pos].
  apply Ha, nth_In. lia.
Qed.

(** * Bounds on the instrument lattices *)

(** Backward induction over the columns of a triangular lattice. *)
Lemma column_induction (P : nat -> nat -> Prop) (T : nat) :
  (forall i, (i <= T)%nat -> P i T) ->
  (forall j, (j < T)%nat -> (forall i, (i <= j + 1)%nat -> P i (j + 1)%nat) ->
             forall i, (i <= j)%nat -> P i j) ->
  forall j, (j <= T)%nat -> forall i, (i <= j)%nat -> P i j.
Proof.
  intros Hlast Hstep j Hj.
  remember (T - j)%nat as k eqn:Hk. revert j Hj Hk.
  induction k as [|k IH]; intros j Hj Hk i Hi.
  - replace j with T in * by lia. now apply Hlast.
  - apply Hstep; [lia| |assumption].
    intros i' Hi'. apply IH; lia.
Qed.

Lemma rates_tree_cell r u d t i j :
  get (Binomial.rates_tree r u d t) i j =
  if (i <=? j)%nat && (j <=? t)%nat then r * u ^ (j - i) * d ^ i else 0.
Proof.
  unfold Binomial.rates_tree, up_to. replace (t + 1 - 1)%nat with t by lia.
  destruct (rates_tree_rows r u d t t ltac:(lia)) as [_ Hget].
  rewrite Hget. nat_bools.
Qed.

Lemma rates_tree_nonneg r u d t i j :
  0 <= r -> 0 <= u -> 0 <= d -> 0 <= get (Binomial.rates_tree r u d t) i j.
Proof.
  intros Hr Hu Hd. rewrite rates_tree_cell.
  destruct (_ && _); [|lra].
  apply Rmult_le_pos; [apply Rmult_le_pos|]; auto; now apply pow_le.
Qed.

(** A rate of the lattice does not depend on the horizon it was built for. *)
Lemma rates_tree_horizon r u d t t' i j :
  (j <= t)%nat -> (j <= t')%nat ->
  get (Binomial.rates_tree r u d t) i j = get (Binomial.rates_tree r u d t') i j.
Proof.
  intros H H'. rewrite !rates_tree_cell.
  replace (j <=? t)%nat with true by (symmetry; apply Nat.leb_le; lia).
  now replace (j <=? t')%nat with true by (symmetry; apply Nat.leb_le; lia).
Qed.

Lemma discount_bounds x : 0 <= x -> 0 < 1 / (1 + x) <= 1.
Proof.
  intros Hx.
  assert (Hinv : 0 < / (1 + x)) by (apply Rinv_0_lt_compat; lra).
  assert (Hone : / (1 + x) * (1 + x) = 1) by (apply Rinv_l; lra).
  unfold Rdiv. rewrite Rmult_1_l. split; [exact Hinv|nra].
Qed.

(** X7. With nonnegative rates and probabilities [qu + qd = 1], every cell
    of the zero-coupon lattice lies between 0 and the face value: a discount
    factor never exceeds 1. *)
Theorem zcb_price_bounds (face_value : R) (t : nat) (r u d qu qd : R) :
  (1 <= t)%nat -> 0 <= face_value ->
  0 <= r -> 0 <= u -> 0 <= d ->
  0 <= qu -> 0 <= qd -> qu + qd = 1 ->
  forall i j, (i <= j <= t)%nat ->
              0 <= get (Binomial.zcb_price face_value t r u d qu qd) i j <= face_value.
Proof.
  intros Ht Hfv Hr Hu Hd Hqu Hqd Hq i j Hij.
  destruct (zcb_price_spec face_value t r u d qu qd) as [Hterm Hstep].
  apply (column_induction
           (fun i j => 0 <= get (Binomial.zcb_price face_value t r u d qu qd) i j
                       <= face_value) t); try lia.
  - intros i' Hi'. rewrite Hterm by lia. lra.
  - intros j' Hj' IH i' Hi'. rewrite (Hstep i' j') by lia.
    pose proof (IH i' ltac:(lia)) as Ha. pose proof (IH (i' + 1)%nat ltac:(lia)) as Hb.
    pose proof (discount_bounds _ (rates_tree_nonneg r u d (t - 1) i' j' Hr Hu Hd)) as Hdisc.
    set (dsc := 1 / (1 + get (Binomial.rates_tree r u d (t - 1)) i' j')) in *.
    set (a := get (Binomial.zcb_price face_value t r u d qu qd) i' (j' + 1)) in *.
    set (b := get (Binomial.zcb_price face_value t r u d qu qd) (i' + 1) (j' + 1)) in *.
    assert (Hmix : 0 <= qu * a + qd * b <= face_value) by nra.
    split; nra.
Qed.

Lemma option_lattice_spec term t rt qu qd :
  (1 <= t)%nat ->
  let L := option_lattice term t rt qu qd in
  (forall i, (i <= t - 1)%nat -> get L i (t - 1) = term i)
  /\ (forall i j, (j < t - 1)%nat -> (i <= j)%nat ->
        get L i j = (1 / (1 + get rt i j))
                    * (qu * get L i (j + 1) + qd * get L (i + 1) (j + 1))).
Proof.
  intros Ht L. unfold L, option_lattice.
  assert (HS0 : shape (set_col_slice (zeros t t) (t - 1) 0 t term) t t)
    by apply shape_set_col_slice, shape_zeros.
  destruct (backward_spec (disc_step rt qu qd) t t (disc_step_local _ _ _)
              (t - 1) 0 _ HS0 ltac:(lia)) as (_ & Hout & Hin).
  split.
  - intros i Hi. rewrite Hout by lia.
    rewrite (get_set_col_slice_shape _ t t) by apply shape_zeros. nat_bools.
  - intros i j Hj Hi. apply (Hin i j); lia.
Qed.

Lemma option_lattice_nonneg term t r u d qu qd :
  (1 <= t)%nat -> 0 <= r -> 0 <= u -> 0 <= d -> 0 <= qu -> 0 <= qd ->
  (forall i, (i <= t - 1)%nat -> 0 <= term i) ->
  forall i j, (i <= j <= t - 1)%nat ->
              0 <= get (option_lattice term t (Binomial.rates_tree r u d (t - 1)) qu qd) i j.
Proof.
  intros Ht Hr Hu Hd Hqu Hqd Hterm i j Hij.
  destruct (option_lattice_spec term t (Binomial.rates_tree r u d (t - 1)) qu qd Ht)
    as [Hlast Hstep].
  apply (column_induction
           (fun i j => 0 <= get (option_lattice term t (Binomial.rates_tree r u d (t - 1))
                                   qu qd) i j) (t - 1)); try lia.
  - intros i' Hi'. rewrite Hlast by lia. now apply Hterm.
  - intros j' Hj' IH i' Hi'. rewrite (Hstep i' j') by lia.
    pose proof (IH i' ltac:(lia)) as Ha. pose proof (IH (i' + 1)%nat ltac:(lia)) as Hb.
    pose proof (discount_bounds _ (rates_tree_nonneg r u d (t - 1) i' j' Hr Hu Hd)) as Hdisc.
    apply Rmult_le_pos; [lra|]. apply Rplus_le_le_0_compat; now apply Rmult_le_pos.
Qed.

Lemma caplet_price_lattice nv c t r u d qu qd :
  Binomial.caplet_price nv c t r u d qu qd
  = get (option_lattice
           (fun k => nv * Rmax (get (Binomial.rates_tree r u d (t - 1)) k (t - 1) - c * 1) 0
                     / (1 + get (Binomial.rates_tree r u d (t - 1)) k (t - 1)))
           t (Binomial.rates_tree r u d (t - 1)) qu qd) 0 0.
Proof. reflexivity. Qed.

Lemma floorlet_price_lattice nv c t r u d qu qd :
  Binomial.floorlet_price nv c t r u d qu qd
  = get (option_lattice
           (fun k => nv * Rmax (c * 1 - get (Binomial.rates_tree r u d (t - 1)) k (t - 1)) 0
                     / (1 + get (Binomial.rates_tree r u d (t - 1)) k (t - 1)))
           t (Binomial.rates_tree r u d (t - 1)) qu qd) 0 0.
Proof. reflexivity. Qed.

(** X8. A caplet and a floorlet on a nonnegative notional are never worth
    less than nothing: with nonnegative rates and nonnegative weights both
    prices are nonnegative. *)
Theorem caplet_floorlet_nonneg (notional_value c : R) (t : nat) (r u d qu qd : R) :
  (1 <= t)%nat -> 0 <= notional_value ->
  0 <= r -> 0 <= u -> 0 <= d -> 0 <= qu -> 0 <= qd ->
  0 <= Binomial.caplet_price notional_value c t r u d qu qd
  /\ 0 <= Binomial.floorlet_price notional_value c t r u d qu qd.
Proof.
  intros Ht Hnv Hr Hu Hd Hqu Hqd.
  rewrite caplet_price_lattice, floorlet_price_lattice.
  split; apply option_lattice_nonneg; auto; try lia; intros i Hi.
  - pose proof (discount_bounds _ (rates_tree_nonneg r u d (t - 1) i (t - 1) Hr Hu Hd)) as Hd1.
    unfold Rdiv in *. rewrite Rmult_1_l in Hd1.
    apply Rmult_le_pos; [|lra]. apply Rmult_le_pos; [assumption|apply Rmax_r].
  - pose proof (discount_bounds _ (rates_tree_nonneg r u d (t - 1) i (t - 1) Hr Hu Hd)) as Hd1.
    unfold Rdiv in *. rewrite Rmult_1_l in Hd1.
    apply Rmult_le_pos; [|lra]. apply Rmult_le_pos; [assumption|apply Rmax_r].
Qed.

Lemma swap_step_local rt c qu qd : reads_next_col (swap_step rt c qu qd).
Proof. intros L1 L2 j H k. unfold swap_step. now rewrite !H. Qed.

(** The swap lattice once the columns [lo .. t-1] are filled. *)
Lemma swap_lattice_to_spec lo c t r u d qu qd :
  (1 <= t)%nat ->
  let S := Binomial.swap_lattice_to lo c t r u d qu qd in
  let rt := Binomial.rates_tree r u d (t - 1) in
  (forall i, (i <= t - 1)%nat ->
             get S i (t - 1) = (get rt i (t - 1) - c * 1) / (1 + get rt i (t - 1)))
  /\ (forall i j, (lo <= j < t - 1)%nat -> (i <= j)%nat ->
        get S i j = (1 / (1 + get rt i j))
                    * ((get rt i j - c * 1)
                       + qu * get S i (j + 1) + qd * get S (i + 1) (j + 1))).
Proof.
  intros Ht S rt. unfold S, Binomial.swap_lattice_to. fold rt.
  set (L0 := set_col_slice (zeros t t) (t - 1) 0 t
               (fun k => (get rt k (t - 1) - c * 1) / (1 + get rt k (t - 1)))).
  assert (HS0 : shape L0 t t) by apply shape_set_col_slice, shape_zeros.
  destruct (backward_spec (swap_step rt c qu qd) t t (swap_step_local _ _ _ _)
              (t - 1) lo L0 HS0 ltac:(lia)) as (_ & Hout & Hin).
  split.
  - intros i Hi. etransitivity; [apply Hout; lia|].
    unfold L0. rewrite (get_set_col_slice_shape _ t t) by apply shape_zeros. nat_bools.
  - intros i j Hj Hi. apply (Hin i j); lia.
Qed.

(** X9. A swaption on a nonnegative notional is never worth less than
    nothing: the exercise floor at the option date makes column [ot]
    nonnegative and discounting keeps it so. *)
Theorem swaption_price_nonneg (notional_value : R) (ot : nat) (c : R) (t : nat)
        (r u d qu qd : R) :
  (ot < t)%nat -> 0 <= notional_value ->
  0 <= r -> 0 <= u -> 0 <= d -> 0 <= qu -> 0 <= qd ->
  0 <= Binomial.swaption_price notional_value ot c t r u d qu qd.
Proof.
  intros Hot Hnv Hr Hu Hd Hqu Hqd. unfold Binomial.swaption_price.
  apply Rmult_le_pos; [assumption|].
  set (rt := Binomial.rates_tree r u d (t - 1)).
  set (S := Binomial.swap_lattice_to ot c t r u d qu qd).
  set (L1 := set_col_slice S ot 0 (ot + 1) (fun k => Rmax (get S k ot) 0)).
  assert (HS1 : shape L1 t t) by apply shape_set_col_slice, swap_lattice_to_shape.
  destruct (backward_spec (disc_step rt qu qd) t t (disc_step_local _ _ _)
              ot 0 L1 HS1 ltac:(lia)) as (_ & Hout & Hin).
  change (0 <= get (fold_left (col_step (disc_step rt qu qd)) (down_from ot 0) L1) 0 0).
  set (L2 := fold_left (col_step (disc_step rt qu qd)) (down_from ot 0) L1) in *.
  apply (column_induction (fun i j => 0 <= get L2 i j) ot); try lia.
  - intros i Hi. rewrite Hout by lia. unfold L1.
    rewrite (get_set_col_slice_shape _ t t) by apply swap_lattice_to_shape.
    nat_bools. apply Rmax_r.
  - intros j Hj IH i Hi. rewrite (Hin i j) by lia. unfold disc_step.
    pose proof (IH i ltac:(lia)) as Ha. pose proof (IH (i + 1)%nat ltac:(lia)) as Hb.
    pose proof (discount_bounds _ (rates_tree_nonneg r u d (t - 1) i j Hr Hu Hd)) as Hdisc.
    fold rt in Hdisc.
    apply Rmult_le_pos; [lra|]. apply Rplus_le_le_0_compat; now apply Rmult_le_pos.
Qed.

(** * Parity and par rate *)

Lemma positive_parts_difference x c : Rmax (x - c * 1) 0 - Rmax (c * 1 - x) 0 = x - c.
Proof. unfold Rmax. repeat destruct (Rle_dec _ _); lra. Qed.

(** X10. Cap-floor parity.  For [t >= 2], nonnegative rates and
    [qu + qd = 1], a caplet less a floorlet with the same strike and expiry
    is worth [notional * (ZCB(t-1) - (1 + c) * ZCB(t))], where [ZCB(k)] is the
    root of [zcb_price(1, k, ...)]. *)
Theorem cap_floor_parity (notional_value c : R) (t : nat) (r u d qu qd : R) :
  (2 <= t)%nat -> 0 <= r -> 0 <= u -> 0 <= d -> qu + qd = 1 ->
  Binomial.caplet_price notional_value c t r u d qu qd
  - Binomial.floorlet_price notional_value c t r u d qu qd
  = notional_value
    * (get (Binomial.zcb_price 1 (t - 1) r u d qu qd) 0 0
       - (1 + c) * get (Binomial.zcb_price 1 t r u d qu qd) 0 0).
Proof.
  intros Ht Hr Hu Hd Hq.
  rewrite caplet_price_lattice, floorlet_price_lattice.
  set (rt := Binomial.rates_tree r u d (t - 1)).
  set (C := option_lattice _ t rt qu qd).
  set (F := option_lattice _ t rt qu qd).
  destruct (option_lattice_spec
              (fun k => notional_value * Rmax (get rt k (t - 1) - c * 1) 0
                        / (1 + get rt k (t - 1))) t rt qu qd ltac:(lia)) as [HCl HCs].
  destruct (option_lattice_spec
              (fun k => notional_value * Rmax (c * 1 - get rt k (t - 1)) 0
                        / (1 + get rt k (t - 1))) t rt qu qd ltac:(lia)) as [HFl HFs].
  fold C in HCl, HCs. fold F in HFl, HFs.
  destruct (zcb_price_spec 1 (t - 1) r u d qu qd) as [HZ0l HZ0s].
  destruct (zcb_price_spec 1 t r u d qu qd) as [HZ1l HZ1s]. fold rt in HZ1s.
  set (Z0 := Binomial.zcb_price 1 (t - 1) r u d qu qd) in *.
  set (Z1 := Binomial.zcb_price 1 t r u d qu qd) in *.
  apply (column_induction
           (fun i j => get C i j - get F i j
                       = notional_value * (get Z0 i j - (1 + c) * get Z1 i j)) (t - 1));
    try lia.
  - intros i Hi. rewrite HCl, HFl, HZ0l by lia. rewrite (HZ1s i (t - 1)%nat) by lia.
    replace (t - 1 + 1)%nat with t by lia. rewrite !HZ1l by lia.
    pose proof (rates_tree_nonneg r u d (t - 1) i (t - 1) Hr Hu Hd) as Hx. fold rt in Hx.
    pose proof (positive_parts_difference (get rt i (t - 1)) c) as Hpp.
    set (x := get rt i (t - 1)) in *.
    set (mc := Rmax (x - c * 1) 0) in *. set (mf := Rmax (c * 1 - x) 0) in *.
    replace (qu * 1 + qd * 1) with 1 by lra.
    replace mc with (mf + (x - c)) by lra. field. lra.
  - intros j Hj IH i Hi.
    rewrite (HCs i j), (HFs i j), (HZ0s i j), (HZ1s i j) by lia.
    rewrite (rates_tree_horizon r u d (t - 1 - 1) (t - 1) i j) by lia. fold rt.
    pose proof (IH i ltac:(lia)) as Ha. pose proof (IH (i + 1)%nat ltac:(lia)) as Hb.
    set (dsc := 1 / (1 + get rt i j)).
    transitivity (dsc * (qu * (get C i (j + 1) - get F i (j + 1))
                         + qd * (get C (i + 1) (j + 1) - get F (i + 1) (j + 1)))); [ring|].
    rewrite Ha, Hb. ring.
Qed.

(** The swap lattice is affine in the strike, cell by cell. *)
Lemma swap_lattice_affine c t r u d qu qd :
  (1 <= t)%nat ->
  forall i j, (i <= j <= t - 1)%nat ->
    get (Binomial.swap_lattice_to 0 c t r u d qu qd) i j
    = get (Binomial.swap_lattice_to 0 0 t r u d qu qd) i j
      - c * (get (Binomial.swap_lattice_to 0 0 t r u d qu qd) i j
             - get (Binomial.swap_lattice_to 0 1 t r u d qu qd) i j).
Proof.
  intros Ht i j Hij.
  destruct (swap_lattice_to_spec 0 c t r u d qu qd Ht) as [Hcl Hcs].
  destruct (swap_lattice_to_spec 0 0 t r u d qu qd Ht) as [H0l H0s].
  destruct (swap_lattice_to_spec 0 1 t r u d qu qd Ht) as [H1l H1s].
  set (Sc := Binomial.swap_lattice_to 0 c t r u d qu qd) in *.
  set (S0 := Binomial.swap_lattice_to 0 0 t r u d qu qd) in *.
  set (S1 := Binomial.swap_lattice_to 0 1 t r u d qu qd) in *.
  apply (column_induction
           (fun i j => get Sc i j = get S0 i j - c * (get S0 i j - get S1 i j)) (t - 1));
    try lia.
  - intros i' Hi'. rewrite Hcl, H0l, H1l by lia. unfold Rdiv. ring.
  - intros j' Hj' IH i' Hi'.
    rewrite (Hcs i' j'), (H0s i' j'), (H1s i' j') by lia.
    rewrite (IH i' ltac:(lia)), (IH (i' + 1)%nat ltac:(lia)). ring.
Qed.

(** The fixed leg of the swap, per unit of strike, is worth something. *)
Lemma swap_annuity_pos t r u d qu qd :
  (1 <= t)%nat -> 0 <= r -> 0 <= u -> 0 <= d -> 0 <= qu -> 0 <= qd ->
  forall i j, (i <= j <= t - 1)%nat ->
    0 < get (Binomial.swap_lattice_to 0 0 t r u d qu qd) i j
        - get (Binomial.swap_lattice_to 0 1 t r u d qu qd) i j.
Proof.
  intros Ht Hr Hu Hd Hqu Hqd i j Hij.
  destruct (swap_lattice_to_spec 0 0 t r u d qu qd Ht) as [H0l H0s].
  destruct (swap_lattice_to_spec 0 1 t r u d qu qd Ht) as [H1l H1s].
  set (S0 := Binomial.swap_lattice_to 0 0 t r u d qu qd) in *.
  set (S1 := Binomial.swap_lattice_to 0 1 t r u d qu qd) in *.
  apply (column_induction (fun i j => 0 < get S0 i j - get S1 i j) (t - 1)); try lia.
  - intros i' Hi'. rewrite H0l, H1l by lia.
    pose proof (discount_bounds _ (rates_tree_nonneg r u d (t - 1) i' (t - 1) Hr Hu Hd)) as Hx.
    unfold Rdiv in *. rewrite Rmult_1_l in Hx.
    set (x := get (Binomial.rates_tree r u d (t - 1)) i' (t - 1)) in *.
    replace ((x - 0 * 1) * / (1 + x) - (x - 1 * 1) * / (1 + x)) with (/ (1 + x)) by ring.
    lra.
  - intros j' Hj' IH i' Hi'.
    rewrite (H0s i' j'), (H1s i' j') by lia.
    pose proof (IH i' ltac:(lia)) as Ha. pose proof (IH (i' + 1)%nat ltac:(lia)) as Hb.
    pose proof (discount_bounds _ (rates_tree_nonneg r u d (t - 1) i' j' Hr Hu Hd)) as Hx.
    set (dsc := 1 / (1 + get (Binomial.rates_tree r u d (t - 1)) i' j')) in *.
    set (x := get (Binomial.rates_tree r u d (t - 1)) i' j') in *.
    match goal with
    | |- 0 < ?lhs =>
        replace lhs with
          (dsc * (1 + qu * (get S0 i' (j' + 1) - get S1 i' (j' + 1))
                  + qd * (get S0 (i' + 1) (j' + 1) - get S1 (i' + 1) (j' + 1)))) by ring
    end.
    apply Rmult_lt_0_compat; [lra|]. nra.
Qed.

(** X11. [swap_price] is affine in the strike: for [t >= 1] its value at
    strike [c] is its value at strike 0 less [c] times the drop in value
    from strike 0 to strike 1. *)
Theorem swap_price_affine_in_strike (notional_value c : R) (t : nat) (r u d qu qd : R) :
  (1 <= t)%nat ->
  Binomial.swap_price notional_value c t r u d qu qd
  = Binomial.swap_price notional_value 0 t r u d qu qd
    - c * (Binomial.swap_price notional_value 0 t r u d qu qd
           - Binomial.swap_price notional_value 1 t r u d qu qd).
Proof.
  intros Ht. unfold Binomial.swap_price.
  rewrite (swap_lattice_affine c t r u d qu qd Ht 0%nat 0%nat) by lia. ring.
Qed.

(** X12. With nonnegative rates and weights there is a par rate: a strike at
    which the swap is worth nothing, and for a notional other than zero it is
    the only one. *)
Theorem swap_par_rate_exists (notional_value : R) (t : nat) (r u d qu qd : R) :
  (1 <= t)%nat -> 0 <= r -> 0 <= u -> 0 <= d -> 0 <= qu -> 0 <= qd ->
  exists c, Binomial.swap_price notional_value c t r u d qu qd = 0
            /\ (notional_value <> 0 ->
                forall c', Binomial.swap_price notional_value c' t r u d qu qd = 0 -> c' = c).
Proof.
  intros Ht Hr Hu Hd Hqu Hqd.
  pose proof (swap_annuity_pos t r u d qu qd Ht Hr Hu Hd Hqu Hqd 0%nat 0%nat ltac:(lia)) as HA.
  set (s0 := get (Binomial.swap_lattice_to 0 0 t r u d qu qd) 0 0) in *.
  set (s1 := get (Binomial.swap_lattice_to 0 1 t r u d qu qd) 0 0) in *.
  assert (Hform : forall c, Binomial.swap_price notional_value c t r u d qu qd
                            = notional_value * (s0 - c * (s0 - s1))).
  { intros c. unfold Binomial.swap_price.
    now rewrite (swap_lattice_affine c t r u d qu qd Ht 0%nat 0%nat) by lia. }
  exists (s0 / (s0 - s1)). split.
  - rewrite Hform. replace (s0 - s0 / (s0 - s1) * (s0 - s1)) with 0 by (field; lra). ring.
  - intros Hnv c' Hc'. rewrite Hform in Hc'.
    apply Rmult_integral in Hc'. destruct Hc' as [Hc'|Hc']; [contradiction|].
    apply (Rmult_eq_reg_r (s0 - s1)); [|lra].
    replace (s0 / (s0 - s1) * (s0 - s1)) with s0 by (field; lra). lra.
Qed.

(** * The coupon bond *)

Lemma cb_lattice_spec fv t c r u d qu qd :
  let L := Binomial.cb_lattice fv t c r u d qu qd in
  let rt := Binomial.rates_tree r u d (t - 1) in
  (forall i, (i <= t)%nat -> get L i t = (1 + c) * fv)
  /\ (forall i j, (j < t)%nat -> (i <= j)%nat ->
        get L i j = fv * c
                    + (1 / (1 + get rt i j))
                      * (qu * get L i (j + 1) + qd * get L (i + 1) (j + 1))).
Proof.
  intros L rt. unfold L, Binomial.cb_lattice. fold rt.
  set (L0 := set_col_slice (zeros (t + 1) (t + 1)) t 0 (t + 1) (fun _ => (1 + c) * fv)).
  assert (HS0 : shape L0 (t + 1) (t + 1)) by apply shape_set_col_slice, shape_zeros.
  destruct (backward_spec (coupon_step rt fv c qu qd) (t + 1) (t + 1)
              (coupon_step_local _ _ _ _ _) t 0 L0 HS0 ltac:(lia)) as (_ & Hout & Hin).
  split.
  - intros i Hi. etransitivity; [apply Hout; lia|].
    unfold L0. rewrite (get_set_col_slice_shape _ (t + 1) (t + 1)) by apply shape_zeros.
    nat_bools.
  - intros i j Hj Hi. apply (Hin i j); lia.
Qed.

(** X13. [cb_price] adds the coupon in every column from [t-1] down to the
    root, so a [t]-period bond carries [t + 1] coupons, one of them at the
    valuation date: with all rates zero ([r = 0]) and [qu + qd = 1] the price
    is [face_value * (1 + (t + 1) * c)]. *)
Theorem cb_price_at_zero_rates (face_value : R) (t : nat) (c u d qu qd : R) :
  (1 <= t)%nat -> qu + qd = 1 ->
  Binomial.cb_price face_value t c 0 u d qu qd = face_value * (1 + (INR t + 1) * c).
Proof.
  intros Ht Hq. unfold Binomial.cb_price.
  destruct (cb_lattice_spec face_value t c 0 u d qu qd) as [Hl Hs].
  set (L := Binomial.cb_lattice face_value t c 0 u d qu qd) in *.
  assert (H : forall j, (j <= t)%nat -> forall i, (i <= j)%nat ->
                get L i j = face_value * (1 + (INR (t - j) + 1) * c)).
  { apply (column_induction
             (fun i j => get L i j = face_value * (1 + (INR (t - j) + 1) * c)) t).
    - intros i Hi. rewrite Hl by lia. rewrite Nat.sub_diag. simpl. ring.
    - intros j Hj IH i Hi. rewrite (Hs i j) by lia.
      rewrite (IH i ltac:(lia)), (IH (i + 1)%nat ltac:(lia)).
      rewrite rates_tree_cell. replace (t - j)%nat with (S (t - (j + 1))) by lia.
      rewrite S_INR.
      replace (if (i <=? j)%nat && (j <=? t - 1)%nat
               then 0 * u ^ (j - i) * d ^ i else 0) with 0
        by (destruct (_ && _); ring).
      replace (qu * (face_value * (1 + (INR (t - (j + 1)) + 1) * c))
               + qd * (face_value * (1 + (INR (t - (j + 1)) + 1) * c)))
        with ((qu + qd) * (face_value * (1 + (INR (t - (j + 1)) + 1) * c))) by ring.
      rewrite Hq. field. }
  rewrite (H 0%nat ltac:(lia) 0%nat ltac:(lia)). now rewrite Nat.sub_0_r.
Qed.

(** X14. [cb_price] is affine in the coupon rate: the price at coupon [c]
    is the zero-coupon price plus [c] times the gain from coupon 0 to
    coupon 1. *)
Theorem cb_price_affine_in_coupon (face_value : R) (t : nat) (c r u d qu qd : R) :
  (1 <= t)%nat ->
  Binomial.cb_price face_value t c r u d qu qd
  = get (Binomial.zcb_price face_value t r u d qu qd) 0 0
    + c * (Binomial.cb_price face_value t 1 r u d qu qd
           - get (Binomial.zcb_price face_value t r u d qu qd) 0 0).
Proof.
  intros Ht. unfold Binomial.cb_price.
  destruct (cb_lattice_spec face_value t c r u d qu qd) as [Hcl Hcs].
  destruct (cb_lattice_spec face_value t 1 r u d qu qd) as [H1l H1s].
  destruct (zcb_price_spec face_value t r u d qu qd) as [HZl HZs].
  set (Lc := Binomial.cb_lattice face_value t c r u d qu qd) in *.
  set (L1 := Binomial.cb_lattice face_value t 1 r u d qu qd) in *.
  set (Z := Binomial.zcb_price face_value t r u d qu qd) in *.
  apply (column_induction
           (fun i j => get Lc i j = get Z i j + c * (get L1 i j - get Z i j)) t); try lia.
  - intros i Hi. rewrite Hcl, H1l, HZl by lia. ring.
  - intros j Hj IH i Hi.
    rewrite (Hcs i j), (H1s i j), (HZs i j) by lia.
    rewrite (IH i ltac:(lia)), (IH (i + 1)%nat ltac:(lia)). ring.
Qed.

(** X15. For [0 < ft < t], [cb_forward_price] returns an array of shape
    [(ft+1, ft+1)]: its cell [(0,0)] is the root of the bond lattice divided
    by the root of the [ft]-period zero-coupon lattice, and every cell
    [(i, ft)] of its last column is the root of the bond lattice itself,
    divided by the face value 1. *)
Theorem cb_forward_price_cells (face_value : R) (ft t : nat) (c r u d qu qd : R) :
  (0 < ft < t)%nat ->
  let out := Binomial.cb_forward_price face_value ft t c r u d qu qd in
  let root := get (Binomial.cb_forward_lattice face_value ft t c r u d qu qd) 0 0 in
  shape out (ft + 1) (ft + 1)
  /\ get out 0 0 = root / get (Binomial.zcb_price 1 ft r u d qu qd) 0 0
  /\ forall i, (i <= ft)%nat -> get out i ft = root.
Proof.
  intros Hft out root.
  destruct (cb_forward_price_array face_value ft t c r u d qu qd) as [HS Hcell].
  destruct (zcb_price_spec 1 ft r u d qu qd) as [Hterm _].
  split; [exact HS|]. split.
  - apply Hcell; lia.
  - intros i Hi. unfold out. rewrite Hcell by lia. rewrite Hterm by lia.
    unfold root. field.
Qed.

(** * The BDT curve functions *)

Lemma bdt_rates_tree_short a b t :
  (length a < t + 1)%nat -> BDT.rates_tree a b t = None.
Proof.
  intros Ha. unfold BDT.rates_tree, up_to. rewrite Nat.sub_0_r.
  match goal with
  | |- option_map _ (fold_left ?f _ ?init) = None =>
      assert (H : forall k, (length a < k)%nat -> fold_left f (seq 0 k) init = None)
  end.
  { induction k as [|k IH]; intros Hk; [lia|].
    rewrite seq_S, fold_left_app. simpl.
    destruct (Nat.eq_dec k (length a)) as [->|Hne].
    - destruct (bdt_rates_tree_cols a b t (length a) (Nat.le_refl _)) as (rt & Hrt & _).
      rewrite Hrt. replace (nth_error a (length a)) with (@None R); [reflexivity|].
      symmetry. now apply nth_error_None.
    - now rewrite IH by lia. }
  now rewrite H.
Qed.

Lemma skipn_map_seq {A} (f : nat -> A) t :
  skipn 1 (map f (seq 0 (t + 1))) = map f (seq 1 t).
Proof. replace (t + 1)%nat with (S t) by lia. reflexivity. Qed.

Lemma combine_map_l {A B} (f : A -> B) l :
  combine (map f l) l = map (fun x => (f x, x)) l.
Proof. induction l; simpl; f_equal; auto. Qed.

Lemma root_pos x n : 0 < x -> BDT.root x n = Rpower x (1 / INR n).
Proof. intros Hx. unfold BDT.root. destruct (Rlt_dec 0 x); [reflexivity|contradiction]. Qed.

Lemma root_neg_1 x : x < 0 -> BDT.root x 1 = x.
Proof.
  intros Hx. unfold BDT.root.
  destruct (Rlt_dec 0 x); [lra|]. destruct (Req_dec_T x 0); [lra|]. reflexivity.
Qed.

Lemma root_zero n : BDT.root 0 n = 0.
Proof.
  unfold BDT.root. destruct (Rlt_dec 0 0); [lra|]. destruct (Req_dec_T 0 0); [reflexivity|lra].
Qed.

(** The two curve functions in closed form, when the lattice is built. *)
Lemma bdt_curves_form a b t qu :
  (1 <= t <= length a)%nat ->
  exists rt,
    BDT.rates_tree a b (t - 1) = Some rt
    /\ (forall i j, get rt i j =
                    if (i <=? j)%nat && (j <=? t - 1)%nat
                    then nth j a 0 * exp (b * (INR j - INR i)) / 100 else 0)
    /\ BDT.ZCB_prices a b t qu
       = Some (map (col_sum (Binomial.ept_of_rates rt t qu (1 - qu))) (seq 1 t))
    /\ BDT.BDT_spot_rates a b t qu
       = Some (map (fun n => BDT.root (1 / col_sum (Binomial.ept_of_rates rt t qu (1 - qu)) n) n
                             - 1) (seq 1 t)).
Proof.
  intros Ht.
  destruct (bdt_rates_tree_entries a b (t - 1) ltac:(lia)) as (rt & Hrt & _ & Hget).
  exists rt. split; [exact Hrt|]. split; [exact Hget|].
  assert (HZ : BDT.ZCB_prices a b t qu
               = Some (map (col_sum (Binomial.ept_of_rates rt t qu (1 - qu))) (seq 1 t))).
  { unfold BDT.ZCB_prices, BDT.elementary_price_tree. rewrite Hrt.
    unfold up_to. rewrite Nat.sub_0_r. now rewrite skipn_map_seq. }
  split; [exact HZ|].
  unfold BDT.BDT_spot_rates. rewrite HZ. unfold up_to.
  replace (t + 1 - 1)%nat with t by lia.
  rewrite combine_map_l, map_map. reflexivity.
Qed.

(** A negative parameter is followed too: [BDT_spot_rates([-200], 0, 1, 0.5)]
    is [[-2.]], the bond price being -1 and the exponent 1. *)
Lemma bdt_spot_rate_negative_parameter :
  BDT.BDT_spot_rates [-200] 0 1 (1 / 2) = Some [-2].
Proof.
  destruct (bdt_curves_form [-200] 0 1 (1 / 2) ltac:(simpl; lia)) as (rt & _ & Hget & _ & HS).
  rewrite HS. cbn [seq map].
  rewrite col_sum_ept by lia.
  unfold sum_to, vsum. cbn [seq map fold_right Nat.add ept_val Nat.eqb Nat.ltb Nat.leb Nat.sub].
  rewrite Hget. cbn [Nat.leb Nat.sub andb nth].
  replace (1 / _) with (-1).
  - rewrite root_neg_1 by lra. do 2 f_equal. lra.
  - rewrite Rmult_0_l, exp_0. field.
Qed.

(** X16. For [t >= 1], [ZCB_prices] and [BDT_spot_rates] stop with an index
    error exactly when the parameter vector has fewer than [t] entries, and
    otherwise return one value per maturity [1 .. t]. *)
Theorem bdt_curves_length (a : list R) (b : R) (t : nat) (qu : R) :
  (1 <= t)%nat ->
  ((length a < t)%nat ->
   BDT.ZCB_prices a b t qu = None /\ BDT.BDT_spot_rates a b t qu = None)
  /\ ((t <= length a)%nat ->
      exists zcb sr, BDT.ZCB_prices a b t qu = Some zcb
                     /\ BDT.BDT_spot_rates a b t qu = Some sr
                     /\ length zcb = t /\ length sr = t).
Proof.
  intros Ht. split.
  - intros Ha.
    assert (HZ : BDT.ZCB_prices a b t qu = None).
    { unfold BDT.ZCB_prices, BDT.elementary_price_tree.
      now rewrite bdt_rates_tree_short by lia. }
    split; [exact HZ|]. unfold BDT.BDT_spot_rates. now rewrite HZ.
  - intros Ha.
    destruct (bdt_curves_form a b t qu ltac:(lia)) as (rt & _ & _ & HZ & HS).
    eexists. eexists. split; [exact HZ|]. split; [exact HS|].
    now rewrite !length_map, length_seq.
Qed.

Lemma col_sum_ept_1 rt t qu qd :
  (1 <= t)%nat ->
  col_sum (Binomial.ept_of_rates rt t qu qd) 1
  = qu * (1 / (1 + get rt 0 0)) + qd * (1 / (1 + get rt 0 0)).
Proof.
  intros Ht. rewrite col_sum_ept by lia. unfold sum_to. simpl. unfold Rdiv. ring.
Qed.

(** X17. The one-year spot rate of the BDT model is the root short rate:
    whatever [qu] and [b] are, the first entry of [BDT_spot_rates] is
    [a[0] / 100] (for [a[0] > -100], so that the discount factor is
    positive). *)
Theorem bdt_first_spot_rate (a : list R) (b : R) (t : nat) (qu : R) :
  (1 <= t <= length a)%nat -> -100 < nth 0 a 0 ->
  exists sr, BDT.BDT_spot_rates a b t qu = Some sr /\ nth 0 sr 0 = nth 0 a 0 / 100.
Proof.
  intros Ht Ha0.
  destruct (bdt_curves_form a b t qu Ht) as (rt & _ & Hget & _ & HS).
  eexists. split; [exact HS|].
  destruct t as [|t]; [lia|]. cbn [seq map nth].
  rewrite col_sum_ept_1 by lia. rewrite Hget. cbn [Nat.leb andb].
  rewrite Rminus_diag, Rmult_0_r, exp_0.
  set (a0 := nth 0 a 0) in *.
  replace (1 / (qu * (1 / (1 + a0 * 1 / 100)) + (1 - qu) * (1 / (1 + a0 * 1 / 100))))
    with (1 + a0 / 100) by (field; lra).
  rewrite root_pos by lra.
  replace (1 / INR 1) with 1 by (simpl; field).
  rewrite Rpower_1 by lra. ring.
Qed.

Lemma Rpower_gt_1 x y : 1 < x -> 0 < y -> 1 < Rpower x y.
Proof.
  intros Hx Hy. unfold Rpower. rewrite <- exp_0. apply exp_increasing.
  apply Rmult_lt_0_compat; [assumption|]. rewrite <- ln_1. apply ln_increasing; lra.
Qed.

(** X18. With [qu = 1/2] and positive parameters, every spot rate that
    [BDT_spot_rates] returns is positive. *)
Theorem bdt_spot_rates_positive (a : list R) (b : R) (t : nat) :
  (1 <= t <= length a)%nat ->
  (forall x, In x a -> 0 < x) ->
  exists sr, BDT.BDT_spot_rates a b t (1 / 2) = Some sr
             /\ length sr = t /\ Forall (fun s => 0 < s) sr.
Proof.
  intros Ht Ha.
  destruct (bdt_curves_form a b t (1 / 2) Ht) as (rt & _ & Hget & _ & HS).
  eexists. split; [exact HS|]. split; [now rewrite length_map, length_seq|].
  replace (1 - 1 / 2) with (1 / 2) by lra.
  assert (Hrt : forall i j, (i <= j < t)%nat -> 0 < get rt i j).
  { intros i j Hij. rewrite Hget.
    replace (i <=? j)%nat with true by (symmetry; apply Nat.leb_le; lia).
    replace (j <=? t - 1)%nat with true by (symmetry; apply Nat.leb_le; lia).
    cbn [andb]. apply Rdiv_lt_0_compat; [|lra].
    apply Rmult_lt_0_compat; [|apply exp_pos]. apply Ha, nth_In. lia. }
  destruct (ept_column_sums_decrease_at_half rt t Hrt) as (_ & Hdec & Hrange).
  apply Forall_forall. intros s Hs. apply in_map_iff in Hs.
  destruct Hs as (n & <- & Hn). apply in_seq in Hn.
  destruct n as [|n]; [lia|].
  pose proof (Hdec n ltac:(lia)) as H1. pose proof (Hrange n ltac:(lia)) as H2.
  set (z := col_sum (Binomial.ept_of_rates rt t (1 / 2) (1 / 2)) (S n)) in *.
  assert (Hz : 1 < 1 / z).
  { apply (Rmult_lt_reg_r z); [lra|]. replace (1 / z * z) with 1 by (field; lra). lra. }
  assert (Hn0 : 0 < 1 / INR (S n)).
  { apply Rdiv_lt_0_compat; [lra|]. apply lt_0_INR. lia. }
  rewrite root_pos by lra.
  pose proof (Rpower_gt_1 _ _ Hz Hn0). lra.
Qed.

(** * The calibration objective *)

Lemma sum_squares_nonneg (l : list (R * R)) :
  0 <= vsum (map (fun '(m, s) => (100 * (m - s)) ^ 2) l).
Proof.
  unfold vsum. induction l as [|[m s] l IH]; cbn [map fold_right]; [lra|].
  pose proof (pow2_ge_0 (100 * (m - s))) as H. lra.
Qed.

Lemma sum_squares_zero mr :
  forall sr, length mr = length sr ->
    (vsum (map (fun '(m, s) => (100 * (m - s)) ^ 2) (combine mr sr)) = 0 <-> mr = sr).
Proof.
  induction mr as [|m mr IH]; intros [|s sr] Hlen; simpl in Hlen; try lia.
  - simpl. tauto.
  - simpl combine. cbn [map vsum fold_right].
    pose proof (sum_squares_nonneg (combine mr sr)) as Hrest.
    pose proof (pow2_ge_0 (100 * (m - s))) as Hsq.
    specialize (IH sr ltac:(lia)). split.
    + intros H0.
      assert (Hm : (100 * (m - s)) ^ 2 = 0) by (unfold vsum in *; lra).
      assert (Hr : vsum (map (fun '(m, s) => (100 * (m - s)) ^ 2) (combine mr sr)) = 0)
        by (unfold vsum in *; lra).
      simpl in Hm. assert (m = s) by nra. subst. f_equal. now apply IH.
    + intros Heq. injection Heq as -> ->.
      apply proj2 in IH. specialize (IH eq_refl). unfold vsum in *. rewrite IH.
      simpl. ring.
Qed.

Lemma sum_to_ge_term n f k :
  (forall i, (i < n)%nat -> 0 <= f i) -> (k < n)%nat -> f k <= sum_to n f.
Proof.
  induction n as [|n IH]; intros Hf Hk; [lia|].
  rewrite sum_to_S. destruct (Nat.eq_dec k n) as [->|Hne].
  - assert (0 <= sum_to n f); [|lra].
    clear IH Hk. induction n as [|m IHm]; [rewrite sum_to_0; lra|].
    rewrite sum_to_S. specialize (IHm (fun i Hi => Hf i ltac:(lia))).
    specialize (Hf m ltac:(lia)). lra.
  - specialize (IH (fun i Hi => Hf i ltac:(lia)) ltac:(lia)).
    specialize (Hf n ltac:(lia)). lra.
Qed.

(** With positive rates and weights [qu], [qd >= 0], no state price is
    negative; the top row is positive when [qu > 0], the diagonal when
    [qd > 0]. *)
Lemma ept_val_nonneg rt t qu qd :
  (forall i j, (i <= j < t)%nat -> 0 < get rt i j) -> 0 <= qu -> 0 <= qd ->
  forall j, (j <= t)%nat ->
    (forall i, 0 <= ept_val rt qu qd j i)
    /\ (0 < qu -> 0 < ept_val rt qu qd j 0)
    /\ (0 < qd -> 0 < ept_val rt qu qd j j).
Proof.
  intros Hrt Hqu Hqd. induction j as [|j IH]; intros Hj.
  - split; [|split]; intros; simpl; try lra. destruct (i =? 0)%nat; lra.
  - destruct (IH ltac:(lia)) as (Hnn & Htop & Hdiag). clear IH.
    assert (Hdisc : forall i, (i <= j)%nat -> 0 < 1 / (1 + get rt i j)).
    { intros i Hi. apply Rdiv_lt_0_compat; [lra|]. specialize (Hrt i j ltac:(lia)). lra. }
    split; [|split].
    + intros i. cbn [ept_val].
      destruct (Nat.eqb_spec i 0) as [->|Hi0].
      * specialize (Hdisc 0%nat ltac:(lia)). specialize (Hnn 0%nat).
        unfold Rdiv in *. rewrite Rmult_1_l in Hdisc.
        apply Rmult_le_pos; [assumption|]. apply Rmult_le_pos; lra.
      * destruct (Nat.eqb_spec i (S j)) as [->|Hij].
        -- specialize (Hdisc j ltac:(lia)). specialize (Hnn j).
           unfold Rdiv in *. rewrite Rmult_1_l in Hdisc.
           apply Rmult_le_pos; [assumption|]. apply Rmult_le_pos; lra.
        -- destruct (Nat.ltb_spec i (S j)) as [Hlt|Hge]; [|lra].
           pose proof (Hdisc (i - 1)%nat ltac:(lia)) as H1.
           pose proof (Hdisc i ltac:(lia)) as H2.
           pose proof (Hnn (i - 1)%nat) as H3. pose proof (Hnn i) as H4.
           apply Rplus_le_le_0_compat; apply Rmult_le_pos; try assumption;
             apply Rmult_le_pos; lra.
    + intros Hq. cbn [ept_val Nat.eqb].
      specialize (Hdisc 0%nat ltac:(lia)). specialize (Htop Hq).
      unfold Rdiv in *. rewrite Rmult_1_l in Hdisc.
      apply Rmult_lt_0_compat; [assumption|]. apply Rmult_lt_0_compat; lra.
    + intros Hq. cbn [ept_val Nat.eqb]. rewrite Nat.eqb_refl.
      specialize (Hdisc j ltac:(lia)). specialize (Hdiag Hq).
      unfold Rdiv in *. rewrite Rmult_1_l in Hdisc.
      apply Rmult_lt_0_compat; [assumption|]. apply Rmult_lt_0_compat; lra.
Qed.

Lemma ept_column_sum_pos rt t qu :
  (forall i j, (i <= j < t)%nat -> 0 < get rt i j) -> 0 <= qu <= 1 ->
  forall j, (j <= t)%nat -> 0 < col_sum (Binomial.ept_of_rates rt t qu (1 - qu)) j.
Proof.
  intros Hrt Hqu j Hj. rewrite col_sum_ept by lia.
  destruct (ept_val_nonneg rt t qu (1 - qu) Hrt ltac:(lra) ltac:(lra) j Hj)
    as (Hnn & Htop & Hdiag).
  destruct (Rlt_dec 0 qu) as [Hpos|Hzero].
  - apply Rlt_le_trans with (ept_val rt qu (1 - qu) j 0); [now apply Htop|].
    apply sum_to_ge_term; [intros; apply Hnn|lia].
  - apply Rlt_le_trans with (ept_val rt qu (1 - qu) j j); [apply Hdiag; lra|].
    apply sum_to_ge_term; [intros; apply Hnn|lia].
Qed.

(** X19. For positive parameters [a], a weight [0 <= qu <= 1] and a market
    curve with one rate per maturity, every zero-coupon price of the model is
    positive (so every spot rate is a number), [objective] returns a
    nonnegative number, and that number is zero exactly when the market curve
    is the model's own spot curve. *)
Theorem objective_zero_iff_fit (a : list R) (b : R) (t : nat) (qu : R) (mr : list R) :
  (1 <= t <= length a)%nat -> length mr = t ->
  (forall x, In x a -> 0 < x) -> 0 <= qu <= 1 ->
  exists zcb sr v,
    BDT.ZCB_prices a b t qu = Some zcb /\ Forall (fun z => 0 < z) zcb
    /\ BDT.BDT_spot_rates a b t qu = Some sr
    /\ sr = map (fun '(z, n) => Rpower (1 / z) (1 / INR n) - 1) (combine zcb (seq 1 t))
    /\ BDT.objective a b t qu mr = Some v
    /\ 0 <= v /\ (v = 0 <-> mr = sr).
Proof.
  intros Ht Hmr Ha Hqu.
  destruct (bdt_curves_form a b t qu Ht) as (rt & _ & Hget & HZ & HS).
  assert (Hrt : forall i j, (i <= j < t)%nat -> 0 < get rt i j).
  { intros i j Hij. rewrite Hget.
    replace (i <=? j)%nat with true by (symmetry; apply Nat.leb_le; lia).
    replace (j <=? t - 1)%nat with true by (symmetry; apply Nat.leb_le; lia).
    cbn [andb]. apply Rdiv_lt_0_compat; [|lra].
    apply Rmult_lt_0_compat; [|apply exp_pos]. apply Ha, nth_In. lia. }
  set (E := Binomial.ept_of_rates rt t qu (1 - qu)) in *.
  set (sr := map (fun n => BDT.root (1 / col_sum E n) n - 1) (seq 1 t)) in *.
  assert (Hlen : length sr = t) by (unfold sr; now rewrite length_map, length_seq).
  assert (Hpos : forall n, In n (seq 1 t) -> 0 < col_sum E n).
  { intros n Hn. apply in_seq in Hn. apply (ept_column_sum_pos rt t qu Hrt Hqu). lia. }
  exists (map (col_sum E) (seq 1 t)), sr. eexists.
  split; [exact HZ|]. split.
  { apply Forall_forall. intros z Hz. apply in_map_iff in Hz.
    destruct Hz as (n & <- & Hn). now apply Hpos. }
  split; [exact HS|]. split.
  { unfold sr. rewrite combine_map_l, map_map. apply map_ext_in. intros n Hn.
    rewrite root_pos; [reflexivity|].
    apply Rdiv_lt_0_compat; [lra|now apply Hpos]. }
  unfold BDT.objective. rewrite HS.
  replace (length mr =? length sr)%nat with true by (symmetry; apply Nat.eqb_eq; lia).
  split; [reflexivity|]. split; [apply sum_squares_nonneg|].
  apply sum_squares_zero. lia.
Qed.

(** * The market curve: range, horizon and skipped years *)

Lemma interp_from_bounds latest m M y rest :
  forall x0, StronglySorted lt (x0 :: rest) -> (x0 <= y)%nat ->
             m <= latest x0 <= M -> (forall x, In x rest -> m <= latest x <= M) ->
             m <= BDT.interp_from y x0 (latest x0) (tenor_points latest rest) <= M.
Proof.
  induction rest as [|x1 rest IH]; intros x0 HS Hy H0 Hrest; simpl; [exact H0|].
  pose proof (sorted_tail _ _ HS) as HS1.
  assert (Hx01 : (x0 < x1)%nat) by (apply (sorted_head_lt x0 (x1 :: rest)); simpl; auto).
  pose proof (Hrest x1 (or_introl eq_refl)) as H1.
  destruct (Nat.ltb_spec y x1) as [Hlt|Hge].
  - assert (Ha : 0 <= INR y - INR x0) by (apply le_INR in Hy; lra).
    assert (Hb : INR y - INR x0 < INR x1 - INR x0) by (apply lt_INR in Hlt; lra).
    set (D := INR x1 - INR x0) in *. set (e := INR y - INR x0) in *.
    set (w := e / D).
    assert (HwD : w * D = e) by (unfold w; field; lra).
    assert (Hw : 0 <= w <= 1).
    { split.
      - apply Rmult_le_pos; [lra|]. apply Rlt_le, Rinv_0_lt_compat. lra.
      - apply (Rmult_le_reg_r D); [lra|]. lra. }
    replace ((latest x1 - latest x0) / D * e + latest x0)
      with ((latest x1 - latest x0) * w + latest x0) by (unfold w; field; lra).
    split; nra.
  - apply IH; auto. intros x Hx. apply Hrest. now right.
Qed.

Lemma interp_at_bounds latest m M xs y :
  StronglySorted lt xs -> xs <> [] ->
  (forall x, In x xs -> m <= latest x <= M) ->
  m <= BDT.interp_at (tenor_points latest xs) y <= M.
Proof.
  intros HS Hne Hall. destruct xs as [|x0 rest]; [contradiction|]. simpl.
  pose proof (Hall x0 (or_introl eq_refl)) as H0.
  destruct (Nat.leb_spec y x0) as [Hle|Hgt]; [exact H0|].
  apply interp_from_bounds; auto; try lia. intros x Hx. apply Hall. now right.
Qed.

(** X20. The curve stays within the range of the observations: for
    [t >= 1], if every observed yield at a tenor [<= t] lies between [m] and
    [M], so does every value that [load_market_rates(t)] returns. *)
Theorem load_market_rates_within_observed_range (latest : nat -> R) (t : nat) (m M : R) :
  (1 <= t)%nat ->
  (forall x, In x BDT.fred_yield_yrs -> (x <= t)%nat -> m <= latest x <= M) ->
  Forall (fun v => m <= v <= M) (BDT.load_market_rates latest t).
Proof.
  intros Ht Hobs. unfold BDT.load_market_rates, BDT.interp.
  rewrite combine_map_self. fold (tenor_points latest).
  apply Forall_forall. intros v Hv. apply in_map_iff in Hv. destruct Hv as (y & <- & _).
  apply interp_at_bounds.
  - apply StronglySorted_filter_lt, fred_yield_yrs_sorted.
  - unfold BDT.fred_yield_yrs. cbn [filter].
    replace (1 <=? t)%nat with true by (symmetry; apply Nat.leb_le; lia). discriminate.
  - intros x Hx. apply filter_In in Hx. destruct Hx as [Hin Hle].
    apply Hobs; auto. now apply Nat.leb_le.
Qed.

(** X21. The years of the curve stop at 30: for every horizon [t >= 30],
    [load_market_rates(t)] is [load_market_rates(30)] and so has at most 30
    entries, not [t]. *)
Theorem load_market_rates_horizon_cap (latest : nat -> R) (t : nat) :
  (30 <= t)%nat ->
  BDT.load_market_rates latest t = BDT.load_market_rates latest 30
  /\ (length (BDT.load_market_rates latest t) <= 30)%nat.
Proof.
  intros Ht.
  assert (Hf : filter (fun x => (x <=? t)%nat) BDT.fred_yield_yrs
               = filter (fun x => (x <=? 30)%nat) BDT.fred_yield_yrs).
  { apply filter_ext_in. intros x Hx.
    assert (x <= 30)%nat by (unfold BDT.fred_yield_yrs in Hx; simpl in Hx; lia).
    replace (x <=? 30)%nat with true by (symmetry; apply Nat.leb_le; lia).
    apply Nat.leb_le. lia. }
  assert (Heq : BDT.load_market_rates latest t = BDT.load_market_rates latest 30).
  { unfold BDT.load_market_rates. rewrite Hf.
    set (ys := map latest (filter (fun x => (x <=? 30)%nat) BDT.fred_yield_yrs)).
    assert (Hlin : filter (fun x => negb (BDT.py_in x ys) && (x <=? t)%nat) (up_to 1 31)
                   = filter (fun x => negb (BDT.py_in x ys) && (x <=? 30)%nat) (up_to 1 31)).
    { apply filter_ext_in. intros y Hy. unfold up_to in Hy. apply in_seq in Hy.
      replace (y <=? 30)%nat with true by (symmetry; apply Nat.leb_le; lia).
      now replace (y <=? t)%nat with true by (symmetry; apply Nat.leb_le; lia). }
    now rewrite Hlin. }
  split; [exact Heq|]. rewrite Heq.
  unfold BDT.load_market_rates, BDT.interp. rewrite length_map.
  etransitivity; [apply filter_length_le|]. unfold up_to. now rewrite length_seq.
Qed.

Lemma filter_length_lt {A} (p q : A -> bool) l y :
  (forall x, p x = true -> q x = true) ->
  In y l -> p y = false -> q y = true ->
  (length (filter p l) < length (filter q l))%nat.
Proof.
  intros Hpq. induction l as [|a l IH]; intros Hy Hp Hq; [contradiction|].
  assert (Hle : (length (filter p l) <= length (filter q l))%nat).
  { clear -Hpq. induction l as [|b l IHl]; simpl; auto.
    destruct (p b) eqn:Eb; [rewrite (Hpq b Eb); simpl; lia|].
    destruct (q b); simpl; lia. }
  simpl. destruct Hy as [->|Hy].
  - rewrite Hp, Hq. simpl. lia.
  - specialize (IH Hy Hp Hq). destruct (p a) eqn:Ea.
    + rewrite (Hpq a Ea). simpl. lia.
    + destruct (q a); simpl; lia.
Qed.

(** X6. The membership test of [linear_int] compares a year with the
    observed YIELDS, not the tenors: whenever the yield observed at a tenor
    [x <= t] is, as a number, one of the years [1 .. t], that year is left
    out and the curve has fewer than [t] entries. *)
Theorem load_market_rates_skips_year (latest : nat -> R) (t x y : nat) :
  (t <= 30)%nat -> In x BDT.fred_yield_yrs -> (x <= t)%nat -> (1 <= y <= t)%nat ->
  latest x = INR y ->
  (length (BDT.load_market_rates latest t) < t)%nat.
Proof.
  intros Ht Hx Hxt Hy Hhit. unfold BDT.load_market_rates, BDT.interp.
  rewrite length_map. unfold up_to. replace (31 - 1)%nat with 30%nat by reflexivity.
  apply Nat.lt_le_trans with (length (filter (fun x => (x <=? t)%nat) (seq 1 30)));
    [|rewrite filter_le_seq, length_seq; lia].
  apply (filter_length_lt _ _ _ y).
  - intros z Hz. now apply andb_true_iff in Hz.
  - apply in_seq. lia.
  - apply andb_false_iff. left. apply negb_false_iff.
    unfold BDT.py_in. apply existsb_exists. exists (latest x). split.
    + apply in_map, filter_In. split; [assumption|]. apply Nat.leb_le. lia.
    + destruct (Req_dec_T (INR y) (latest x)) as [_|n]; [reflexivity|].
      exfalso. apply n. now symmetry.
  - apply Nat.leb_le. lia.
Qed.

(** * Portfolio objectives *)

Lemma vsum_map_scal {A} (c : R) (f : A -> R) l :
  vsum (map (fun a => c * f a) l) = c * vsum (map f l).
Proof. unfold vsum. induction l; simpl; [ring|]. rewrite IHl. ring. Qed.

Lemma combine_map_scale_l {B} lam (x : list R) (l : list B) :
  combine (map (Rmult lam) x) l = map (fun '(a, b) => (lam * a, b)) (combine x l).
Proof. revert l. induction x; intros [|b l]; simpl; f_equal; auto. Qed.

Lemma combine_map_scale_r {B} lam (l : list B) (x : list R) :
  combine l (map (Rmult lam) x) = map (fun '(b, a) => (b, lam * a)) (combine l x).
Proof. revert x. induction l; intros [|b x]; simpl; f_equal; auto. Qed.

Lemma vecmat_scale lam x cov :
  MeanVariance.vecmat (map (Rmult lam) x) cov = map (Rmult lam) (MeanVariance.vecmat x cov).
Proof.
  unfold MeanVariance.vecmat. rewrite length_map, map_map. apply map_ext. intros k.
  rewrite combine_map_scale_l, map_map.
  rewrite <- (vsum_map_scal lam (fun '(x_i, row) => x_i * nth k row 0)).
  f_equal. apply map_ext. intros [a row]. ring.
Qed.

Lemma quad_form_scale lam x cov :
  quad_form (map (Rmult lam) x) cov = lam * lam * quad_form x cov.
Proof.
  unfold quad_form. rewrite vecmat_scale.
  rewrite combine_map_scale_l, map_map, combine_map_scale_r, map_map.
  rewrite <- (vsum_map_scal (lam * lam) (fun '(v, x_k) => v * x_k)).
  f_equal. apply map_ext. intros [a b]. ring.
Qed.

Lemma vol_objective_square x cov n :
  shape cov n n -> length x = n ->
  MeanVariance.vol_objective x cov = Some [sqrt (quad_form x cov)].
Proof.
  intros [Hn Hm] Hx. unfold MeanVariance.vol_objective.
  replace (length cov =? length x)%nat with true by (symmetry; apply Nat.eqb_eq; lia).
  replace (forallb (fun row => (length row =? length x)%nat) cov) with true.
  - cbn [andb]. unfold MeanVariance.dot.
    replace (length (MeanVariance.vecmat x cov) =? length x)%nat with true; [reflexivity|].
    symmetry. apply Nat.eqb_eq. unfold MeanVariance.vecmat.
    now rewrite length_map, length_seq.
  - symmetry. apply forallb_forall. intros row Hrow. apply Nat.eqb_eq.
    rewrite Forall_forall in Hm. rewrite (Hm row Hrow). lia.
Qed.

(** X22. Volatility scales with the absolute size of the position: for an
    [n] by [n] matrix, [n] weights and a nonnegative [x^T C x],
    [vol_objective] returns the one-element array [[sqrt(x^T C x)]], and at
    the weights [lam * x] it returns [|lam|] times that. *)
Theorem vol_objective_scales (x : list R) (cov_matrix : matrix) (n : nat) (lam : R) :
  shape cov_matrix n n -> length x = n -> 0 <= quad_form x cov_matrix ->
  MeanVariance.vol_objective x cov_matrix = Some [sqrt (quad_form x cov_matrix)]
  /\ MeanVariance.vol_objective (map (Rmult lam) x) cov_matrix
     = Some [Rabs lam * sqrt (quad_form x cov_matrix)].
Proof.
  intros HS Hx Hq. split; [now apply (vol_objective_square x cov_matrix n)|].
  rewrite (vol_objective_square _ cov_matrix n) by (auto; now rewrite length_map).
  rewrite quad_form_scale.
  rewrite sqrt_mult_alt by nra.
  replace (lam * lam) with (Rsqr lam) by reflexivity.
  now rewrite sqrt_Rsqr_abs.
Qed.

Lemma vsum_repeat c n : vsum (repeat c n) = INR n * c.
Proof.
  unfold vsum. induction n as [|n IH]; [simpl; ring|].
  cbn [repeat fold_right]. rewrite IH, S_INR. ring.
Qed.

Lemma dot_const c n mean :
  length mean = n ->
  vsum (map (fun '(a, b) => a * b) (combine (repeat c n) mean)) = c * vsum mean.
Proof.
  unfold vsum. revert n. induction mean as [|m mean IH]; intros n Hn.
  - destruct n; simpl; ring.
  - destruct n as [|n]; [discriminate|]. simpl. rewrite (IH n) by (simpl in Hn; lia). ring.
Qed.

(** X23. The initial guess of both solvers is feasible for what does not
    depend on the data: for at least one asset the equal weights [1/n] sum to
    1 (the budget constraint is 0 there), each weight meets the lower bound 0
    that applies when short positions are not allowed, and the return
    objective there is minus the average of the mean returns. *)
Theorem initial_weights_feasible (mean_returns : list R) :
  (1 <= length mean_returns)%nat ->
  let x0 := MeanVariance.initial_weights mean_returns in
  length x0 = length mean_returns
  /\ MeanVariance.budget_constraint x0 = 0
  /\ (forall bnds, MeanVariance.bounds mean_returns false = Some bnds ->
                   length bnds = length x0
                   /\ Forall (fun '(w, (lo, hi)) => lo <= w /\ hi = None) (combine x0 bnds))
  /\ MeanVariance.return_objective x0 mean_returns
     = Some (- (vsum mean_returns / INR (length mean_returns))).
Proof.
  intros Hn x0. set (n := length mean_returns) in *.
  assert (HnR : 0 < INR n) by (apply lt_0_INR; lia).
  assert (Hx0 : x0 = repeat (1 / INR n) n).
  { unfold x0, MeanVariance.initial_weights. fold n. now rewrite map_repeat. }
  split; [rewrite Hx0; apply repeat_length|]. split.
  - unfold MeanVariance.budget_constraint. rewrite Hx0, vsum_repeat. field. lra.
  - split.
    + intros bnds Hb. unfold MeanVariance.bounds in Hb. fold n in Hb.
      injection Hb as <-. split.
      * now rewrite Hx0, length_map, length_seq, repeat_length.
      * apply Forall_forall. intros [w [lo hi]] Hin.
        apply in_combine_l in Hin as Hw. apply in_combine_r in Hin as Hb.
        rewrite Hx0 in Hw. apply repeat_spec in Hw.
        apply in_map_iff in Hb. destruct Hb as (k & Hk & _).
        injection Hk as <- <-. subst w. split; [|reflexivity].
        apply Rlt_le, Rdiv_lt_0_compat; lra.
    + unfold MeanVariance.return_objective, MeanVariance.dot.
      rewrite Hx0, repeat_length. fold n. rewrite Nat.eqb_refl.
      rewrite (dot_const _ n) by reflexivity. f_equal. field. lra.
Qed.

(** * Strike monotonicity *)

Lemma option_lattice_monotone term1 term2 t r u d qu qd :
  (1 <= t)%nat -> 0 <= r -> 0 <= u -> 0 <= d -> 0 <= qu -> 0 <= qd ->
  (forall i, (i <= t - 1)%nat -> term1 i <= term2 i) ->
  forall i j, (i <= j <= t - 1)%nat ->
    get (option_lattice term1 t (Binomial.rates_tree r u d (t - 1)) qu qd) i j
    <= get (option_lattice term2 t (Binomial.rates_tree r u d (t - 1)) qu qd) i j.
Proof.
  intros Ht Hr Hu Hd Hqu Hqd Hterm i j Hij.
  destruct (option_lattice_spec term1 t (Binomial.rates_tree r u d (t - 1)) qu qd Ht)
    as [Hl1 Hs1].
  destruct (option_lattice_spec term2 t (Binomial.rates_tree r u d (t - 1)) qu qd Ht)
    as [Hl2 Hs2].
  set (L1 := option_lattice term1 t _ qu qd) in *.
  set (L2 := option_lattice term2 t _ qu qd) in *.
  apply (column_induction (fun i j => get L1 i j <= get L2 i j) (t - 1)); try lia.
  - intros i' Hi'. rewrite Hl1, Hl2 by lia. now apply Hterm.
  - intros j' Hj' IH i' Hi'. rewrite (Hs1 i' j'), (Hs2 i' j') by lia.
    pose proof (IH i' ltac:(lia)) as Ha. pose proof (IH (i' + 1)%nat ltac:(lia)) as Hb.
    pose proof (discount_bounds _ (rates_tree_nonneg r u d (t - 1) i' j' Hr Hu Hd)) as Hdisc.
    apply Rmult_le_compat_l; [lra|].
    apply Rplus_le_compat; now apply Rmult_le_compat_l.
Qed.

(** X24. Raising the strike never raises a caplet and never lowers a
    floorlet: for a nonnegative notional, nonnegative rates and weights and
    strikes [c1 <= c2], the caplet at [c2] costs at most the caplet at [c1]
    and the floorlet at [c1] at most the floorlet at [c2]. *)
Theorem caplet_floorlet_monotone_in_strike
        (notional_value c1 c2 : R) (t : nat) (r u d qu qd : R) :
  (1 <= t)%nat -> 0 <= notional_value -> c1 <= c2 ->
  0 <= r -> 0 <= u -> 0 <= d -> 0 <= qu -> 0 <= qd ->
  Binomial.caplet_price notional_value c2 t r u d qu qd
  <= Binomial.caplet_price notional_value c1 t r u d qu qd
  /\ Binomial.floorlet_price notional_value c1 t r u d qu qd
     <= Binomial.floorlet_price notional_value c2 t r u d qu qd.
Proof.
  intros Ht Hnv Hc Hr Hu Hd Hqu Hqd.
  rewrite !caplet_price_lattice, !floorlet_price_lattice.
  split; apply option_lattice_monotone; auto; try lia; intros i Hi.
  - pose proof (discount_bounds _ (rates_tree_nonneg r u d (t - 1) i (t - 1) Hr Hu Hd)) as Hd1.
    unfold Rdiv in *. rewrite Rmult_1_l in Hd1.
    apply Rmult_le_compat_r; [lra|]. apply Rmult_le_compat_l; [assumption|].
    apply Rle_max_compat_r. lra.
  - pose proof (discount_bounds _ (rates_tree_nonneg r u d (t - 1) i (t - 1) Hr Hu Hd)) as Hd1.
    unfold Rdiv in *. rewrite Rmult_1_l in Hd1.
    apply Rmult_le_compat_r; [lra|]. apply Rmult_le_compat_l; [assumption|].
    apply Rle_max_compat_r. lra.
Qed.

(** * Instances at concrete contracts

    Each statement above that carries a condition is applied once to a
    concrete contract on which the condition holds. *)

Lemma swaption_ot0_at_two_periods :
  0 <= 100 /\ (2 <= 2)%nat
  /\ Binomial.swaption_price 100 0 (1 / 20) 2 (1 / 20) (11 / 10) (9 / 10) (1 / 2) (1 / 2)
     = Rmax (Binomial.swap_price 100 (1 / 20) 2 (1 / 20) (11 / 10) (9 / 10) (1 / 2) (1 / 2)) 0.
Proof.
  split; [lra|]. split; [lia|].
  apply swaption_ot0_is_positive_part; [lra|lia].
Defined.

Lemma cb_futures_structure_at_three_periods :
  (0 < 1 < 3)%nat
  /\ Binomial.cb_futures_price 100 1 3 (1 / 10) (1 / 20) (11 / 10) (9 / 10) (1 / 2) (1 / 2)
     = 1 / 2 * get (Binomial.cb_futures_lattice 100 1 3 (1 / 10) (1 / 20) (11 / 10) (9 / 10)
                      (1 / 2) (1 / 2)) 0 1
       + 1 / 2 * get (Binomial.cb_futures_lattice 100 1 3 (1 / 10) (1 / 20) (11 / 10) (9 / 10)
                        (1 / 2) (1 / 2)) 1 1
  /\ get (Binomial.cb_futures_lattice 100 1 3 (1 / 10) (1 / 20) (11 / 10) (9 / 10)
            (1 / 2) (1 / 2)) 0 1
     = get (Binomial.cb_forward_lattice 100 1 3 (1 / 10) (1 / 20) (11 / 10) (9 / 10)
              (1 / 2) (1 / 2)) 0 1.
Proof.
  split; [lia|].
  destruct (cb_futures_structure 100 1 3 (1 / 10) (1 / 20) (11 / 10) (9 / 10) (1 / 2) (1 / 2)
              ltac:(lia)) as (Hsame & _ & _ & _ & Hplain & Hroot).
  split.
  - rewrite Hroot. apply (Hplain 0%nat 0%nat); lia.
  - apply Hsame. lia.
Defined.

Lemma bdt_rates_tree_at_one_step :
  (1 + 1 <= length [5; 6])%nat
  /\ exists rt, BDT.rates_tree [5; 6] (5 / 1000) 1 = Some rt
                /\ get rt 0 1 = 6 * exp (5 / 1000 * (INR 1 - INR 0)) / 100
                /\ get rt 1 0 = 0.
Proof.
  split; [simpl; lia|].
  destruct (bdt_rates_tree_closed_form [5; 6] (5 / 1000) 1 ltac:(simpl; lia))
    as (rt & Hrt & Hget).
  exists rt. split; [exact Hrt|]. split; rewrite Hget; reflexivity.
Defined.

Lemma pricers_homogeneous_at_short_contracts :
  0 <= 2 /\ (1 <= 1)%nat /\ (0 < 1)%nat /\ (0 < 1 < 2)%nat
  /\ (Binomial.zcb_price (2 * 100) 1 (1 / 20) (11 / 10) (9 / 10) (1 / 2) (1 / 2)
      = scale 2 (Binomial.zcb_price 100 1 (1 / 20) (11 / 10) (9 / 10) (1 / 2) (1 / 2))
      /\ Binomial.cb_price (2 * 100) 1 (1 / 10) (1 / 20) (11 / 10) (9 / 10) (1 / 2) (1 / 2)
         = 2 * Binomial.cb_price 100 1 (1 / 10) (1 / 20) (11 / 10) (9 / 10) (1 / 2) (1 / 2)
      /\ Binomial.caplet_price (2 * 100) (1 / 10) 1 (1 / 20) (11 / 10) (9 / 10) (1 / 2) (1 / 2)
         = 2 * Binomial.caplet_price 100 (1 / 10) 1 (1 / 20) (11 / 10) (9 / 10) (1 / 2) (1 / 2)
      /\ Binomial.floorlet_price (2 * 100) (1 / 10) 1 (1 / 20) (11 / 10) (9 / 10) (1 / 2) (1 / 2)
         = 2 * Binomial.floorlet_price 100 (1 / 10) 1 (1 / 20) (11 / 10) (9 / 10) (1 / 2) (1 / 2)
      /\ Binomial.swap_price (2 * 100) (1 / 10) 1 (1 / 20) (11 / 10) (9 / 10) (1 / 2) (1 / 2)
         = 2 * Binomial.swap_price 100 (1 / 10) 1 (1 / 20) (11 / 10) (9 / 10) (1 / 2) (1 / 2))
  /\ Binomial.cb_futures_price (2 * 100) 0 1 (1 / 10) (1 / 20) (11 / 10) (9 / 10) (1 / 2) (1 / 2)
     = 2 * Binomial.cb_futures_price 100 0 1 (1 / 10) (1 / 20) (11 / 10) (9 / 10) (1 / 2) (1 / 2)
  /\ Binomial.swaption_price (2 * 100) 0 (1 / 10) 1 (1 / 20) (11 / 10) (9 / 10) (1 / 2) (1 / 2)
     = 2 * Binomial.swaption_price 100 0 (1 / 10) 1 (1 / 20) (11 / 10) (9 / 10) (1 / 2) (1 / 2)
  /\ Binomial.cb_forward_price (2 * 100) 1 2 (1 / 10) (1 / 20) (11 / 10) (9 / 10) (1 / 2) (1 / 2)
     = scale 2 (Binomial.cb_forward_price 100 1 2 (1 / 10) (1 / 20) (11 / 10) (9 / 10)
                  (1 / 2) (1 / 2)).
Proof.
  split; [lra|]. split; [lia|]. split; [lia|]. split; [lia|].
  destruct (pricers_homogeneous 2 100 0 0 1 (1 / 10) (1 / 20) (11 / 10) (9 / 10) (1 / 2) (1 / 2)
              ltac:(lra))
    as (Hbonds & _ & Hfutures & Hswaption).
  destruct (pricers_homogeneous 2 100 1 0 2 (1 / 10) (1 / 20) (11 / 10) (9 / 10) (1 / 2) (1 / 2)
              ltac:(lra))
    as (_ & Hforward & _ & _).
  split; [apply Hbonds; lia|]. split; [apply Hfutures; lia|].
  split; [apply Hswaption; lia|]. apply Hforward; lia.
Defined.

Lemma zcb_ept_equal_weights_at_three_periods :
  (1 <= 3)%nat
  /\ get (Binomial.zcb_price 100 3 (1 / 20) (11 / 10) (9 / 10) (1 / 2) (1 / 2)) 0 0
     = 100 * col_sum (Binomial.elementary_price_tree (1 / 20) (11 / 10) (9 / 10) 3
                        (1 / 2) (1 / 2)) 3.
Proof.
  split; [lia|]. apply zcb_root_is_ept_column_sum_equal_weights. lia.
Defined.

Lemma cb_price_zero_coupon_at_three_periods :
  (1 <= 3)%nat
  /\ Binomial.cb_price 100 3 0 (1 / 20) (11 / 10) (9 / 10) (1 / 2) (1 / 2)
     = get (Binomial.zcb_price 100 3 (1 / 20) (11 / 10) (9 / 10) (1 / 2) (1 / 2)) 0 0.
Proof.
  split; [lia|].
  apply (cb_price_zero_coupon 100 3 (1 / 20) (11 / 10) (9 / 10) (1 / 2) (1 / 2)). lia.
Defined.

Lemma sample_rates_positive i j :
  (i <= j < 2)%nat -> 0 < get (Binomial.rates_tree (1 / 20) (11 / 10) (9 / 10) (2 - 1)) i j.
Proof.
  intros Hij.
  assert (Hc : (i = 0 /\ j = 0)%nat \/ (i = 0 /\ j = 1)%nat \/ (i = 1 /\ j = 1)%nat) by lia.
  destruct Hc as [[-> ->]|[[-> ->]|[-> ->]]]; lattice_eval; lra.
Qed.

Lemma elementary_price_tree_sums_at_half_two_periods :
  (1 <= 2)%nat
  /\ col_sum (Binomial.elementary_price_tree (1 / 20) (11 / 10) (9 / 10) 2 (1 / 2) (1 / 2)) 0 = 1
  /\ 0 < col_sum (Binomial.elementary_price_tree (1 / 20) (11 / 10) (9 / 10) 2 (1 / 2) (1 / 2)) 2
     < col_sum (Binomial.elementary_price_tree (1 / 20) (11 / 10) (9 / 10) 2 (1 / 2) (1 / 2)) 1.
Proof.
  split; [lia|].
  destruct (elementary_price_tree_sums_at_half (1 / 20) (11 / 10) (9 / 10) 2 ltac:(lia)
              sample_rates_positive) as (H0 & Hdec & _).
  split; [exact H0|]. apply (Hdec 1%nat). lia.
Defined.

Lemma bdt_sums_at_half_two_periods :
  (1 <= 2 <= length [5; 6])%nat
  /\ exists E, BDT.elementary_price_tree [5; 6] (5 / 1000) 2 (1 / 2) = Some E
               /\ 0 < col_sum E 2 < col_sum E 1.
Proof.
  split; [simpl; lia|].
  destruct (bdt_elementary_price_tree_sums_at_half [5; 6] (5 / 1000) 2 ltac:(simpl; lia))
    as (E & HE & _ & Hdec & _).
  - intros x [<-|[<-|[]]]; lra.
  - exists E. split; [exact HE|]. apply (Hdec 1%nat). lia.
Defined.

Lemma elementary_price_tree_recurrence_at_two_periods :
  (1 <= 2)%nat
  /\ get (Binomial.elementary_price_tree (1 / 20) (11 / 10) (9 / 10) 2 (3 / 5) (2 / 5)) 1 2
     = 3 / 5 * (1 / (1 + get (Binomial.rates_tree (1 / 20) (11 / 10) (9 / 10) (2 - 1)) (1 - 1) (2 - 1)))
       * get (Binomial.elementary_price_tree (1 / 20) (11 / 10) (9 / 10) 2 (3 / 5) (2 / 5))
             (1 - 1) (2 - 1)
       + 2 / 5 * (1 / (1 + get (Binomial.rates_tree (1 / 20) (11 / 10) (9 / 10) (2 - 1)) 1 (2 - 1)))
         * get (Binomial.elementary_price_tree (1 / 20) (11 / 10) (9 / 10) 2 (3 / 5) (2 / 5))
               1 (2 - 1).
Proof.
  split; [lia|].
  destruct (elementary_price_tree_recurrence (1 / 20) (11 / 10) (9 / 10) 2 (3 / 5) (2 / 5)
              ltac:(lia)) as (_ & Hcol & _).
  destruct (Hcol 2%nat ltac:(lia)) as (_ & _ & Hmid).
  apply (Hmid 1%nat). lia.
Defined.

Lemma zcb_price_bounds_at_three_periods :
  (1 <= 3)%nat /\ 0 <= 100 /\ 1 / 2 + 1 / 2 = 1
  /\ 0 <= get (Binomial.zcb_price 100 3 (1 / 20) (11 / 10) (9 / 10) (1 / 2) (1 / 2)) 0 0 <= 100.
Proof.
  split; [lia|]. split; [lra|]. split; [lra|].
  apply (zcb_price_bounds 100 3 (1 / 20) (11 / 10) (9 / 10) (1 / 2) (1 / 2));
    try lra; lia.
Defined.

Lemma caplet_floorlet_nonneg_at_three_periods :
  (1 <= 3)%nat /\ 0 <= 100
  /\ 0 <= Binomial.caplet_price 100 (1 / 20) 3 (1 / 20) (11 / 10) (9 / 10) (1 / 2) (1 / 2)
  /\ 0 <= Binomial.floorlet_price 100 (1 / 20) 3 (1 / 20) (11 / 10) (9 / 10) (1 / 2) (1 / 2).
Proof.
  split; [lia|]. split; [lra|].
  apply (caplet_floorlet_nonneg 100 (1 / 20) 3 (1 / 20) (11 / 10) (9 / 10) (1 / 2) (1 / 2));
    try lra; lia.
Defined.

Lemma swaption_price_nonneg_at_three_periods :
  (1 < 3)%nat /\ 0 <= 100
  /\ 0 <= Binomial.swaption_price 100 1 (1 / 20) 3 (1 / 20) (11 / 10) (9 / 10) (1 / 2) (1 / 2).
Proof.
  split; [lia|]. split; [lra|].
  apply (swaption_price_nonneg 100 1 (1 / 20) 3 (1 / 20) (11 / 10) (9 / 10) (1 / 2) (1 / 2));
    try lra; lia.
Defined.

Lemma cap_floor_parity_at_three_periods :
  (2 <= 3)%nat /\ 1 / 2 + 1 / 2 = 1
  /\ Binomial.caplet_price 100 (1 / 20) 3 (1 / 20) (11 / 10) (9 / 10) (1 / 2) (1 / 2)
     - Binomial.floorlet_price 100 (1 / 20) 3 (1 / 20) (11 / 10) (9 / 10) (1 / 2) (1 / 2)
     = 100 * (get (Binomial.zcb_price 1 (3 - 1) (1 / 20) (11 / 10) (9 / 10) (1 / 2) (1 / 2)) 0 0
              - (1 + 1 / 20)
                * get (Binomial.zcb_price 1 3 (1 / 20) (11 / 10) (9 / 10) (1 / 2) (1 / 2)) 0 0).
Proof.
  split; [lia|]. split; [lra|].
  apply (cap_floor_parity 100 (1 / 20) 3 (1 / 20) (11 / 10) (9 / 10) (1 / 2) (1 / 2));
    try lra; lia.
Defined.

Lemma swap_price_affine_at_three_periods :
  (1 <= 3)%nat
  /\ Binomial.swap_price 100 (1 / 20) 3 (1 / 20) (11 / 10) (9 / 10) (1 / 2) (1 / 2)
     = Binomial.swap_price 100 0 3 (1 / 20) (11 / 10) (9 / 10) (1 / 2) (1 / 2)
       - 1 / 20 * (Binomial.swap_price 100 0 3 (1 / 20) (11 / 10) (9 / 10) (1 / 2) (1 / 2)
                   - Binomial.swap_price 100 1 3 (1 / 20) (11 / 10) (9 / 10) (1 / 2) (1 / 2)).
Proof.
  split; [lia|].
  apply (swap_price_affine_in_strike 100 (1 / 20) 3 (1 / 20) (11 / 10) (9 / 10) (1 / 2) (1 / 2)).
  lia.
Defined.

Lemma swap_par_rate_at_three_periods :
  (1 <= 3)%nat
  /\ exists c, Binomial.swap_price 100 c 3 (1 / 20) (11 / 10) (9 / 10) (1 / 2) (1 / 2) = 0.
Proof.
  split; [lia|].
  destruct (swap_par_rate_exists 100 3 (1 / 20) (11 / 10) (9 / 10) (1 / 2) (1 / 2)
              ltac:(lia) ltac:(lra) ltac:(lra) ltac:(lra) ltac:(lra) ltac:(lra))
    as (c & Hc & _).
  exists c. exact Hc.
Defined.

Lemma cb_price_at_zero_rates_three_periods :
  (1 <= 3)%nat /\ 1 / 2 + 1 / 2 = 1
  /\ Binomial.cb_price 100 3 (1 / 10) 0 (11 / 10) (9 / 10) (1 / 2) (1 / 2)
     = 100 * (1 + (INR 3 + 1) * (1 / 10)).
Proof.
  split; [lia|]. split; [lra|].
  apply (cb_price_at_zero_rates 100 3 (1 / 10) (11 / 10) (9 / 10) (1 / 2) (1 / 2)); [lia|lra].
Defined.

Lemma cb_price_affine_at_three_periods :
  (1 <= 3)%nat
  /\ Binomial.cb_price 100 3 (1 / 10) (1 / 20) (11 / 10) (9 / 10) (1 / 2) (1 / 2)
     = get (Binomial.zcb_price 100 3 (1 / 20) (11 / 10) (9 / 10) (1 / 2) (1 / 2)) 0 0
       + 1 / 10
         * (Binomial.cb_price 100 3 1 (1 / 20) (11 / 10) (9 / 10) (1 / 2) (1 / 2)
            - get (Binomial.zcb_price 100 3 (1 / 20) (11 / 10) (9 / 10) (1 / 2) (1 / 2)) 0 0).
Proof.
  split; [lia|].
  apply (cb_price_affine_in_coupon 100 3 (1 / 10) (1 / 20) (11 / 10) (9 / 10) (1 / 2) (1 / 2)).
  lia.
Defined.

Lemma cb_forward_price_cells_at_three_periods :
  (0 < 1 < 3)%nat
  /\ shape (Binomial.cb_forward_price 100 1 3 (1 / 10) (1 / 20) (11 / 10) (9 / 10)
              (1 / 2) (1 / 2)) (1 + 1) (1 + 1)
  /\ get (Binomial.cb_forward_price 100 1 3 (1 / 10) (1 / 20) (11 / 10) (9 / 10)
            (1 / 2) (1 / 2)) 1 1
     = get (Binomial.cb_forward_lattice 100 1 3 (1 / 10) (1 / 20) (11 / 10) (9 / 10)
              (1 / 2) (1 / 2)) 0 0.
Proof.
  split; [lia|].
  destruct (cb_forward_price_cells 100 1 3 (1 / 10) (1 / 20) (11 / 10) (9 / 10) (1 / 2) (1 / 2)
              ltac:(lia)) as (HS & _ & Hlast).
  split; [exact HS|]. apply (Hlast 1%nat). lia.
Defined.

Lemma bdt_curves_length_at_two_periods :
  (1 <= 2)%nat
  /\ (BDT.ZCB_prices [5] (5 / 1000) 2 (1 / 2) = None
      /\ BDT.BDT_spot_rates [5] (5 / 1000) 2 (1 / 2) = None)
  /\ exists zcb sr, BDT.ZCB_prices [5; 6] (5 / 1000) 2 (1 / 2) = Some zcb
                    /\ BDT.BDT_spot_rates [5; 6] (5 / 1000) 2 (1 / 2) = Some sr
                    /\ length zcb = 2%nat /\ length sr = 2%nat.
Proof.
  split; [lia|]. split.
  - apply (bdt_curves_length [5] (5 / 1000) 2 (1 / 2)); simpl; lia.
  - apply (bdt_curves_length [5; 6] (5 / 1000) 2 (1 / 2)); simpl; lia.
Defined.

Lemma bdt_first_spot_rate_at_two_periods :
  (1 <= 2 <= length [5; 6])%nat /\ -100 < nth 0 [5; 6] 0
  /\ exists sr, BDT.BDT_spot_rates [5; 6] (5 / 1000) 2 (3 / 10) = Some sr
                /\ nth 0 sr 0 = nth 0 [5; 6] 0 / 100.
Proof.
  split; [simpl; lia|]. split; [simpl; lra|].
  apply (bdt_first_spot_rate [5; 6] (5 / 1000) 2 (3 / 10)); simpl; [lia|lra].
Defined.

Lemma bdt_spot_rates_positive_at_two_periods :
  (1 <= 2 <= length [5; 6])%nat
  /\ exists sr, BDT.BDT_spot_rates [5; 6] (5 / 1000) 2 (1 / 2) = Some sr
                /\ length sr = 2%nat /\ Forall (fun s => 0 < s) sr.
Proof.
  split; [simpl; lia|].
  apply (bdt_spot_rates_positive [5; 6] (5 / 1000) 2); [simpl; lia|].
  intros x [<-|[<-|[]]]; lra.
Defined.

Lemma objective_zero_iff_fit_at_two_periods :
  (1 <= 2 <= length [5; 6])%nat /\ length [3 / 100; 3 / 100] = 2%nat /\ 0 <= 1 / 2 <= 1
  /\ exists sr v, BDT.BDT_spot_rates [5; 6] (5 / 1000) 2 (1 / 2) = Some sr
                  /\ BDT.objective [5; 6] (5 / 1000) 2 (1 / 2) [3 / 100; 3 / 100] = Some v
                  /\ 0 <= v /\ (v = 0 <-> [3 / 100; 3 / 100] = sr).
Proof.
  split; [simpl; lia|]. split; [reflexivity|]. split; [lra|].
  destruct (objective_zero_iff_fit [5; 6] (5 / 1000) 2 (1 / 2) [3 / 100; 3 / 100])
    as (zcb & sr & v & _ & _ & HS & _ & Hv & Hnn & Hiff).
  - simpl; lia.
  - reflexivity.
  - intros x [<-|[<-|[]]]; lra.
  - lra.
  - exists sr, v. repeat split; try assumption; apply Hiff.
Defined.

Lemma sample_yields_range x :
  In x BDT.fred_yield_yrs -> (x <= 5)%nat -> 3 / 2 <= sample_yields x <= 11 / 2.
Proof.
  intros Hin Hle. unfold sample_yields.
  assert (H1 : (1 <= x)%nat) by (unfold BDT.fred_yield_yrs in Hin; simpl in Hin; lia).
  apply le_INR in H1. apply le_INR in Hle. simpl in H1, Hle. lra.
Qed.

Lemma load_market_rates_range_at_5 :
  (1 <= 5)%nat
  /\ Forall (fun v => 3 / 2 <= v <= 11 / 2) (BDT.load_market_rates sample_yields 5).
Proof.
  split; [lia|].
  apply (load_market_rates_within_observed_range sample_yields 5 (3 / 2) (11 / 2));
    [lia|exact sample_yields_range].
Defined.

Lemma load_market_rates_cap_at_40 :
  (30 <= 40)%nat
  /\ BDT.load_market_rates sample_yields 40 = BDT.load_market_rates sample_yields 30
  /\ (length (BDT.load_market_rates sample_yields 40) <= 30)%nat.
Proof.
  split; [lia|]. apply (load_market_rates_horizon_cap sample_yields 40). lia.
Defined.

Lemma par_yields_one_year : par_yields 1 = INR 4.
Proof. unfold par_yields. simpl. lra. Qed.

Lemma load_market_rates_skips_year_4 :
  (5 <= 30)%nat /\ In 1%nat BDT.fred_yield_yrs /\ (1 <= 4 <= 5)%nat /\ par_yields 1 = INR 4
  /\ (length (BDT.load_market_rates par_yields 5) < 5)%nat.
Proof.
  split; [lia|]. split; [now left|]. split; [lia|]. split; [exact par_yields_one_year|].
  apply (load_market_rates_skips_year par_yields 5 1 4);
    [lia|now left|lia|lia|exact par_yields_one_year].
Defined.

Lemma sample_quad_form_nonneg :
  0 <= quad_form [1 / 2; 1 / 2] [[4 / 100; 1 / 100]; [1 / 100; 9 / 100]].
Proof.
  unfold quad_form, MeanVariance.vecmat, vsum. simpl. lra.
Qed.

Lemma sample_cov_shape : shape [[4 / 100; 1 / 100]; [1 / 100; 9 / 100]] 2 2.
Proof. split; [reflexivity|]. repeat constructor. Qed.

Lemma vol_objective_scales_short_position :
  shape [[4 / 100; 1 / 100]; [1 / 100; 9 / 100]] 2 2
  /\ 0 <= quad_form [1 / 2; 1 / 2] [[4 / 100; 1 / 100]; [1 / 100; 9 / 100]]
  /\ MeanVariance.vol_objective (map (Rmult (-2)) [1 / 2; 1 / 2])
       [[4 / 100; 1 / 100]; [1 / 100; 9 / 100]]
     = Some [Rabs (-2)
             * sqrt (quad_form [1 / 2; 1 / 2] [[4 / 100; 1 / 100]; [1 / 100; 9 / 100]])].
Proof.
  split; [exact sample_cov_shape|]. split; [exact sample_quad_form_nonneg|].
  apply (vol_objective_scales [1 / 2; 1 / 2] [[4 / 100; 1 / 100]; [1 / 100; 9 / 100]] 2 (-2));
    [exact sample_cov_shape|reflexivity|exact sample_quad_form_nonneg].
Defined.

Lemma initial_weights_feasible_two_assets :
  (1 <= length [1 / 100; 3 / 100])%nat
  /\ MeanVariance.budget_constraint (MeanVariance.initial_weights [1 / 100; 3 / 100]) = 0
  /\ MeanVariance.return_objective (MeanVariance.initial_weights [1 / 100; 3 / 100])
       [1 / 100; 3 / 100]
     = Some (- (vsum [1 / 100; 3 / 100] / INR (length [1 / 100; 3 / 100]))).
Proof.
  split; [simpl; lia|].
  destruct (initial_weights_feasible [1 / 100; 3 / 100] ltac:(simpl; lia))
    as (_ & Hb & _ & Hr).
  split; [exact Hb|exact Hr].
Defined.

Lemma caplet_floorlet_monotone_at_three_periods :
  (1 <= 3)%nat /\ 0 <= 100 /\ 4 / 100 <= 6 / 100
  /\ Binomial.caplet_price 100 (6 / 100) 3 (1 / 20) (11 / 10) (9 / 10) (1 / 2) (1 / 2)
     <= Binomial.caplet_price 100 (4 / 100) 3 (1 / 20) (11 / 10) (9 / 10) (1 / 2) (1 / 2)
  /\ Binomial.floorlet_price 100 (4 / 100) 3 (1 / 20) (11 / 10) (9 / 10) (1 / 2) (1 / 2)
     <= Binomial.floorlet_price 100 (6 / 100) 3 (1 / 20) (11 / 10) (9 / 10) (1 / 2) (1 / 2).
Proof.
  split; [lia|]. split; [lra|]. split; [lra|].
  apply (caplet_floorlet_monotone_in_strike 100 (4 / 100) (6 / 100) 3
           (1 / 20) (11 / 10) (9 / 10) (1 / 2) (1 / 2)); try lra; lia.
Defined.
